(* ===== verification/_CoqProject ===== *)
-Q . S2P
Prelude.v
Chars.v
Lines.v
LineQueue.v
Streambuf.v
Bridge.v
Engine.v
Sync.v
Refine.v
