(* ===== verification/Prelude.v ===== *)
(** * MindGambit JNI bridge: a verification development

    The program ([src/app/src/main/jni/bridge.cpp]) is a duplex, line
    oriented command bridge between a managed caller and a native engine
    that runs on a thread of its own.  Two global [std::queue<std::string>]
    carry the lines, one per direction; each is guarded by a mutex and a
    condition variable.  Two [std::streambuf] subclasses are installed as
    the buffers of [std::cin] and [std::cout], so that the engine's
    unmodified read/write loop talks to the queues:

      caller --nativeSendCommand--> inputQueue --InputBuffer::underflow--> engine
      engine --OutputBuffer::overflow--> outputQueue --nativeReadLine--> caller

    [nativeInit] allocates the two buffers, redirects the streams and
    launches the detached engine thread; [nativeDestroy] pushes the line
    "quit".  [src/app/src/main/jni/stockfish/stockfish_stub.cpp] is the
    stand-in engine whose [init] and [loop] return at once.

    ** Files, in dependency order

    - [Prelude] (this file): the development's tactics, the hint and
      rewrite databases, the [outcome] of an operation that may suspend
      or go wrong, with its bind notation (scope [bridge_scope]), and the list
      functions [upto] and [after] that cut a sequence at the first
      occurrence of a delimiter, with their lemmas.
    - [Chars]: the C++ character model.  [char] is an 8-bit pattern
      ([ascii]), [int_type] is [Z]; [EOF], ['\n'], [to_int_type] (line 48),
      [static_cast<char>] with its wrap-around modulo 256 (line 64),
      [std::string] built from a C string (line 116) and [c_str] (line 139), which
      both stop at the first NUL.
    - [Lines]: the reference (specification-level) functions on character
      streams, [unlines] and [split_lines], and the round trips between
      them.  Nothing here is translated from code: it is what the adapters
      are specified against.
    - [LineQueue]: [std::queue<std::string>] as the program uses it
      ([push], [front], [pop], [empty]) and the laws of these four
      members the other files use.
    - [Streambuf]: the [std::streambuf] interface as a type class whose
      two virtual members are [underflow] and [overflow]; the non-virtual
      readers and writers ([sgetc], [sbumpc], [uflow], [sputc], [sputn])
      defined once against the class, as the C++ base class defines them;
      [InputBuffer] (lines 40-52) and [OutputBuffer] (lines 54-71) as its
      two instances, each overriding one virtual member.
    - [Bridge]: the process-wide state (lines 28-37, 73-74) as the record
      [Bridge.state], the four JNI entry points (lines 80-152) as functions
      on it, the life-cycle state machine, and the end-to-end theorems of
      the two directions.
    - [Engine]: the collaborator interface ([Stockfish::init],
      [Stockfish::loop], lines 21-24) as the type class [Engine.Engine] of
      resumable engines (a state, its next action, a continuation after
      a character read and after a character written); the stub of
      [stockfish_stub.cpp] as its instance [Engine.Stub], from the
      source; [Engine.LineEngine], an engine that reads lines, answers
      them and returns on "quit", written from the collaborator contract
      of the specification (it stands in for Stockfish, whose code is
      not in the repository: the theorems about it describe the bridge
      driven by an engine that keeps the contract); and the system
      [Engine.sys] of the bridge with its engine threads, whose moves
      are steps of [Bridge.step].  The methods [next], [got] and [wrote]
      of the class are the model's way to run an engine one access at a
      time; the code has only [init] and [loop].
    - [Sync]: the mutex and the condition variable of one direction
      (lines 28-34).  Every statement inside the five critical sections
      of [bridge.cpp] (lines 43-46, 59-62, 115-117, 126-138, 148-150)
      is one transition of a thread with a program counter; any number
      of threads interleave, with [notify_one], timeouts and spurious
      wake-ups.  Mutual exclusion, the absence of undefined behaviour,
      the history of the queue and the absence of lost wake-ups are
      invariants of every interleaving.  The statements that touch only
      the buffer object of the calling thread ([setg] and the return of
      lines 47-48, [lineBuffer.clear()] of line 61) are part of the
      transition before them.
    - [Refine]: the two directions of [Sync] side by side
      ([Refine.channels]) and their relation to [Bridge].  Every
      transition of [Sync] is given the queue operation it performs
      ([Refine.point]: a push, a pop, a timed wait that finds nothing, or
      none), and every queue operation the events of [Bridge] it is
      ([Refine.in_events], [Refine.out_events]); the type class
      [Refine.Direction] is what a direction owes the simulation, and
      [Refine.input_side] and [Refine.output_side] are its two
      instances.  [Refine.synced] relates the queues of [Sync] to a
      state of [Bridge].

    ** How the model corresponds to the code

    State is passed explicitly.  In [Bridge] every critical section is
    one atomic step: an operation that can suspend (the wait of line 44)
    returns [Blocked] when the code would wait and [Ready] otherwise, and
    the timed wait of lines 127-131 takes the outcome of the timer as an
    argument, because [wait_for] with a predicate returns the
    predicate's value when the time has elapsed.  [Sync] is where the
    statements of a critical section are transitions of their own and
    the wait is a state of the thread.  [Refine] connects the two:
    [Refine.statements_refine_bridge] shows that every interleaving of
    the statements of both directions is a run of the atomic steps of
    [Bridge], with the same queues at the end and the same lines sent,
    read, written, received and returned.  In that run the engine's
    reads of a line stand at the pop that took the line, and its writes
    of a line at the push that queued it: between two calls of
    [underflow] the engine touches only the get area of its own buffer,
    and before the newline only its own line buffer, so these accesses
    commute with everything the other threads do.

    [Bridge.step] lets the engine move whenever an engine was ever
    launched: [Bridge.engines] counts the threads launched and is never
    decremented, so a thread whose loop has returned is still counted
    and the model has the runs of the program and more.  Two engines
    (after a second [nativeInit]) read and write one character at a
    time here; in the program their accesses to the shared buffer are
    unsynchronised, a data race the model does not show.  [nativeInit]
    is one step, although its writes to the globals are not ordered
    with the accesses of an engine that already runs.

    Allocation and thread creation in [nativeInit] can throw; the fault
    is an argument of the model ([Bridge.fault]), and the effects that
    precede the throw stay in the state, as they do in the code.
    Nothing else in the [try] is given a fault: [detach] is called on
    the thread just created, which is joinable, and the logging calls
    are C functions.  The
    two buffer objects live in a free store ([Bridge.in_heap],
    [Bridge.out_heap]) and the streams and the globals [inputBuf] and
    [outputBuf] point into it, so that a second [nativeInit] leaves the
    old objects where they are.

    Integers keep their meaning: [overflow] takes an [int], compares it
    with [EOF] and ['\n'] as integers and only then narrows it to [char],
    so 266 is not a newline when tested and is one when stored.

    ** What the theorems show

    - Round trips ([Bridge.input_delivery], [Bridge.output_delivery]):
      lines sent are the characters the engine reads, in order, each
      followed by a newline; characters written are the lines received,
      cut at the newlines, the unterminated tail withheld.
    - Equivalence ([Streambuf.ob_sputn_split],
      [Streambuf.ib_sgetn_pending]): the character-at-a-time [overflow]
      machine computes [Lines.split_lines]; the generic readers compute
      the queue's concatenation.
    - Concurrency ([Sync.mutual_exclusion],
      [Sync.no_undefined_behaviour], [Sync.queue_history],
      [Sync.no_lost_wakeup], [Sync.progress], [Sync.sleeper_served]):
      properties of every interleaving of any number of producers and
      consumers on one queue.
    - Refinement ([Refine.statements_refine_bridge],
      [Refine.linearizable], [Sync.linearization],
      [Sync.alone_is_atomic], [Engine.system_refines_bridge],
      [Bridge.lifecycle_refinement]): every schedule of the statements
      is a sequence of queue operations done at once and a run of
      [Bridge]; an operation that runs alone does what it does at once;
      the system with an engine runs the bridge; the steps of the bridge
      are transitions of the life cycle of the specification, widened by
      the transitions the code adds (every call is accepted in every
      phase).
    - The engine ([Engine.system_refines_bridge],
      [Engine.answers_delivered], [Engine.commands_answered_in_order],
      [Engine.quit_stops_engine], [Engine.stub_never_answers]): whatever
      the engine, the system runs the bridge; with an engine that reads
      lines, in every schedule, the lines received and queued are the
      answers to the commands read, in order; such an engine answers
      every command it is sent and returns on "quit"; the stub never
      answers.
    - Bounds: [underflow] returns a value in 0..255, never [EOF];
      narrowing wraps modulo 256.
    - Errors: an empty queue blocks the reader and yields [None] from
      [nativeReadLine]; a throwing [nativeInit] returns [false] and
      launches no thread.
    - Invariants ([Bridge.reachable_inv], [Bridge.lifecycle_refinement]):
      pointers are null or live, queue contents are NUL-free on the
      input side and newline-free on the output side; the life-cycle
      phases are closed under the entry points.
    - What the code does where the specification is silent or says
      otherwise: a line is cut at its first NUL on the way out
      ([Bridge.readline_cuts_at_NUL]), a command with a newline in it is
      two commands ([Bridge.embedded_newline_is_two_commands]), a second
      [nativeInit] loses the rest of the line the engine was reading
      ([Bridge.second_init_loses_current_line]), [nativeDestroy] queues
      "quit" in every state, also before [nativeInit]
      ([Bridge.destroy_delivers_quit]), a failed thread creation leaves
      the streams redirected ([Bridge.thread_failure_leaves_running]).

    ** Bounds and fuel

    No operation of the bridge loops except the two waits.  In [Bridge]
    a wait is the outcome [Blocked]; in [Sync] it is the counter
    [Sync.C_sleep] and the loop of the wait is the cycle of transitions
    through it.  [Engine.drive] runs an engine thread with fuel counted
    in actions (one character read or written each);
    [Engine.commands_answered_in_order] and [Engine.quit_stops_engine]
    give the fuel that suffices: the length of the command plus one,
    plus the length of the answer with its newlines, and five for
    "quit".  The schedules [Sync.alone] have the length of the critical
    section they run, at most eight transitions.  [Refine] has no fuel:
    its theorems are about every finite schedule.

    ** Not modelled

    The JNI environment (UTF-8 conversion of [jstring], reference
    management), logging, and the real engine behind [Stockfish::loop].
    The C++ memory model below the mutex: shared state is sequentially
    consistent, so the unsynchronised writes of [engineRunning] (lines
    92 and 146) are not races here.  Time: a timeout can fire whenever
    a thread sleeps in [wait_for], and nothing bounds how long it
    takes.  Fairness of the scheduler: [Sync.progress] says that a
    transition is enabled, not that it is taken.  [Sync] has one queue;
    in [Refine] the two directions are two instances of it that share
    no state, and a thread of the program is a thread of one of them at
    a time: the product lets the two sides interleave freely, which
    includes every order the program has.  The exit of an engine thread
    and races between two engines on one stream buffer (see above). *)

From Stdlib Require Import ZArith List Lia.
From stdpp Require Import base tactics option list.

(** ** Scope and databases *)

Declare Scope bridge_scope.
Delimit Scope bridge_scope with bridge.

Create HintDb bridge discriminated.
Create Rewrite HintDb bridge_rw.
Create Rewrite HintDb sync_rw.

(** ** Tactics *)

(** Rewrite with the equations the files export. *)
Ltac bridge_simpl := autorewrite with bridge_rw.

(** ** Operations that may suspend or go wrong *)

(** The outcome of a call.  [Ready a]: it returned [a].  [Blocked]: the
    predicate of its wait is false, the caller is suspended and nothing
    has changed.  [Undefined]: it ran into behaviour C++ leaves
    undefined ([front] or [pop] of an empty queue, a null C string). *)
Inductive outcome (A : Type) : Type :=
| Ready (a : A)
| Blocked
| Undefined.
Arguments Ready {A} a.
Arguments Blocked {A}.
Arguments Undefined {A}.

Definition outcome_bind {A B} (m : outcome A) (k : A -> outcome B) : outcome B :=
  match m with
  | Ready a => k a
  | Blocked => Blocked
  | Undefined => Undefined
  end.

(** A value that must be there: its absence is undefined behaviour. *)
Definition must {A} (o : option A) : outcome A :=
  match o with
  | Some a => Ready a
  | None => Undefined
  end.

Definition defined {A} (m : outcome A) : Prop := m <> Undefined.

Notation "x <~ m ;; k" := (outcome_bind m (fun x => k))
  (at level 20, m at level 99, k at level 200, only parsing) : bridge_scope.
Notation "' p <~ m ;; k" := (outcome_bind m (fun p => k))
  (at level 20, p pattern, m at level 99, k at level 200, only parsing) : bridge_scope.

#[export] Instance outcome_eq_dec `{EqDecision A} : EqDecision (outcome A).
Proof. solve_decision. Defined.

#[export] Instance defined_dec {A} (m : outcome A) : Decision (defined m).
Proof. destruct m; [left | left | right]; unfold defined; congruence. Defined.

Lemma outcome_bind_defined {A B} (m : outcome A) (k : A -> outcome B) :
  defined m -> (forall a, m = Ready a -> defined (k a)) -> defined (outcome_bind m k).
Proof. destruct m; unfold defined; simpl; intros Hm Hk; [by apply Hk | done | done]. Qed.

(** ** Lists *)

Lemma tail_drop {A} n (l : list A) : tail (drop n l) = drop (S n) l.
Proof.
  replace (tail (drop n l)) with (drop 1 (drop n l)) by (by destruct (drop n l)).
  rewrite drop_drop. f_equal. lia.
Qed.

(** Selecting from the images of a list: all of them, or none. *)
Lemma omap_fmap_Some {A B} (f : B -> option A) (g : A -> B) (l : list A) :
  (forall x, f (g x) = Some x) -> omap f (g <$> l) = l.
Proof. intros Hf. induction l as [|x l IH]; csimpl; [done|]. by rewrite Hf, IH. Qed.

Lemma omap_fmap_None {A B C} (f : B -> option C) (g : A -> B) (l : list A) :
  (forall x, f (g x) = None) -> omap f (g <$> l) = [].
Proof. intros Hf. induction l as [|x l IH]; csimpl; [done|]. by rewrite Hf. Qed.

(** ** Counting the elements of a list that pass a test *)

Section Count.
Context {A : Type} (f : A -> bool).

Fixpoint count (l : list A) : nat :=
  match l with
  | [] => 0
  | x :: l' => (if f x then 1 else 0) + count l'
  end.

(** Replacing one element moves the count by that element's share. *)
Lemma count_insert l i x y :
  l !! i = Some y ->
  count (<[i := x]> l) + (if f y then 1 else 0) = count l + (if f x then 1 else 0).
Proof.
  revert i. induction l as [|z l IH]; intros [|i]; simpl; try done.
  - intros [= ->]. lia.
  - intros Hi. specialize (IH i Hi). lia.
Qed.

Lemma count_replicate n x : count (replicate n x) = if f x then n else 0.
Proof. induction n as [|n IH]; simpl; [by destruct (f x)|]. rewrite IH. by destruct (f x). Qed.

Lemma count_pos l : 0 < count l -> exists i x, l !! i = Some x /\ f x = true.
Proof.
  induction l as [|z l IH]; simpl; [lia|].
  destruct (f z) eqn:Hz; [by exists 0, z|].
  intros Hl. destruct IH as (i & x & Hi & Hx); [lia|]. by exists (S i), x.
Qed.

End Count.

(** ** Cutting a sequence at a delimiter *)

Section Cut.
Context {A : Type} `{EqDecision A}.
Implicit Types (d x : A) (l r : list A).

(** The elements before the first [d]; everything when there is none. *)
Fixpoint upto (d : A) (l : list A) : list A :=
  match l with
  | [] => []
  | x :: l' => if decide (x = d) then [] else x :: upto d l'
  end.

(** The elements behind the first [d]; [None] when there is none. *)
Fixpoint after (d : A) (l : list A) : option (list A) :=
  match l with
  | [] => None
  | x :: l' => if decide (x = d) then Some l' else after d l'
  end.

Lemma upto_not_elem d l : d ∉ upto d l.
Proof.
  induction l as [|x l IH]; simpl; [by apply not_elem_of_nil|].
  case_decide; [by apply not_elem_of_nil|].
  by apply not_elem_of_cons.
Qed.

Lemma upto_id d l : d ∉ l -> upto d l = l.
Proof.
  induction l as [|x l IH]; simpl; [done|].
  intros [? ?]%not_elem_of_cons. case_decide; [congruence|]. f_equal; auto.
Qed.

Lemma upto_idemp d l : upto d (upto d l) = upto d l.
Proof. apply upto_id, upto_not_elem. Qed.

Lemma upto_app d l r : d ∉ l -> upto d (l ++ d :: r) = l.
Proof.
  induction l as [|x l IH]; simpl.
  - intros _. by case_decide.
  - intros [? ?]%not_elem_of_cons. case_decide; [congruence|]. f_equal; auto.
Qed.

Lemma upto_app_r d l r : d ∉ l -> upto d (l ++ r) = l ++ upto d r.
Proof.
  induction l as [|x l IH]; simpl; [done|].
  intros [? ?]%not_elem_of_cons. case_decide; [congruence|]. f_equal; auto.
Qed.

Lemma upto_app_l d l r : d ∈ l -> upto d (l ++ r) = upto d l.
Proof.
  induction l as [|x l IH]; simpl; [by intros ?%elem_of_nil|].
  intros [->|?]%elem_of_cons.
  - by case_decide.
  - case_decide; [done|]. f_equal; auto.
Qed.

Lemma upto_prefix d l : upto d l `prefix_of` l.
Proof.
  induction l as [|x l IH]; simpl; [done|].
  case_decide; [apply prefix_nil|]. by apply prefix_cons.
Qed.

Lemma after_None d l : after d l = None <-> d ∉ l.
Proof.
  induction l as [|x l IH]; simpl.
  - split; [intros _; apply not_elem_of_nil|done].
  - case_decide; subst.
    + split; [done|]. intros Hn. exfalso. apply Hn. by left.
    + rewrite IH, not_elem_of_cons. intuition congruence.
Qed.

Lemma after_app d l r : d ∉ l -> after d (l ++ d :: r) = Some r.
Proof.
  induction l as [|x l IH]; simpl.
  - intros _. by case_decide.
  - intros [? ?]%not_elem_of_cons. case_decide; [congruence|]. auto.
Qed.

(** A sequence that holds [d] is its part before, [d], its part behind. *)
Lemma upto_after d l r : after d l = Some r -> l = upto d l ++ d :: r.
Proof.
  revert r. induction l as [|x l IH]; simpl; [done|]. intros r.
  case_decide; [intros [= ->]; by subst|].
  intros Hr. simpl. f_equal. auto.
Qed.

End Cut.

#[export] Hint Resolve upto_not_elem upto_prefix : bridge.
#[export] Hint Rewrite @upto_idemp : bridge_rw.
