(* ===== verification/Chars.v ===== *)
(** * Chars: the character model of the bridge

    [bridge.cpp] moves [char]s and [int]s: [OutputBuffer::overflow]
    receives an [int], tests it against [EOF] and ['\n'] and narrows it
    with [static_cast<char>]; [InputBuffer::underflow] widens the first
    character of the line with [traits_type::to_int_type]; the two JNI
    entry points cross the boundary through NUL-terminated C strings.
    This file gives those conversions, at their width, and the lemmas
    on them that the adapters share. *)

From Stdlib Require Import ZArith NArith Ascii String List Lia.
From stdpp Require Import base tactics list strings.
From S2P Require Import Prelude.

#[local] Open Scope Z_scope.

(** ** Types *)

(** A C++ [char]: eight bits, no sign attached to the pattern. *)
Abbreviation char := ascii (only parsing).

(** [std::streambuf::int_type], an [int]. *)
Abbreviation int_type := Z (only parsing).

(** [std::string]: a sequence of [char]; embedded NULs are allowed. *)
Abbreviation line := (list ascii) (only parsing).

(** ** Constants *)

(** [EOF] of <cstdio>, the value [overflow] tests at line 57. *)
Definition EOF : int_type := -1.

(** The newline character ['\n'] of lines 45 and 58. *)
Definition NL : char := "010"%char.

(** The terminator of a C string. *)
Definition NUL : char := "000"%char.

(** ** Conversions *)

(** [traits_type::to_int_type] (line 48): the character read as
    [unsigned char], then widened; the result is never negative. *)
Definition to_int_type (c : char) : int_type := Z.of_N (N_of_ascii c).

(** [static_cast<char>(c)] (line 64): the low eight bits of the [int]. *)
Definition to_char (c : int_type) : char := ascii_of_N (Z.to_N (c mod 256)).

(** A string literal of the source as a [std::string]'s contents. *)
Definition str (s : string) : line := list_ascii_of_string s.
#[global] Arguments str : simpl never.

(** [s.c_str()] (line 139): the characters of [s] followed by a NUL. *)
Definition c_str (s : line) : list char := s ++ [NUL].

(** [std::string(p)] for a [const char* p] (lines 116 and 149): the
    characters from [p] up to the first NUL. *)
Definition string_of_c (p : list char) : line := upto NUL p.

(** What a reader of a C string sees of [s.c_str()], as [NewStringUTF]
    does at line 139. *)
Definition c_view (s : line) : line := string_of_c (c_str s).

(** ** Bounds *)

Lemma to_int_type_range c : 0 <= to_int_type c < 256.
Proof. unfold to_int_type. pose proof (N_ascii_bounded c). lia. Qed.

Lemma to_int_type_not_EOF c : to_int_type c <> EOF.
Proof. pose proof (to_int_type_range c). unfold EOF. lia. Qed.

Lemma to_int_type_inj c1 c2 : to_int_type c1 = to_int_type c2 -> c1 = c2.
Proof.
  unfold to_int_type. intros H%N2Z.inj.
  rewrite <- (ascii_N_embedding c1), <- (ascii_N_embedding c2). by f_equal.
Qed.

#[export] Instance to_int_type_Inj : Inj (=) (=) to_int_type.
Proof. exact to_int_type_inj. Qed.

(** ** Round trips between [char] and [int] *)

Lemma to_char_to_int_type c : to_char (to_int_type c) = c.
Proof.
  unfold to_char, to_int_type. pose proof (N_ascii_bounded c).
  rewrite Z.mod_small by lia. rewrite N2Z.id. apply ascii_N_embedding.
Qed.

Lemma to_int_type_to_char z : to_int_type (to_char z) = z mod 256.
Proof.
  unfold to_char, to_int_type.
  pose proof (Z.mod_pos_bound z 256 eq_refl).
  rewrite N_ascii_embedding by lia. lia.
Qed.

Lemma to_char_wrap z k : to_char (z + 256 * k) = to_char z.
Proof.
  unfold to_char. do 2 f_equal.
  rewrite (Z.mul_comm 256 k). apply Z.mod_add. lia.
Qed.

Lemma to_char_eq z c : to_char z = c <-> z mod 256 = to_int_type c.
Proof.
  split.
  - intros <-. by rewrite to_int_type_to_char.
  - intros H. apply to_int_type_inj. by rewrite to_int_type_to_char.
Qed.

Lemma to_int_type_NL : to_int_type NL = 10.
Proof. reflexivity. Qed.

Lemma to_int_type_NUL : to_int_type NUL = 0.
Proof. reflexivity. Qed.

(** A character is the newline exactly when its integer is 10. *)
Lemma to_int_type_eq_NL c : to_int_type c = to_int_type NL <-> c = NL.
Proof. split; [apply to_int_type_inj | by intros ->]. Qed.

(** Narrowing produces a newline exactly for the integers congruent to
    10 modulo 256; of those only 10 itself is an [int_type] of a [char]. *)
Lemma to_char_NL z : to_char z = NL <-> z mod 256 = 10.
Proof. by rewrite to_char_eq, to_int_type_NL. Qed.

(** ** C strings *)

Lemma string_of_c_NUL_free p : NUL ∉ string_of_c p.
Proof. apply upto_not_elem. Qed.

Lemma string_of_c_idemp p : string_of_c (string_of_c p) = string_of_c p.
Proof. apply upto_idemp. Qed.

Lemma string_of_c_id p : NUL ∉ p -> string_of_c p = p.
Proof. apply upto_id. Qed.

(** The cut is in the part that holds the first NUL. *)
Lemma string_of_c_app p1 p2 :
  NUL ∉ p1 -> string_of_c (p1 ++ p2) = p1 ++ string_of_c p2.
Proof. apply upto_app_r. Qed.

Lemma c_view_id s : NUL ∉ s -> c_view s = s.
Proof. intros Hs. unfold c_view, c_str, string_of_c. by apply upto_app. Qed.

Lemma c_view_upto s : c_view s = upto NUL s.
Proof.
  unfold c_view, c_str, string_of_c.
  destruct (after NUL s) as [r|] eqn:Hr.
  - apply upto_app_l. rewrite (upto_after _ _ _ Hr).
    apply elem_of_app. right. by left.
  - apply after_None in Hr. rewrite (upto_id _ s) by done. by apply upto_app.
Qed.

Lemma c_view_prefix s : c_view s `prefix_of` s.
Proof. rewrite c_view_upto. apply upto_prefix. Qed.

Lemma c_view_NUL_free s : NUL ∉ c_view s.
Proof. apply string_of_c_NUL_free. Qed.

(** A string built from a C string survives the trip back through
    [c_str]: the input direction cannot lose characters at a NUL. *)
Lemma c_view_string_of_c p : c_view (string_of_c p) = string_of_c p.
Proof. apply c_view_id, string_of_c_NUL_free. Qed.

Lemma string_of_c_literal s :
  NUL ∉ str s -> string_of_c (c_str (str s)) = str s.
Proof. apply c_view_id. Qed.

#[export] Hint Resolve to_int_type_not_EOF string_of_c_NUL_free c_view_NUL_free
  c_view_prefix : bridge.
#[export] Hint Rewrite to_char_to_int_type string_of_c_idemp c_view_string_of_c : bridge_rw.
