(* ===== verification/Lines.v ===== *)
(** * Lines: the reference functions on character streams

    The two directions of the bridge are specified against two functions
    that no line of the program computes in this form: [unlines], the
    character stream that a sequence of lines stands for when each is
    followed by a newline, and [split_lines], the complete lines of a
    character stream together with its unterminated tail.  They are
    inverse to each other on newline-free lines, which is what makes
    them a specification: [split_lines cs] is the only pair [(ls, r)] of
    newline-free lines with [unlines ls ++ r = cs]. *)

From Stdlib Require Import ZArith Ascii List Lia.
From stdpp Require Import base tactics list strings.
From S2P Require Import Prelude Chars.

(** ** Definitions *)

(** A line that holds no newline. *)
Definition nl_free (l : line) : Prop := NL ∉ l.

#[export] Instance nl_free_dec l : Decision (nl_free l).
Proof. unfold nl_free. apply _. Defined.

(** Every line followed by a newline, in order. *)
Fixpoint unlines (ls : list line) : list char :=
  match ls with
  | [] => []
  | l :: ls' => l ++ NL :: unlines ls'
  end.

(** One character put in front of an already split stream. *)
Definition cons_char (c : char) (p : list line * line) : list line * line :=
  if decide (c = NL) then ([] :: p.1, p.2)
  else match p.1 with
       | [] => ([], c :: p.2)
       | l :: ls => ((c :: l) :: ls, p.2)
       end.

(** The complete lines of a stream and its unterminated tail. *)
Definition split_lines (cs : list char) : list line * line :=
  foldr cons_char ([], []) cs.
#[global] Arguments split_lines : simpl never.

(** The number of newlines of a stream. *)
Definition count_nl (cs : list char) : nat :=
  length (filter (fun c => c = NL) cs).

(** Joining the tail of the first stream to the head of the second. *)
Definition glue (p1 p2 : list line * line) : list line * line :=
  match p2.1 with
  | [] => (p1.1, p1.2 ++ p2.2)
  | l :: ls => (p1.1 ++ (p1.2 ++ l) :: ls, p2.2)
  end.

(** ** Equations of [split_lines] *)

Lemma split_lines_nil : split_lines [] = ([], []).
Proof. reflexivity. Qed.

Lemma split_lines_cons c cs :
  split_lines (c :: cs) = cons_char c (split_lines cs).
Proof. reflexivity. Qed.

Lemma split_lines_NL cs :
  split_lines (NL :: cs) = ([] :: (split_lines cs).1, (split_lines cs).2).
Proof. rewrite split_lines_cons. unfold cons_char. by rewrite decide_True. Qed.

(** A stream without a newline is all tail. *)
Lemma split_lines_tail r : nl_free r -> split_lines r = ([], r).
Proof.
  induction r as [|c r IH]; [done|].
  intros [Hc Hr]%not_elem_of_cons. rewrite split_lines_cons, (IH Hr).
  unfold cons_char. rewrite decide_False by done. done.
Qed.

(** A newline-free prefix up to a newline is the first line. *)
Lemma split_lines_line l cs :
  nl_free l ->
  split_lines (l ++ NL :: cs) = (l :: (split_lines cs).1, (split_lines cs).2).
Proof.
  induction l as [|c l IH]; simpl; [intros _; apply split_lines_NL|].
  intros [Hc Hl]%not_elem_of_cons.
  rewrite split_lines_cons, (IH Hl). unfold cons_char.
  rewrite decide_False by done. done.
Qed.

(** ** Round trips *)

(** Splitting what [unlines] wrote gives the lines back, and the tail. *)
Lemma split_unlines ls r :
  Forall nl_free ls -> nl_free r -> split_lines (unlines ls ++ r) = (ls, r).
Proof.
  intros Hls Hr. induction Hls as [|l ls Hl _ IH]; simpl.
  - by apply split_lines_tail.
  - rewrite <- app_assoc. simpl. rewrite split_lines_line, IH; done.
Qed.

(** Writing what [split_lines] read gives the stream back. *)
Lemma unlines_split cs :
  unlines (split_lines cs).1 ++ (split_lines cs).2 = cs.
Proof.
  induction cs as [|c cs IH]; [done|].
  rewrite split_lines_cons. unfold cons_char.
  destruct (split_lines cs) as [[|l ls] r]; case_decide; simpl in *; congruence.
Qed.

(** The lines and the tail that [split_lines] returns hold no newline. *)
Lemma split_lines_nl_free cs :
  Forall nl_free (split_lines cs).1 /\ nl_free (split_lines cs).2.
Proof.
  induction cs as [|c cs [IH1 IH2]].
  - split; [constructor | apply not_elem_of_nil].
  - rewrite split_lines_cons. unfold cons_char, nl_free in *.
    destruct (split_lines cs) as [[|l ls] r]; case_decide; simpl in *.
    + split; [repeat constructor; apply not_elem_of_nil | done].
    + split; [constructor | by apply not_elem_of_cons].
    + split; [constructor; [apply not_elem_of_nil | done] | done].
    + inversion IH1; subst. split; [|done].
      constructor; [by apply not_elem_of_cons | done].
Qed.

(** [split_lines] is determined by the two round trips. *)
Lemma split_lines_unique cs ls r :
  Forall nl_free ls -> nl_free r -> unlines ls ++ r = cs ->
  split_lines cs = (ls, r).
Proof. intros Hls Hr <-. by apply split_unlines. Qed.

(** Two ways of writing a stream as newline-free lines and a
    newline-free tail are one. *)
Lemma lines_unique ls1 r1 ls2 r2 :
  Forall nl_free ls1 -> nl_free r1 -> unlines ls1 ++ r1 = unlines ls2 ++ r2 ->
  Forall nl_free ls2 -> nl_free r2 -> ls1 = ls2 /\ r1 = r2.
Proof.
  intros H1 Hr1 E H2 Hr2. apply (f_equal split_lines) in E.
  rewrite !split_unlines in E by done. by injection E.
Qed.

(** ** Concatenation *)

Lemma unlines_app ls1 ls2 : unlines (ls1 ++ ls2) = unlines ls1 ++ unlines ls2.
Proof.
  induction ls1 as [|l ls1 IH]; simpl; [done|].
  by rewrite IH, <- app_assoc.
Qed.

Lemma unlines_snoc ls l : unlines (ls ++ [l]) = unlines ls ++ l ++ [NL].
Proof. rewrite unlines_app. simpl. done. Qed.

Lemma split_lines_app cs1 cs2 :
  split_lines (cs1 ++ cs2) = glue (split_lines cs1) (split_lines cs2).
Proof.
  pose proof (unlines_split cs1) as E1. pose proof (unlines_split cs2) as E2.
  destruct (split_lines_nl_free cs1) as [H1 Hr1].
  destruct (split_lines_nl_free cs2) as [H2 Hr2].
  destruct (split_lines cs1) as [ls1 r1], (split_lines cs2) as [ls2 r2].
  simpl in *. subst cs1 cs2. unfold glue, nl_free in *. simpl.
  destruct ls2 as [|l ls]; simpl.
  - rewrite <- app_assoc. apply split_unlines; [done|].
    by apply not_elem_of_app.
  - inversion H2; subst. apply split_lines_unique; [|done|].
    + apply Forall_app. split; [done|]. constructor; [|done].
      by apply not_elem_of_app.
    + rewrite unlines_app. simpl. by rewrite <- !app_assoc.
Qed.

(** One character more at the end of a stream: a newline ends the
    tail, any other character extends it. *)
Lemma split_lines_snoc cs ch ls r :
  split_lines cs = (ls, r) ->
  split_lines (cs ++ [ch]) = if decide (ch = NL) then (ls ++ [r], []) else (ls, r ++ [ch]).
Proof.
  intros E. rewrite split_lines_app, E, split_lines_cons, split_lines_nil.
  unfold cons_char, glue. case_decide; simpl; [|done]. by rewrite app_nil_r.
Qed.

(** ** Counting *)

Lemma count_nl_app cs1 cs2 : count_nl (cs1 ++ cs2) = count_nl cs1 + count_nl cs2.
Proof. unfold count_nl. by rewrite filter_app, length_app. Qed.

Lemma count_nl_free l : nl_free l -> count_nl l = 0.
Proof.
  unfold count_nl, nl_free. induction l as [|c l IH]; [done|].
  intros [Hc Hl]%not_elem_of_cons. rewrite filter_cons_False by done. auto.
Qed.

Lemma count_nl_unlines ls : Forall nl_free ls -> count_nl (unlines ls) = length ls.
Proof.
  induction 1 as [|l ls Hl _ IH]; [done|]. simpl.
  rewrite count_nl_app, (count_nl_free l Hl). simpl.
  unfold count_nl in *. rewrite filter_cons_True by done. simpl. by rewrite IH.
Qed.

(** As many complete lines as newlines. *)
Lemma split_lines_length cs : length (split_lines cs).1 = count_nl cs.
Proof.
  destruct (split_lines_nl_free cs) as [H1 Hr].
  rewrite <- (unlines_split cs) at 2.
  rewrite count_nl_app, count_nl_unlines, (count_nl_free _ Hr) by done. lia.
Qed.

#[export] Hint Rewrite split_lines_nil split_lines_NL unlines_app : bridge_rw.
#[export] Hint Resolve split_lines_tail : bridge.
