(* ===== verification/LineQueue.v ===== *)
(** * LineQueue: the queue of lines of one direction

    [bridge.cpp] declares two [std::queue<std::string>] (lines 29 and 33)
    and uses four of their members: [empty] in the predicates of the two
    waits, [push], [front] and [pop].  The queue is the sequence of its
    elements, oldest first.  [front] and [pop] of an empty queue are
    undefined in C++ and give [None] here; the callers turn [None] into
    [Undefined], and the theorems of the adapters show that they never
    get there. *)

From Stdlib Require Import List Lia.
From stdpp Require Import base tactics option list strings.
From S2P Require Import Prelude Chars.

(** ** The queue *)

(** [std::queue<std::string>]: its elements, the oldest first. *)
Definition queue : Type := list line.

(** A queue just constructed (the static initialisation of lines 29, 33). *)
Definition queue_new : queue := [].

(** [q.empty()] *)
Definition empty (q : queue) : bool :=
  match q with
  | [] => true
  | _ :: _ => false
  end.

(** [q.push(l)]: a copy of [l] behind the last element. *)
Definition push (l : line) (q : queue) : queue := q ++ [l].

(** [q.front()]: the oldest element; undefined on an empty queue. *)
Definition front (q : queue) : option line :=
  match q with
  | [] => None
  | l :: _ => Some l
  end.

(** [q.pop()]: the queue without its oldest element; undefined on an
    empty queue. *)
Definition pop (q : queue) : option queue :=
  match q with
  | [] => None
  | _ :: q' => Some q'
  end.

(** ** Laws of the program's queue *)

Lemma empty_true q : empty q = true <-> q = [].
Proof. by destruct q. Qed.

Lemma empty_false q : empty q = false <-> q <> [].
Proof. by destruct q. Qed.

Lemma empty_push l q : empty (push l q) = false.
Proof. by destruct q. Qed.

Lemma front_is_Some q : is_Some (front q) <-> empty q = false.
Proof. destruct q; simpl; split; (done || by intros [? ?] || eauto). Qed.

Lemma pop_is_Some q : is_Some (pop q) <-> empty q = false.
Proof. destruct q; simpl; split; (done || by intros [? ?] || eauto). Qed.

(** After the emptiness test of the waits, [front] and [pop] are defined. *)
Lemma front_pop_nonempty q :
  empty q = false -> exists l q', front q = Some l /\ pop q = Some q' /\ q = l :: q'.
Proof. destruct q as [|l q']; [done|]. intros _. by exists l, q'. Qed.

(** Pushing does not disturb the front of a queue that has one. *)
Lemma front_push l q : empty q = false -> front (push l q) = front q.
Proof. by destruct q. Qed.

Lemma front_push_empty l : front (push l []) = Some l.
Proof. done. Qed.

(** [push] and [pop] act on opposite ends: they commute. *)
Lemma pop_push l q : empty q = false -> pop (push l q) = push l <$> pop q.
Proof. by destruct q. Qed.

Lemma pop_push_empty l : pop (push l []) = Some [].
Proof. done. Qed.

Lemma push_length l q : length (push l q) = S (length q).
Proof. unfold push. rewrite length_app. simpl. lia. Qed.

Lemma pop_length q q' : pop q = Some q' -> length q = S (length q').
Proof. destruct q; [done|]. by intros [= ->]. Qed.

#[export] Hint Rewrite empty_push front_push_empty pop_push_empty push_length : bridge_rw.
#[export] Hint Resolve front_pop_nonempty : bridge.
