(* ===== verification/Streambuf.v ===== *)
(** * Streambuf: the two stream adapters

    [std::streambuf] is an interface with two virtual members that
    matter here, [underflow] (refill the get area) and [overflow] (take
    one character when the put area is full), and non-virtual readers
    and writers defined in terms of them.  [Streambuf] is that interface
    as a type class; [sgetc], [uflow], [sbumpc], [sgetn], [sputc] and
    [sputn] are written once against it.

    [InputBuffer] (bridge.cpp lines 40-52) overrides [underflow]: it
    waits for a line in the input queue, moves it with a newline into
    [currentLine] and makes that the get area.  [OutputBuffer] (lines
    54-71) overrides [overflow]: it collects characters in [lineBuffer]
    and pushes the buffer onto the output queue at every newline.
    Neither class sets a put area, so every [sputc] reaches [overflow].

    Pointers into [currentLine] are offsets from its first character. *)

From Stdlib Require Import ZArith Ascii String List Lia.
From stdpp Require Import base tactics option list strings.
From S2P Require Import Prelude Chars Lines LineQueue.

#[local] Open Scope bridge_scope.

(** ** The interface *)

(** A stream buffer bound to a queue.  [gavail] is the get area from
    [gptr] to [egptr]; [gbump] is [gbump(1)]. *)
Class Streambuf (B : Type) := {
  gavail : B -> list char;
  gbump : B -> B;
  underflow : B -> queue -> outcome (int_type * B * queue);
  overflow : int_type -> B -> queue -> int_type * B * queue
}.

(** The members as [std::streambuf] itself defines them: no character
    to read, no room to write. *)
Definition base_underflow {B} (b : B) (q : queue) : outcome (int_type * B * queue) :=
  Ready (EOF, b, q).

Definition base_overflow {B} (c : int_type) (b : B) (q : queue) : int_type * B * queue :=
  (EOF, b, q).

(** What [underflow] owes its callers: when it returns a character, that
    character is the first of the get area, and it is the [int_type] of
    a [char]. *)
Class StreambufLaws (B : Type) `{Streambuf B} := {
  gbump_gavail b : gavail (gbump b) = tail (gavail b);
  underflow_head b q c b' q' :
    underflow b q = Ready (c, b', q') -> c <> EOF ->
    exists ch, head (gavail b') = Some ch /\ c = to_int_type ch
}.

(** ** The non-virtual members *)

Section Members.
Context {B : Type} `{Streambuf B}.

(** [sgetc]: the character at the get position, not consumed. *)
Definition sgetc (b : B) (q : queue) : outcome (int_type * B * queue) :=
  match gavail b with
  | c :: _ => Ready (to_int_type c, b, q)
  | [] => underflow b q
  end.

(** [uflow]: [underflow], then step over the character it made
    available. *)
Definition uflow (b : B) (q : queue) : outcome (int_type * B * queue) :=
  '(c, b', q') <~ underflow b q ;;
  if decide (c = EOF) then Ready (EOF, b', q')
  else ch <~ must (head (gavail b')) ;;
       Ready (to_int_type ch, gbump b', q').

(** [sbumpc]: the character at the get position, consumed. *)
Definition sbumpc (b : B) (q : queue) : outcome (int_type * B * queue) :=
  match gavail b with
  | c :: _ => Ready (to_int_type c, gbump b, q)
  | [] => uflow b q
  end.

(** [sgetn]: up to [n] characters, fewer when [EOF] comes first. *)
Fixpoint sgetn (n : nat) (b : B) (q : queue) : outcome (list char * B * queue) :=
  match n with
  | 0 => Ready ([], b, q)
  | S n' =>
      '(c, b', q') <~ sbumpc b q ;;
      if decide (c = EOF) then Ready ([], b', q')
      else '(cs, b'', q'') <~ sgetn n' b' q' ;;
           Ready (to_char c :: cs, b'', q'')
  end.

(** [sputc] with no put area: the character goes to [overflow]. *)
Definition sputc (ch : char) (b : B) (q : queue) : int_type * B * queue :=
  overflow (to_int_type ch) b q.

(** [sputn]: the characters one by one, until [overflow] refuses one;
    the count of those written. *)
Fixpoint sputn (cs : list char) (b : B) (q : queue) : nat * B * queue :=
  match cs with
  | [] => (0, b, q)
  | ch :: cs' =>
      let '(r, b', q') := sputc ch b q in
      if decide (r = EOF) then (0, b', q')
      else let '(n, b'', q'') := sputn cs' b' q' in (S n, b'', q'')
  end.

End Members.

#[global] Arguments sputc : simpl never.
#[global] Arguments sbumpc : simpl never.

(** ** InputBuffer *)

Module InputBuffer.

(** The object: [currentLine] and the three get-area pointers of the
    base class, as offsets into [currentLine]. *)
Record t := mk {
  currentLine : line;
  eback : nat;
  gptr : nat;
  egptr : nat
}.

(** [new InputBuffer()]: an empty string, no get area. *)
Definition init : t := mk [] 0 0 0.

(** [setg(gbeg, gnext, gend)] *)
Definition setg (gbeg gnext gend : nat) (b : t) : t :=
  mk (currentLine b) gbeg gnext gend.

(** The characters from [gptr] to [egptr]. *)
Definition gavail (b : t) : list char :=
  drop (gptr b) (take (egptr b) (currentLine b)).

(** [gbump(1)] *)
Definition gbump (b : t) : t :=
  mk (currentLine b) (eback b) (S (gptr b)) (egptr b).

(** [underflow] (lines 42-49).  The wait of line 44 returns when the
    queue is not empty; then the front line, with a newline, becomes
    [currentLine] and the get area, and its first character is
    returned. *)
Definition underflow (b : t) (q : queue) : outcome (int_type * t * queue) :=
  if empty q then Blocked
  else
    l <~ must (front q) ;;
    let b1 := mk (l ++ [NL]) (eback b) (gptr b) (egptr b) in
    q' <~ must (pop q) ;;
    let b2 := setg 0 0 (length (currentLine b1)) b1 in
    ch <~ must (head (gavail b2)) ;;
    Ready (to_int_type ch, b2, q').

(** The buffer that [underflow] leaves behind for the line [l]. *)
Definition loaded (l : line) : t :=
  mk (l ++ [NL]) 0 0 (length (l ++ [NL])).

(** The get area is all of [currentLine] behind [gptr], and
    [currentLine] is empty or a line with its newline. *)
Definition wf (b : t) : Prop :=
  eback b = 0 /\ egptr b = length (currentLine b) /\ gptr b <= egptr b /\
  (currentLine b = [] \/ exists l, currentLine b = l ++ [NL]).

(** The characters ahead of the reader: the rest of the get area, then
    the queued lines, each with its newline. *)
Definition pending (b : t) (q : queue) : list char :=
  gavail b ++ unlines q.

(** The buffer and the queue one character further: within the get
    area, or into the next line when the get area is used up. *)
Definition advance (b : t) (q : queue) : t * queue :=
  match gavail b, q with
  | _ :: _, _ => (gbump b, q)
  | [], l :: q' => (gbump (loaded l), q')
  | [], [] => (b, q)
  end.

End InputBuffer.

(** ** OutputBuffer *)

Module OutputBuffer.

(** The object: the characters of the line being written. *)
Record t := mk { lineBuffer : line }.

(** [new OutputBuffer()] *)
Definition init : t := mk [].

(** [overflow] (lines 56-68).  [EOF] is ignored; a newline pushes the
    buffer and clears it; any other integer is narrowed to [char] and
    appended.  The argument is returned. *)
Definition overflow (c : int_type) (b : t) (q : queue) : int_type * t * queue :=
  if decide (c <> EOF) then
    if decide (c = to_int_type NL) then
      let q' := push (lineBuffer b) q in
      (c, mk [], q')
    else (c, mk (lineBuffer b ++ [to_char c]), q)
  else (c, b, q).

(** The characters written and not yet taken by the caller: the queued
    lines, each with its newline, then the unterminated tail. *)
Definition written (b : t) (q : queue) : list char :=
  unlines q ++ lineBuffer b.

(** The buffer and the queue after the character [ch] is written. *)
Definition put (ch : char) (b : t) (q : queue) : t * queue :=
  if decide (ch = NL) then (mk [], push (lineBuffer b) q)
  else (mk (lineBuffer b ++ [ch]), q).

(** Neither the queued lines nor the buffer hold a newline. *)
Definition wf (b : t) (q : queue) : Prop :=
  Forall nl_free q /\ nl_free (lineBuffer b).

End OutputBuffer.

(** ** The two classes as stream buffers *)

#[export] Instance InputBuffer_streambuf : Streambuf InputBuffer.t := {
  gavail := InputBuffer.gavail;
  gbump := InputBuffer.gbump;
  underflow := InputBuffer.underflow;
  overflow := base_overflow
}.

#[export] Instance OutputBuffer_streambuf : Streambuf OutputBuffer.t := {
  gavail := fun _ => [];
  gbump := fun b => b;
  underflow := base_underflow;
  overflow := OutputBuffer.overflow
}.

(** ** Facts about the interface *)

Section MemberFacts.
Context {B : Type} `{StreambufLaws B}.

(** With a character in the get area, [sbumpc] returns it and leaves
    the rest. *)
Lemma sbumpc_gavail b q ch cs :
  gavail b = ch :: cs ->
  sbumpc b q = Ready (to_int_type ch, gbump b, q) /\ gavail (gbump b) = cs.
Proof.
  intros E. unfold sbumpc. rewrite E. split; [done|].
  by rewrite gbump_gavail, E.
Qed.

(** [uflow] is [underflow] followed by a step over the character. *)
Lemma uflow_underflow b q c b' q' :
  underflow b q = Ready (c, b', q') -> c <> EOF ->
  uflow b q = Ready (c, gbump b', q').
Proof.
  intros E Hc. unfold uflow. rewrite E. simpl.
  rewrite decide_False by done.
  destruct (underflow_head _ _ _ _ _ E Hc) as (ch & -> & ->). done.
Qed.

(** The readers go wrong only if [underflow] does. *)
Lemma uflow_defined b q : defined (underflow b q) -> defined (uflow b q).
Proof.
  unfold uflow. intros Hd. apply outcome_bind_defined; [done|].
  intros [[c b'] q'] E. case_decide; [done|].
  destruct (underflow_head _ _ _ _ _ E ltac:(done)) as (ch & -> & _). done.
Qed.

Lemma sbumpc_defined b q : defined (underflow b q) -> defined (sbumpc b q).
Proof. unfold sbumpc. destruct (gavail b); [apply uflow_defined | done]. Qed.

Lemma sgetc_defined b q : defined (underflow b q) -> defined (sgetc b q).
Proof. unfold sgetc. by destruct (gavail b). Qed.

End MemberFacts.

(** ** Facts about InputBuffer *)

Section InputBufferFacts.
Implicit Types (b : InputBuffer.t) (q : queue) (l : line).

Lemma ib_gavail_loaded l : InputBuffer.gavail (InputBuffer.loaded l) = l ++ [NL].
Proof. unfold InputBuffer.gavail, InputBuffer.loaded. simpl. by rewrite take_ge. Qed.

Lemma ib_gavail_gbump b :
  InputBuffer.gavail (InputBuffer.gbump b) = tail (InputBuffer.gavail b).
Proof.
  unfold InputBuffer.gavail, InputBuffer.gbump. simpl.
  by rewrite tail_drop.
Qed.

Lemma ib_gavail_init : InputBuffer.gavail InputBuffer.init = [].
Proof. reflexivity. Qed.

(** On an empty queue [underflow] waits. *)
Lemma ib_underflow_empty b : InputBuffer.underflow b [] = Blocked.
Proof. reflexivity. Qed.

(** On a queue with a front line [underflow] takes that line, whatever
    the buffer held, and returns its first character: the first of the
    line, or the newline when the line is empty. *)
Lemma ib_underflow_cons b l q :
  InputBuffer.underflow b (l :: q) =
  Ready (to_int_type (default NL (head l)), InputBuffer.loaded l, q).
Proof.
  unfold InputBuffer.underflow. simpl.
  change (InputBuffer.setg _ _ _ _) with (InputBuffer.loaded l).
  rewrite ib_gavail_loaded. by destruct l.
Qed.

(** [underflow] never calls [front] or [pop] on an empty queue and never
    reads past the get area. *)
Lemma ib_underflow_defined b q : defined (InputBuffer.underflow b q).
Proof. destruct q; [done|]. by rewrite ib_underflow_cons. Qed.

(** C28. Whatever [InputBuffer::underflow] returns is the value of a
    character, between 0 and 255: the engine's read never sees [EOF],
    whatever the bytes of the line. *)
Theorem ib_underflow_range b q c b' q' :
  InputBuffer.underflow b q = Ready (c, b', q') -> (0 <= c < 256)%Z.
Proof.
  destruct q as [|l q]; [done|]. rewrite ib_underflow_cons.
  intros [= <- _ _]. apply to_int_type_range.
Qed.

Lemma ib_wf_init : InputBuffer.wf InputBuffer.init.
Proof. unfold InputBuffer.wf. simpl. auto. Qed.

Lemma ib_wf_loaded l : InputBuffer.wf (InputBuffer.loaded l).
Proof. unfold InputBuffer.wf. simpl. split_and!; eauto with lia. Qed.

Lemma ib_wf_gbump b :
  InputBuffer.wf b -> InputBuffer.gavail b <> [] -> InputBuffer.wf (InputBuffer.gbump b).
Proof.
  unfold InputBuffer.wf, InputBuffer.gavail. destruct b as [cl eb g e]. simpl.
  intros (-> & -> & Hg & Hcl) Hne. split_and!; [done..| |done].
  rewrite take_ge in Hne by done.
  destruct (decide (g < length cl)) as [|Hge]; [lia|].
  rewrite drop_ge in Hne by lia. done.
Qed.

(** [underflow] discards what was left of the get area: the stream ahead
    is that of the queue it found. *)
Lemma ib_pending_underflow b l q :
  InputBuffer.pending (InputBuffer.loaded l) q = unlines (l :: q).
Proof.
  unfold InputBuffer.pending. rewrite ib_gavail_loaded. simpl.
  by rewrite <- app_assoc.
Qed.

(** A line pushed is a line, with its newline, at the end of the stream. *)
Lemma ib_pending_push b l q :
  InputBuffer.pending b (push l q) = InputBuffer.pending b q ++ l ++ [NL].
Proof.
  unfold InputBuffer.pending, push. by rewrite unlines_snoc, app_assoc.
Qed.

(** The input side is a stream buffer that keeps its promises. *)
#[export] Instance InputBuffer_laws : StreambufLaws InputBuffer.t.
Proof.
  split.
  - apply ib_gavail_gbump.
  - intros b q c b' q'. simpl. unfold InputBuffer.underflow.
    destruct (empty q); [done|]. destruct (front q) as [l|]; [|done]. simpl.
    destruct (pop q) as [q1|]; [|done]. simpl.
    destruct (head (InputBuffer.gavail _)) as [ch|] eqn:Eh; [|done]. simpl.
    intros [= <- <- <-] _. by exists ch.
Qed.

(** One step ahead in the buffer is one character less ahead in the
    stream, and the buffer stays well formed. *)
Lemma ib_pending_advance b q :
  InputBuffer.pending (InputBuffer.advance b q).1 (InputBuffer.advance b q).2 =
  tail (InputBuffer.pending b q).
Proof.
  unfold InputBuffer.pending, InputBuffer.advance.
  destruct (InputBuffer.gavail b) as [|c cs] eqn:Eg; [destruct q as [|l q]|]; simpl.
  - by rewrite Eg.
  - rewrite ib_gavail_gbump, ib_gavail_loaded. destruct l; simpl; [done|].
    by rewrite <- app_assoc.
  - by rewrite ib_gavail_gbump, Eg.
Qed.

Lemma ib_wf_advance b q :
  InputBuffer.wf b -> InputBuffer.wf (InputBuffer.advance b q).1.
Proof.
  intros Hwf. unfold InputBuffer.advance.
  destruct (InputBuffer.gavail b) as [|c cs] eqn:Eg; [destruct q as [|l q]|]; simpl.
  - done.
  - apply ib_wf_gbump; [apply ib_wf_loaded|]. rewrite ib_gavail_loaded. by destruct l.
  - apply ib_wf_gbump; [done|]. by rewrite Eg.
Qed.

(** [sbumpc] on the input side, completely: it waits when nothing is
    ahead, and otherwise returns the first character ahead and
    advances. *)
Lemma ib_sbumpc_spec b q :
  sbumpc b q =
  match InputBuffer.pending b q with
  | [] => Blocked
  | ch :: _ =>
      Ready (to_int_type ch, (InputBuffer.advance b q).1, (InputBuffer.advance b q).2)
  end.
Proof.
  unfold InputBuffer.pending, InputBuffer.advance, sbumpc. simpl.
  destruct (InputBuffer.gavail b) as [|c cs] eqn:Eg; [|done].
  destruct q as [|l q]; simpl; [by unfold uflow|].
  erewrite uflow_underflow; [|apply ib_underflow_cons|auto with bridge].
  by destruct l.
Qed.

(** [sbumpc] reads the stream ahead one character at a time. *)
Lemma ib_sbumpc_pending b q ch rest :
  InputBuffer.pending b q = ch :: rest ->
  exists b' q', sbumpc b q = Ready (to_int_type ch, b', q') /\
    InputBuffer.pending b' q' = rest /\
    (InputBuffer.wf b -> InputBuffer.wf b').
Proof.
  intros E. eexists _, _. rewrite ib_sbumpc_spec, E. split_and!; [done| |].
  - by rewrite ib_pending_advance, E.
  - apply ib_wf_advance.
Qed.

(** With nothing ahead, [sbumpc] waits: the reader is never handed
    [EOF]. *)
Lemma ib_sbumpc_blocked b q :
  InputBuffer.pending b q = [] -> sbumpc b q = Blocked.
Proof. intros E. by rewrite ib_sbumpc_spec, E. Qed.

(** What [sbumpc] returned was the first character ahead. *)
Lemma ib_sbumpc_Ready b q c b' q' :
  sbumpc b q = Ready (c, b', q') ->
  exists ch, c = to_int_type ch /\
    InputBuffer.pending b q = ch :: InputBuffer.pending b' q' /\
    (InputBuffer.wf b -> InputBuffer.wf b').
Proof.
  rewrite ib_sbumpc_spec. destruct (InputBuffer.pending b q) as [|ch rest] eqn:E; [done|].
  intros [= <- <- <-]. exists ch. rewrite ib_pending_advance, E.
  split_and!; [done..|apply ib_wf_advance].
Qed.

(** C8. Reading [n] characters through the input buffer returns the
    first [n] characters of the stream ahead (what is left of the
    current line, then the queued lines, each followed by a newline) and
    leaves exactly the rest ahead. *)
Theorem ib_sgetn_pending n b q :
  n <= length (InputBuffer.pending b q) ->
  exists b' q', sgetn n b q = Ready (take n (InputBuffer.pending b q), b', q') /\
    InputBuffer.pending b' q' = drop n (InputBuffer.pending b q).
Proof.
  revert b q. induction n as [|n IH]; intros b q Hn; simpl.
  - exists b, q. by rewrite take_0, drop_0.
  - destruct (InputBuffer.pending b q) as [|ch rest] eqn:E; simpl in Hn; [lia|].
    destruct (ib_sbumpc_pending _ _ _ _ E) as (b1 & q1 & -> & E1 & _). simpl.
    rewrite decide_False by auto with bridge.
    destruct (IH b1 q1) as (b2 & q2 & -> & E2); [rewrite E1; lia|].
    exists b2, q2. simpl. by rewrite to_char_to_int_type, E1 in *.
Qed.

End InputBufferFacts.

(** ** Facts about OutputBuffer *)

Section OutputBufferFacts.
Implicit Types (b : OutputBuffer.t) (q : queue) (c : int_type) (ch : char).

(** The three branches of [overflow]. *)
Lemma ob_overflow_EOF b q : OutputBuffer.overflow EOF b q = (EOF, b, q).
Proof. reflexivity. Qed.

Lemma ob_overflow_NL b q :
  OutputBuffer.overflow (to_int_type NL) b q =
  (to_int_type NL, OutputBuffer.mk [], q ++ [OutputBuffer.lineBuffer b]).
Proof. reflexivity. Qed.

Lemma ob_overflow_other c b q :
  c <> EOF -> c <> to_int_type NL ->
  OutputBuffer.overflow c b q =
  (c, OutputBuffer.mk (OutputBuffer.lineBuffer b ++ [to_char c]), q).
Proof.
  intros H1 H2. unfold OutputBuffer.overflow.
  by rewrite decide_True, decide_False.
Qed.

(** [overflow] returns its argument, also when that is [EOF]. *)
Lemma ob_overflow_returns c b q : (OutputBuffer.overflow c b q).1.1 = c.
Proof. unfold OutputBuffer.overflow. by repeat case_decide. Qed.

(** Only a newline touches the queue. *)
Lemma ob_overflow_queue c b q :
  c <> to_int_type NL -> (OutputBuffer.overflow c b q).2 = q.
Proof. intros Hc. unfold OutputBuffer.overflow. by repeat case_decide. Qed.

(** C29. [OutputBuffer::overflow] tests for the newline on the [int]
    and stores the [char]: an integer congruent to 10 modulo 256 other
    than 10 puts a newline into the line buffer and pushes nothing. *)
Theorem ob_overflow_wrap k b q :
  k <> 0%Z ->
  OutputBuffer.overflow (to_int_type NL + 256 * k) b q =
  ((to_int_type NL + 256 * k)%Z,
   OutputBuffer.mk (OutputBuffer.lineBuffer b ++ [NL]), q).
Proof.
  intros Hk. rewrite ob_overflow_other.
  - by rewrite to_char_wrap, to_char_to_int_type.
  - rewrite to_int_type_NL. unfold EOF. lia.
  - lia.
Qed.

(** [sputc] of a character: the newline pushes the line, any other
    character is appended. *)
Lemma ob_sputc_NL b q :
  sputc NL b q = (to_int_type NL, OutputBuffer.mk [], push (OutputBuffer.lineBuffer b) q).
Proof. reflexivity. Qed.

Lemma ob_sputc_other ch b q :
  ch <> NL ->
  sputc ch b q = (to_int_type ch, OutputBuffer.mk (OutputBuffer.lineBuffer b ++ [ch]), q).
Proof.
  intros Hch. unfold sputc. simpl. rewrite ob_overflow_other.
  - by bridge_simpl.
  - apply to_int_type_not_EOF.
  - by rewrite to_int_type_eq_NL.
Qed.

(** [sputc] on the output side, completely. *)
Lemma ob_sputc_spec ch b q :
  sputc ch b q =
  (to_int_type ch, (OutputBuffer.put ch b q).1, (OutputBuffer.put ch b q).2).
Proof.
  unfold OutputBuffer.put. case_decide as Hch.
  - subst. apply ob_sputc_NL.
  - by apply ob_sputc_other.
Qed.

(** [sputc] never reports failure. *)
Lemma ob_sputc_returns ch b q : (sputc ch b q).1.1 = to_int_type ch.
Proof. apply ob_overflow_returns. Qed.

(** [sputc] appends its character to the stream written so far. *)
Lemma ob_sputc_written ch b q :
  let '(_, b', q') := sputc ch b q in
  OutputBuffer.written b' q' = OutputBuffer.written b q ++ [ch].
Proof.
  unfold OutputBuffer.written. destruct (decide (ch = NL)) as [->|Hch].
  - rewrite ob_sputc_NL. unfold push. rewrite unlines_snoc.
    by rewrite app_nil_r, app_assoc.
  - rewrite ob_sputc_other by done. simpl. by rewrite app_assoc.
Qed.

(** The lines in the queue and the buffer stay free of newlines under
    [sputc]. *)
Lemma ob_wf_init : OutputBuffer.wf OutputBuffer.init [].
Proof. split; [constructor | apply not_elem_of_nil]. Qed.

Lemma ob_sputc_wf ch b q :
  OutputBuffer.wf b q -> OutputBuffer.wf (sputc ch b q).1.2 (sputc ch b q).2.
Proof.
  intros [Hq Hb]. destruct (decide (ch = NL)) as [->|Hch].
  - rewrite ob_sputc_NL. split; simpl; [|apply not_elem_of_nil].
    apply Forall_app. split; [done|]. by constructor.
  - rewrite ob_sputc_other by done. split; simpl; [done|].
    apply not_elem_of_app. split; [done|].
    apply not_elem_of_cons. split; [done|apply not_elem_of_nil].
Qed.

Lemma ob_put_written ch b q :
  OutputBuffer.written (OutputBuffer.put ch b q).1 (OutputBuffer.put ch b q).2 =
  OutputBuffer.written b q ++ [ch].
Proof. pose proof (ob_sputc_written ch b q) as H. by rewrite ob_sputc_spec in H. Qed.

Lemma ob_put_wf ch b q :
  OutputBuffer.wf b q ->
  OutputBuffer.wf (OutputBuffer.put ch b q).1 (OutputBuffer.put ch b q).2.
Proof. intros H. apply (ob_sputc_wf ch) in H. by rewrite ob_sputc_spec in H. Qed.

(** [sputn] writes every character, and the stream written grows by
    exactly those characters. *)
Lemma ob_sputn_written cs b q :
  exists b' q', sputn cs b q = (length cs, b', q') /\
    OutputBuffer.written b' q' = OutputBuffer.written b q ++ cs /\
    (OutputBuffer.wf b q -> OutputBuffer.wf b' q').
Proof.
  revert b q. induction cs as [|ch cs IH]; intros b q; simpl.
  - exists b, q. by rewrite app_nil_r.
  - pose proof (ob_sputc_written ch b q) as Hw.
    pose proof (ob_sputc_returns ch b q) as Hr.
    pose proof (ob_sputc_wf ch b q) as Hwf.
    destruct (sputc ch b q) as [[r b1] q1]. simpl in *. subst r.
    rewrite decide_False by apply to_int_type_not_EOF.
    destruct (IH b1 q1) as (b2 & q2 & -> & Hw2 & Hwf2).
    exists b2, q2. split_and!; [done| |auto].
    by rewrite Hw2, Hw, <- app_assoc.
Qed.

(** C7. The character-at-a-time machine of [OutputBuffer::overflow]
    computes [split_lines]: after any characters are written, the queue
    holds the complete lines of everything written so far and the buffer
    its unterminated tail. *)
Theorem ob_sputn_split cs b q :
  OutputBuffer.wf b q ->
  exists b' q', sputn cs b q = (length cs, b', q') /\
    split_lines (OutputBuffer.written b q ++ cs) = (q', OutputBuffer.lineBuffer b').
Proof.
  intros Hwf. destruct (ob_sputn_written cs b q) as (b' & q' & E & Hw & Hwf').
  exists b', q'. split; [done|]. rewrite <- Hw.
  destruct (Hwf' Hwf). by apply split_unlines.
Qed.

(** C12. Characters written without a newline stay in the line buffer:
    every one is accepted, and the output queue does not change. *)
Theorem ob_sputn_withheld cs b q :
  nl_free cs ->
  sputn cs b q = (length cs, OutputBuffer.mk (OutputBuffer.lineBuffer b ++ cs), q).
Proof.
  revert b. induction cs as [|ch cs IH]; intros b Hcs; simpl.
  - rewrite app_nil_r. by destruct b.
  - apply not_elem_of_cons in Hcs as [Hch Hcs].
    rewrite ob_sputc_other by done. rewrite decide_False by apply to_int_type_not_EOF.
    rewrite IH by done. simpl. by rewrite <- app_assoc.
Qed.

(** The output side is a stream buffer that keeps its promises (it has
    no get area, and its [underflow] is the base class's). *)
#[export] Instance OutputBuffer_laws : StreambufLaws OutputBuffer.t.
Proof. split; [done|]. by intros b q c b' q' [= <- _ _] ?. Qed.

End OutputBufferFacts.

#[export] Hint Resolve ib_wf_init ib_wf_loaded ob_wf_init : bridge.
#[export] Hint Rewrite ib_gavail_loaded ib_gavail_init : bridge_rw.

(** ** Witnesses *)

Lemma ib_underflow_range_witness : (0 <= to_int_type NL < 256)%Z.
Proof.
  apply (ib_underflow_range InputBuffer.init [[]] _ (InputBuffer.loaded []) []).
  reflexivity.
Defined.

Lemma ib_sgetn_pending_witness :
  exists b' q',
    sgetn 3 InputBuffer.init [str "go"; str "quit"] =
      Ready (take 3 (InputBuffer.pending InputBuffer.init [str "go"; str "quit"]), b', q') /\
    InputBuffer.pending b' q' =
      drop 3 (InputBuffer.pending InputBuffer.init [str "go"; str "quit"]).
Proof. apply ib_sgetn_pending. vm_compute. lia. Defined.

Lemma ob_overflow_wrap_witness :
  OutputBuffer.overflow (to_int_type NL + 256 * 1) OutputBuffer.init [] =
  ((to_int_type NL + 256 * 1)%Z, OutputBuffer.mk ([] ++ [NL]), []).
Proof. apply (ob_overflow_wrap 1 OutputBuffer.init []). lia. Defined.

Lemma ob_sputn_split_witness :
  exists b' q',
    sputn (str "ok" ++ NL :: str "re") OutputBuffer.init [] =
      (length (str "ok" ++ NL :: str "re"), b', q') /\
    split_lines (OutputBuffer.written OutputBuffer.init [] ++ str "ok" ++ NL :: str "re") =
      (q', OutputBuffer.lineBuffer b').
Proof. apply ob_sputn_split, ob_wf_init. Defined.

Lemma ob_sputn_withheld_witness :
  sputn (str "bestmove") OutputBuffer.init [] =
  (length (str "bestmove"), OutputBuffer.mk ([] ++ str "bestmove"), []).
Proof.
  apply (ob_sputn_withheld (str "bestmove") OutputBuffer.init []).
  unfold nl_free. apply (bool_decide_unpack _). by vm_compute.
Defined.
