(* ===== verification/Bridge.v ===== *)
(** * Bridge: the process-wide state and the JNI entry points

    The globals of [bridge.cpp] (lines 28-37 and 73-74) are the fields
    of [state], together with what the program reaches through them:
    the free store of the two buffer classes (objects are allocated at
    lines 85-86 and never deleted), the buffers [std::cin] and
    [std::cout] currently read and write through (lines 89-90), and the
    number of detached threads that run the engine (lines 95-99).

    The four entry points are functions on [state].  Each is atomic
    here: [nativeSendCommand], [nativeReadLine] and [nativeDestroy] do
    their work inside one critical section (file [Refine] shows that
    the interleavings of their statements are runs of this system), and
    [nativeInit] is one step, which is what the program does when it is
    called before any engine runs; a [nativeInit] called while an engine
    runs writes the globals with no lock, and the model orders those
    writes with the engine's accesses.  The engine's accesses to
    [std::cin] and [std::cout] are [cin_sbumpc] and [cout_sputc]; they
    are enabled once an engine has been launched, and stay enabled: the
    count [engines] is never decremented.

    [step] makes a labelled transition system of the entry points and
    the engine's accesses; [run] is its traces.  The theorems on [run]
    relate what went in at one end to what came out at the other. *)

From Stdlib Require Import ZArith Ascii String List Lia.
From stdpp Require Import base tactics option list strings.
From S2P Require Import Prelude Chars Lines LineQueue Streambuf.

#[local] Open Scope bridge_scope.

(** ** State *)

(** A pointer to an object made by [new]: its index in the free store,
    or null. *)
Definition ptr : Type := option nat.

Record state := mkState {
  inputQueue : queue;
  outputQueue : queue;
  engineRunning : bool;
  engineThread_joinable : bool;
  inputBuf : ptr;
  outputBuf : ptr;
  in_heap : list InputBuffer.t;
  out_heap : list OutputBuffer.t;
  cin_rdbuf : ptr;
  cout_rdbuf : ptr;
  engines : nat
}.

(** The state after static initialisation. *)
Definition initial : state :=
  mkState queue_new queue_new false false None None [] [] None None 0.

(** Assignments to the globals. *)
Definition set_inputQueue (q : queue) (s : state) : state :=
  mkState q (outputQueue s) (engineRunning s) (engineThread_joinable s)
    (inputBuf s) (outputBuf s) (in_heap s) (out_heap s)
    (cin_rdbuf s) (cout_rdbuf s) (engines s).

Definition set_outputQueue (q : queue) (s : state) : state :=
  mkState (inputQueue s) q (engineRunning s) (engineThread_joinable s)
    (inputBuf s) (outputBuf s) (in_heap s) (out_heap s)
    (cin_rdbuf s) (cout_rdbuf s) (engines s).

Definition set_engineRunning (v : bool) (s : state) : state :=
  mkState (inputQueue s) (outputQueue s) v (engineThread_joinable s)
    (inputBuf s) (outputBuf s) (in_heap s) (out_heap s)
    (cin_rdbuf s) (cout_rdbuf s) (engines s).

Definition set_in_heap (h : list InputBuffer.t) (s : state) : state :=
  mkState (inputQueue s) (outputQueue s) (engineRunning s) (engineThread_joinable s)
    (inputBuf s) (outputBuf s) h (out_heap s)
    (cin_rdbuf s) (cout_rdbuf s) (engines s).

Definition set_out_heap (h : list OutputBuffer.t) (s : state) : state :=
  mkState (inputQueue s) (outputQueue s) (engineRunning s) (engineThread_joinable s)
    (inputBuf s) (outputBuf s) (in_heap s) h
    (cin_rdbuf s) (cout_rdbuf s) (engines s).

(** ** The statements of nativeInit *)

(** What can throw inside the [try] of lines 84-103. *)
Inductive fault :=
| NoFault
| BadAllocInput
| BadAllocOutput
| ThreadFailure.

#[export] Instance fault_eq_dec : EqDecision fault.
Proof. solve_decision. Defined.

(** [inputBuf = new InputBuffer()] (line 85) *)
Definition new_InputBuffer (s : state) : state :=
  mkState (inputQueue s) (outputQueue s) (engineRunning s) (engineThread_joinable s)
    (Some (length (in_heap s))) (outputBuf s)
    (in_heap s ++ [InputBuffer.init]) (out_heap s)
    (cin_rdbuf s) (cout_rdbuf s) (engines s).

(** [outputBuf = new OutputBuffer()] (line 86) *)
Definition new_OutputBuffer (s : state) : state :=
  mkState (inputQueue s) (outputQueue s) (engineRunning s) (engineThread_joinable s)
    (inputBuf s) (Some (length (out_heap s)))
    (in_heap s) (out_heap s ++ [OutputBuffer.init])
    (cin_rdbuf s) (cout_rdbuf s) (engines s).

(** [std::cin.rdbuf(inputBuf)] (line 89) *)
Definition redirect_cin (s : state) : state :=
  mkState (inputQueue s) (outputQueue s) (engineRunning s) (engineThread_joinable s)
    (inputBuf s) (outputBuf s) (in_heap s) (out_heap s)
    (inputBuf s) (cout_rdbuf s) (engines s).

(** [std::cout.rdbuf(outputBuf)] (line 90) *)
Definition redirect_cout (s : state) : state :=
  mkState (inputQueue s) (outputQueue s) (engineRunning s) (engineThread_joinable s)
    (inputBuf s) (outputBuf s) (in_heap s) (out_heap s)
    (cin_rdbuf s) (outputBuf s) (engines s).

(** [engineThread = std::thread(...)] (lines 95-98): a new thread runs
    the engine, and the handle owns it.  Assigning to a handle that
    still owns a thread calls [std::terminate]. *)
Definition launch (s : state) : outcome state :=
  if engineThread_joinable s then Undefined
  else Ready (mkState (inputQueue s) (outputQueue s) (engineRunning s) true
    (inputBuf s) (outputBuf s) (in_heap s) (out_heap s)
    (cin_rdbuf s) (cout_rdbuf s) (S (engines s))).

(** [engineThread.detach()] (line 99) *)
Definition detach (s : state) : state :=
  mkState (inputQueue s) (outputQueue s) (engineRunning s) false
    (inputBuf s) (outputBuf s) (in_heap s) (out_heap s)
    (cin_rdbuf s) (cout_rdbuf s) (engines s).

(** ** The entry points *)

(** [nativeInit] (lines 80-107).  What was done before the throw stays
    done; the [catch] only turns the exception into [false]. *)
Definition nativeInit (f : fault) (s : state) : outcome (bool * state) :=
  if decide (f = BadAllocInput) then Ready (false, s) else
  let s := new_InputBuffer s in
  if decide (f = BadAllocOutput) then Ready (false, s) else
  let s := new_OutputBuffer s in
  let s := redirect_cin s in
  let s := redirect_cout s in
  let s := set_engineRunning true s in
  if decide (f = ThreadFailure) then Ready (false, s) else
  s <~ launch s ;;
  let s := detach s in
  Ready (true, s).

(** [nativeSendCommand] (lines 109-120).  [cmd] is what
    [GetStringUTFChars] returned: the characters at the pointer, or
    [None] for a null pointer, from which a [std::string] must not be
    built. *)
Definition nativeSendCommand (cmd : option (list char)) (s : state) : outcome state :=
  p <~ must cmd ;;
  Ready (set_inputQueue (push (string_of_c p) (inputQueue s)) s).

(** [nativeReadLine] (lines 122-140).  [elapsed] says whether the five
    seconds of the timed wait have passed.  The wait returns when the
    queue is not empty or the time is up, with the value of the
    predicate; the result is the front line as a C string sees it, or
    [None] for the null [jstring]. *)
Definition nativeReadLine (elapsed : bool) (s : state) : outcome (option line * state) :=
  if empty (outputQueue s) && negb elapsed then Blocked else
  let received := negb (empty (outputQueue s)) in
  if negb received || empty (outputQueue s) then Ready (None, s)
  else
    l <~ must (front (outputQueue s)) ;;
    q' <~ must (pop (outputQueue s)) ;;
    Ready (Some (c_view l), set_outputQueue q' s).

(** [nativeDestroy] (lines 142-152) *)
Definition nativeDestroy (s : state) : state :=
  let s := set_engineRunning false s in
  set_inputQueue (push (string_of_c (c_str (str "quit"))) (inputQueue s)) s.

(** ** The engine's side *)

(** The object [std::cin] reads through. *)
Definition cin_buffer (s : state) : option InputBuffer.t :=
  a ← cin_rdbuf s; in_heap s !! a.

(** The object [std::cout] writes through. *)
Definition cout_buffer (s : state) : option OutputBuffer.t :=
  a ← cout_rdbuf s; out_heap s !! a.

(** One character read from [std::cin] by the engine.  The model says
    nothing of a [std::cin] that still has its original buffer. *)
Definition cin_sbumpc (s : state) : outcome (int_type * state) :=
  a <~ must (cin_rdbuf s) ;;
  b <~ must (in_heap s !! a) ;;
  '(c, b', q') <~ sbumpc b (inputQueue s) ;;
  Ready (c, set_inputQueue q' (set_in_heap (<[a := b']> (in_heap s)) s)).

(** One character written to [std::cout] by the engine. *)
Definition cout_sputc (ch : char) (s : state) : outcome (int_type * state) :=
  a <~ must (cout_rdbuf s) ;;
  b <~ must (out_heap s !! a) ;;
  let '(r, b', q') := sputc ch b (outputQueue s) in
  Ready (r, set_outputQueue q' (set_out_heap (<[a := b']> (out_heap s)) s)).

(** ** The transition system *)

(** What one step shows to an observer. *)
Inductive event :=
| EvInit (f : fault) (ok : bool)
| EvSend (l : line)
| EvRecv (r : option line)
| EvDestroy
| EvGet (ch : char)
| EvPut (ch : char).

(** One atomic step: an entry point that returns, or one character
    moved by a running engine. *)
Inductive step : state -> event -> state -> Prop :=
| step_init f ok s s' :
    nativeInit f s = Ready (ok, s') -> step s (EvInit f ok) s'
| step_send p s s' :
    nativeSendCommand (Some p) s = Ready s' -> step s (EvSend (string_of_c p)) s'
| step_recv elapsed r s s' :
    nativeReadLine elapsed s = Ready (r, s') -> step s (EvRecv r) s'
| step_destroy s :
    step s EvDestroy (nativeDestroy s)
| step_get ch s s' :
    0 < engines s -> cin_sbumpc s = Ready (to_int_type ch, s') -> step s (EvGet ch) s'
| step_put ch r s s' :
    0 < engines s -> cout_sputc ch s = Ready (r, s') -> step s (EvPut ch) s'.

(** Traces: the events of a finite sequence of steps, first to last. *)
Inductive run : state -> list event -> state -> Prop :=
| run_nil s : run s [] s
| run_cons s e s' tr s'' : step s e s' -> run s' tr s'' -> run s (e :: tr) s''.

(** A state the program can be in. *)
Definition reachable (s : state) : Prop := exists tr, run initial tr s.

(** ** Projections of a trace *)

(** The lines pushed onto the input queue, "quit" included. *)
Definition lines_in (tr : list event) : list line :=
  omap (fun e => match e with
                 | EvSend l => Some l
                 | EvDestroy => Some (str "quit")
                 | _ => None
                 end) tr.

(** The characters the engine has read. *)
Definition gets (tr : list event) : list char :=
  omap (fun e => match e with EvGet ch => Some ch | _ => None end) tr.

(** The characters the engine has written. *)
Definition puts (tr : list event) : list char :=
  omap (fun e => match e with EvPut ch => Some ch | _ => None end) tr.

(** The lines the caller has received. *)
Definition received (tr : list event) : list line :=
  omap (fun e => match e with EvRecv (Some l) => Some l | _ => None end) tr.

(** ** Life cycle *)

Inductive phase := Uninitialized | Running | ShutdownRequested.

#[export] Instance phase_eq_dec : EqDecision phase.
Proof. solve_decision. Defined.

(** The phase a state is in: no engine was ever launched; one was and
    no shutdown is requested; one was and shutdown is requested. *)
Definition phase_of (s : state) : phase :=
  if decide (engines s = 0) then Uninitialized
  else if engineRunning s then Running else ShutdownRequested.

(** The life cycle of the specification, with the transitions the
    program adds to it: every call is accepted in every phase. *)
Inductive lifecycle : phase -> event -> phase -> Prop :=
| lc_init_ok f p : lifecycle p (EvInit f true) Running
| lc_init_fail f p : f <> ThreadFailure \/ p <> ShutdownRequested ->
    lifecycle p (EvInit f false) p
| lc_init_fail_revive : lifecycle ShutdownRequested (EvInit ThreadFailure false) Running
| lc_destroy_uninit : lifecycle Uninitialized EvDestroy Uninitialized
| lc_destroy p : p <> Uninitialized -> lifecycle p EvDestroy ShutdownRequested
| lc_send p l : lifecycle p (EvSend l) p
| lc_recv p r : lifecycle p (EvRecv r) p
| lc_get p ch : p <> Uninitialized -> lifecycle p (EvGet ch) p
| lc_put p ch : p <> Uninitialized -> lifecycle p (EvPut ch) p.

(** ** Invariant *)

(** What holds of every reachable state: the pointers are null or point
    into the free store, the streams are redirected once an engine
    runs, the thread handle owns no thread, and the buffers and the
    input queue are well formed. *)
Record inv (s : state) : Prop := {
  inv_cin : forall a, cin_rdbuf s = Some a -> a < length (in_heap s);
  inv_cout : forall a, cout_rdbuf s = Some a -> a < length (out_heap s);
  inv_inputBuf : forall a, inputBuf s = Some a -> a < length (in_heap s);
  inv_outputBuf : forall a, outputBuf s = Some a -> a < length (out_heap s);
  inv_engines : 0 < engines s -> is_Some (cin_rdbuf s) /\ is_Some (cout_rdbuf s);
  inv_joinable : engineThread_joinable s = false;
  inv_in_wf : Forall InputBuffer.wf (in_heap s);
  inv_NUL : Forall (fun l => NUL ∉ l) (inputQueue s);
  inv_out_queue : Forall nl_free (outputQueue s);
  inv_out_heap : Forall (fun b => nl_free (OutputBuffer.lineBuffer b)) (out_heap s)
}.

(** The state [nativeInit] builds before it creates the thread. *)
Definition prepared (s : state) : state :=
  set_engineRunning true
    (redirect_cout (redirect_cin (new_OutputBuffer (new_InputBuffer s)))).

(** The state a successful [nativeInit] leaves. *)
Definition started (s : state) : state :=
  mkState (inputQueue s) (outputQueue s) true false
    (Some (length (in_heap s))) (Some (length (out_heap s)))
    (in_heap s ++ [InputBuffer.init]) (out_heap s ++ [OutputBuffer.init])
    (Some (length (in_heap s))) (Some (length (out_heap s)))
    (S (engines s)).

(** An init that reaches the redirection of the streams, whatever it
    returns. *)
Definition redirecting (e : event) : bool :=
  match e with
  | EvInit NoFault _ | EvInit ThreadFailure _ => true
  | _ => false
  end.

(** The number of redirections in a trace. *)
Definition redirects (tr : list event) : nat :=
  length (filter (fun e => redirecting e = true) tr).

(** The characters ahead of the engine: those of the buffer [std::cin]
    reads through, if it has been redirected, then the queued lines. *)
Definition pending_in (s : state) : list char :=
  match cin_buffer s with
  | Some b => InputBuffer.pending b (inputQueue s)
  | None => unlines (inputQueue s)
  end.

(** The characters written and not yet received. *)
Definition written_out (s : state) : list char :=
  match cout_buffer s with
  | Some b => OutputBuffer.written b (outputQueue s)
  | None => unlines (outputQueue s)
  end.

(** The unterminated characters in the buffer [std::cout] writes
    through. *)
Definition cout_line (s : state) : line :=
  match cout_buffer s with
  | Some b => OutputBuffer.lineBuffer b
  | None => []
  end.

(** ** Running the system *)

(** What a thread can be asked to do next. *)
Inductive op :=
| OpInit (f : fault)
| OpSend (p : list char)
| OpRecv (elapsed : bool)
| OpDestroy
| OpGet
| OpPut (ch : char).

(** One operation, with the event it shows.  An operation of the engine
    needs an engine. *)
Definition exec (o : op) (s : state) : outcome (event * state) :=
  match o with
  | OpInit f => '(ok, s') <~ nativeInit f s ;; Ready (EvInit f ok, s')
  | OpSend p => s' <~ nativeSendCommand (Some p) s ;; Ready (EvSend (string_of_c p), s')
  | OpRecv elapsed => '(r, s') <~ nativeReadLine elapsed s ;; Ready (EvRecv r, s')
  | OpDestroy => Ready (EvDestroy, nativeDestroy s)
  | OpGet =>
      if decide (0 < engines s) then
        '(c, s') <~ cin_sbumpc s ;; Ready (EvGet (to_char c), s')
      else Blocked
  | OpPut ch =>
      if decide (0 < engines s) then
        '(_, s') <~ cout_sputc ch s ;; Ready (EvPut ch, s')
      else Blocked
  end.

(** A sequence of operations, first to last, with its trace. *)
Fixpoint execs (os : list op) (s : state) : outcome (list event * state) :=
  match os with
  | [] => Ready ([], s)
  | o :: os' =>
      '(e, s') <~ exec o s ;;
      '(tr, s'') <~ execs os' s' ;;
      Ready (e :: tr, s'')
  end.

#[global] Arguments nativeInit : simpl never.
#[global] Arguments nativeSendCommand : simpl never.
#[global] Arguments nativeReadLine : simpl never.
#[global] Arguments nativeDestroy : simpl never.
#[global] Arguments cin_sbumpc : simpl never.
#[global] Arguments cout_sputc : simpl never.

(** Three small schedules, used to exercise the theorems below. *)
Definition demo_in : list op :=
  [OpInit NoFault; OpSend (str "uci" ++ NUL :: str "x"); OpGet; OpGet;
   OpDestroy; OpGet; OpGet; OpGet].

Definition demo_out : list op :=
  [OpInit NoFault; OpPut "o"%char; OpPut "k"%char; OpPut NL; OpPut "r"%char;
   OpRecv false; OpPut NL; OpPut "x"%char].

Definition demo_blocked : list op :=
  [OpInit NoFault; OpSend (str "go"); OpGet; OpGet; OpGet].

(** A second init while the first line is half read. *)
Definition demo_double_init : list op :=
  [OpInit NoFault; OpSend (str "ab"); OpGet; OpInit NoFault; OpGet].

(** ** The entry points, branch by branch *)

Section EntryPoints.
Implicit Types (s : state) (f : fault) (l : line) (q : queue).

Lemma nativeInit_BadAllocInput s : nativeInit BadAllocInput s = Ready (false, s).
Proof. reflexivity. Qed.

Lemma nativeInit_BadAllocOutput s :
  nativeInit BadAllocOutput s = Ready (false, new_InputBuffer s).
Proof. reflexivity. Qed.

Lemma nativeInit_ThreadFailure s :
  nativeInit ThreadFailure s = Ready (false, prepared s).
Proof. reflexivity. Qed.

Lemma nativeInit_NoFault s :
  engineThread_joinable s = false -> nativeInit NoFault s = Ready (true, started s).
Proof. intros Hj. unfold nativeInit, launch. simpl. by rewrite Hj. Qed.

Lemma nativeInit_joinable s :
  engineThread_joinable s = true -> nativeInit NoFault s = Undefined.
Proof. intros Hj. unfold nativeInit, launch. simpl. by rewrite Hj. Qed.

(** The result is [true] exactly when nothing threw. *)
Lemma nativeInit_result f s ok s' :
  nativeInit f s = Ready (ok, s') -> ok = true <-> f = NoFault.
Proof.
  destruct f; simpl.
  - unfold nativeInit, launch. simpl. destruct (engineThread_joinable s); [done|].
    by intros [= <- _].
  - by intros [= <- _].
  - by intros [= <- _].
  - by intros [= <- _].
Qed.

(** All of [nativeInit] in one statement. *)
Lemma nativeInit_cases f s ok s' :
  nativeInit f s = Ready (ok, s') ->
  engineThread_joinable s = false ->
  match f with
  | NoFault => ok = true /\ s' = started s
  | BadAllocInput => ok = false /\ s' = s
  | BadAllocOutput => ok = false /\ s' = new_InputBuffer s
  | ThreadFailure => ok = false /\ s' = prepared s
  end.
Proof.
  intros E Hj. destruct f.
  - rewrite nativeInit_NoFault in E by done. by injection E as <- <-.
  - by injection E as <- <-.
  - by injection E as <- <-.
  - by injection E as <- <-.
Qed.

Lemma nativeSendCommand_push p s :
  nativeSendCommand (Some p) s =
  Ready (set_inputQueue (inputQueue s ++ [string_of_c p]) s).
Proof. reflexivity. Qed.

Lemma nativeSendCommand_null s : nativeSendCommand None s = Undefined.
Proof. reflexivity. Qed.

(** [nativeReadLine] on an empty queue: it waits while the time is not
    up, and returns the null string once it is. *)
Lemma nativeReadLine_waiting s :
  outputQueue s = [] -> nativeReadLine false s = Blocked.
Proof. unfold nativeReadLine. by intros ->. Qed.

Lemma nativeReadLine_timeout s :
  outputQueue s = [] -> nativeReadLine true s = Ready (None, s).
Proof. unfold nativeReadLine. by intros ->. Qed.

(** [nativeReadLine] on a queue with a front line: that line, as far as
    its first NUL, whether or not the time is up. *)
Lemma nativeReadLine_line elapsed s l q :
  outputQueue s = l :: q ->
  nativeReadLine elapsed s = Ready (Some (c_view l), set_outputQueue q s).
Proof. unfold nativeReadLine. by intros ->. Qed.

(** All of [nativeReadLine] in one statement. *)
Lemma nativeReadLine_cases elapsed s :
  nativeReadLine elapsed s =
  match outputQueue s with
  | [] => if elapsed then Ready (None, s) else Blocked
  | l :: q => Ready (Some (c_view l), set_outputQueue q s)
  end.
Proof.
  destruct (outputQueue s) as [|l q] eqn:E.
  - destruct elapsed; [by apply nativeReadLine_timeout | by apply nativeReadLine_waiting].
  - by apply nativeReadLine_line.
Qed.

Lemma quit_literal : string_of_c (c_str (str "quit")) = str "quit".
Proof. reflexivity. Qed.

Lemma nativeDestroy_push s :
  nativeDestroy s =
  set_inputQueue (inputQueue s ++ [str "quit"]) (set_engineRunning false s).
Proof. reflexivity. Qed.

End EntryPoints.

(** ** The engine's accesses, completely *)

Section EngineSide.
Implicit Types (s : state) (ch : char).

Lemma cin_sbumpc_spec s :
  cin_sbumpc s =
  a <~ must (cin_rdbuf s) ;;
  b <~ must (in_heap s !! a) ;;
  match InputBuffer.pending b (inputQueue s) with
  | [] => Blocked
  | ch :: _ =>
      let p := InputBuffer.advance b (inputQueue s) in
      Ready (to_int_type ch, set_inputQueue p.2 (set_in_heap (<[a := p.1]> (in_heap s)) s))
  end.
Proof.
  unfold cin_sbumpc. destruct (cin_rdbuf s) as [a|]; [|done]. simpl.
  destruct (in_heap s !! a) as [b|]; [|done]. simpl.
  rewrite ib_sbumpc_spec. by destruct (InputBuffer.pending _ _).
Qed.

Lemma cout_sputc_spec ch s :
  cout_sputc ch s =
  a <~ must (cout_rdbuf s) ;;
  b <~ must (out_heap s !! a) ;;
  let p := OutputBuffer.put ch b (outputQueue s) in
  Ready (to_int_type ch, set_outputQueue p.2 (set_out_heap (<[a := p.1]> (out_heap s)) s)).
Proof.
  unfold cout_sputc. destruct (cout_rdbuf s) as [a|]; [|done]. simpl.
  destruct (out_heap s !! a) as [b|]; [|done]. simpl.
  by rewrite ob_sputc_spec.
Qed.

End EngineSide.

(** ** The invariant holds of every reachable state *)

Section Invariant.
Implicit Types (s : state) (e : event).

Lemma inv_initial : inv initial.
Proof. split; simpl; try done; try constructor; lia. Qed.

Lemma inv_set_inputQueue q s :
  inv s -> Forall (fun l => NUL ∉ l) q -> inv (set_inputQueue q s).
Proof. intros [] Hq. by split. Qed.

Lemma inv_set_outputQueue q s :
  inv s -> Forall nl_free q -> inv (set_outputQueue q s).
Proof. intros [] Hq. by split. Qed.

Lemma inv_set_engineRunning v s : inv s -> inv (set_engineRunning v s).
Proof. intros []. by split. Qed.

Lemma inv_set_in_heap h s :
  inv s -> length h = length (in_heap s) -> Forall InputBuffer.wf h ->
  inv (set_in_heap h s).
Proof. intros [] Hl Hh. split; simpl; try done; by rewrite Hl. Qed.

Lemma inv_set_out_heap h s :
  inv s -> length h = length (out_heap s) ->
  Forall (fun b => nl_free (OutputBuffer.lineBuffer b)) h ->
  inv (set_out_heap h s).
Proof. intros [] Hl Hh. split; simpl; try done; by rewrite Hl. Qed.

Lemma inv_new_InputBuffer s : inv s -> inv (new_InputBuffer s).
Proof.
  intros []. split; simpl; try done.
  - intros a Ha. rewrite length_app. simpl. specialize (inv_cin0 a Ha). lia.
  - intros a [= <-]. rewrite length_app. simpl. lia.
  - apply Forall_app. split; [done|]. constructor; [apply ib_wf_init|constructor].
Qed.

Lemma inv_new_OutputBuffer s : inv s -> inv (new_OutputBuffer s).
Proof.
  intros []. split; simpl; try done.
  - intros a Ha. rewrite length_app. simpl. specialize (inv_cout0 a Ha). lia.
  - intros a [= <-]. rewrite length_app. simpl. lia.
  - apply Forall_app. split; [done|]. constructor; [apply not_elem_of_nil|constructor].
Qed.

Lemma inv_prepared s : inv s -> inv (prepared s).
Proof.
  intros Hs. apply inv_new_InputBuffer, inv_new_OutputBuffer in Hs.
  destruct Hs. split; simpl in *; try done; eauto.
Qed.

Lemma inv_started s : inv s -> inv (started s).
Proof.
  intros Hs. apply inv_prepared in Hs.
  destruct Hs. split; simpl in *; try done; eauto.
Qed.

Lemma inv_nativeInit f s ok s' :
  inv s -> nativeInit f s = Ready (ok, s') -> inv s'.
Proof.
  intros Hs E. apply nativeInit_cases in E; [|apply Hs].
  destruct f, E as [_ ->];
    auto using inv_started, inv_new_InputBuffer, inv_prepared.
Qed.

Lemma inv_nativeSendCommand p s s' :
  inv s -> nativeSendCommand (Some p) s = Ready s' -> inv s'.
Proof.
  intros Hs [= <-]. apply inv_set_inputQueue; [done|].
  apply Forall_app. split; [apply Hs|]. constructor; [apply string_of_c_NUL_free|constructor].
Qed.

Lemma inv_nativeReadLine elapsed s r s' :
  inv s -> nativeReadLine elapsed s = Ready (r, s') -> inv s'.
Proof.
  intros Hs. rewrite nativeReadLine_cases.
  destruct (outputQueue s) as [|l q] eqn:E.
  - destruct elapsed; [|done]. by intros [= _ <-].
  - intros [= _ <-]. apply inv_set_outputQueue; [done|].
    pose proof (inv_out_queue s Hs) as Hq. rewrite E in Hq. by inversion Hq.
Qed.

Lemma inv_nativeDestroy s : inv s -> inv (nativeDestroy s).
Proof.
  intros Hs. rewrite nativeDestroy_push.
  apply inv_set_inputQueue; [by apply inv_set_engineRunning|]. simpl.
  apply Forall_app. split; [apply Hs|]. constructor; [|constructor].
  rewrite <- quit_literal. apply string_of_c_NUL_free.
Qed.

Lemma inv_cin_sbumpc s c s' :
  inv s -> cin_sbumpc s = Ready (c, s') -> inv s'.
Proof.
  intros Hs. rewrite cin_sbumpc_spec.
  destruct (cin_rdbuf s) as [a|]; [|done]. simpl.
  destruct (in_heap s !! a) as [b|] eqn:Eb; [|done]. simpl.
  destruct (InputBuffer.pending b (inputQueue s)) as [|ch rest] eqn:Ep; [done|].
  intros [= _ <-].
  assert (Forall (fun l => NUL ∉ l) (InputBuffer.advance b (inputQueue s)).2) as Hq.
  { pose proof (inv_NUL s Hs) as Hq. unfold InputBuffer.advance.
    destruct (InputBuffer.gavail b), (inputQueue s); simpl; try done. by inversion Hq. }
  apply inv_set_inputQueue; [|done].
  apply inv_set_in_heap; [done|by rewrite length_insert|].
  apply Forall_insert; [apply Hs|]. apply ib_wf_advance.
  eapply Forall_lookup_1; [apply (inv_in_wf s Hs)|done].
Qed.

Lemma inv_cout_sputc ch s r s' :
  inv s -> cout_sputc ch s = Ready (r, s') -> inv s'.
Proof.
  intros Hs. rewrite cout_sputc_spec.
  destruct (cout_rdbuf s) as [a|]; [|done]. simpl.
  destruct (out_heap s !! a) as [b|] eqn:Eb; [|done]. simpl.
  intros [= _ <-].
  destruct (ob_put_wf ch b (outputQueue s)) as [Hq Hb].
  { split; [apply Hs|]. eapply (Forall_lookup_1 _ _ _ _ (inv_out_heap s Hs) Eb). }
  apply inv_set_outputQueue; [|done].
  apply inv_set_out_heap; [done|by rewrite length_insert|].
  apply Forall_insert; [apply Hs|done].
Qed.

(** Every step keeps the invariant. *)
Lemma inv_step s e s' : inv s -> step s e s' -> inv s'.
Proof.
  intros Hs Hstep. destruct Hstep;
    eauto using inv_nativeInit, inv_nativeSendCommand, inv_nativeReadLine,
      inv_nativeDestroy, inv_cin_sbumpc, inv_cout_sputc.
Qed.

Lemma inv_run s tr s' : inv s -> run s tr s' -> inv s'.
Proof. intros Hs Hrun. induction Hrun; eauto using inv_step. Qed.

(** Runs compose. *)
Lemma run_app s tr1 s1 tr2 s2 : run s tr1 s1 -> run s1 tr2 s2 -> run s (tr1 ++ tr2) s2.
Proof. induction 1; simpl; [done|]. intros. econstructor; eauto. Qed.

Lemma run_one s e s' : step s e s' -> run s [e] s'.
Proof. intros. econstructor; [done|constructor]. Qed.

End Invariant.

(** ** The life cycle is what the entry points implement *)

Section LifeCycle.
Implicit Types (s : state) (e : event).

Lemma phase_of_started s : phase_of (started s) = Running.
Proof. reflexivity. Qed.

Lemma phase_of_prepared s :
  phase_of (prepared s) = if decide (engines s = 0) then Uninitialized else Running.
Proof. reflexivity. Qed.

Lemma phase_of_destroy s :
  phase_of (nativeDestroy s) =
  if decide (engines s = 0) then Uninitialized else ShutdownRequested.
Proof. reflexivity. Qed.

Lemma phase_of_engines s : 0 < engines s -> phase_of s <> Uninitialized.
Proof. unfold phase_of. intros He. case_decide; [lia|]. by destruct (engineRunning s). Qed.

Lemma lifecycle_init f s ok s' :
  inv s -> nativeInit f s = Ready (ok, s') -> lifecycle (phase_of s) (EvInit f ok) (phase_of s').
Proof.
  intros Hs E. apply nativeInit_cases in E; [|apply Hs].
  destruct f, E as [-> ->].
  - rewrite phase_of_started. constructor.
  - constructor. by left.
  - constructor. by left.
  - rewrite phase_of_prepared. unfold phase_of.
    case_decide; [constructor; by right|].
    destruct (engineRunning s); constructor. by right.
Qed.

Lemma phase_of_frame s s' :
  engines s' = engines s -> engineRunning s' = engineRunning s ->
  phase_of s' = phase_of s.
Proof. unfold phase_of. by intros -> ->. Qed.

Lemma phase_of_cin_sbumpc s c s' :
  cin_sbumpc s = Ready (c, s') -> phase_of s' = phase_of s.
Proof.
  rewrite cin_sbumpc_spec. destruct (cin_rdbuf s); [|done]. simpl.
  destruct (in_heap s !! _); [|done]. simpl.
  destruct (InputBuffer.pending _ _); [done|]. by intros [= _ <-].
Qed.

Lemma phase_of_cout_sputc ch s r s' :
  cout_sputc ch s = Ready (r, s') -> phase_of s' = phase_of s.
Proof.
  rewrite cout_sputc_spec. destruct (cout_rdbuf s); [|done]. simpl.
  destruct (out_heap s !! _); [|done]. simpl. by intros [= _ <-].
Qed.

Lemma phase_of_nativeReadLine elapsed s r s' :
  nativeReadLine elapsed s = Ready (r, s') -> phase_of s' = phase_of s.
Proof.
  rewrite nativeReadLine_cases. destruct (outputQueue s), elapsed; try done;
    by intros [= _ <-].
Qed.

End LifeCycle.

(** ** What goes in comes out: the input direction *)

Section InputHistory.
Implicit Types (s : state) (e : event) (tr : list event).

Lemma lines_in_app tr1 tr2 : lines_in (tr1 ++ tr2) = lines_in tr1 ++ lines_in tr2.
Proof. apply omap_app. Qed.

Lemma gets_app tr1 tr2 : gets (tr1 ++ tr2) = gets tr1 ++ gets tr2.
Proof. apply omap_app. Qed.

Lemma redirects_cons e tr :
  redirects (e :: tr) = (if redirecting e then 1 else 0) + redirects tr.
Proof.
  unfold redirects. destruct (redirecting e) eqn:E.
  - by rewrite filter_cons_True.
  - rewrite filter_cons_False; [done|]. by rewrite E.
Qed.

(** A line pushed is a line more ahead of the engine. *)
Lemma pending_in_push l s :
  pending_in (set_inputQueue (inputQueue s ++ [l]) s) = pending_in s ++ l ++ [NL].
Proof.
  unfold pending_in, cin_buffer. simpl. destruct (cin_rdbuf s ≫= _) as [b|].
  - apply (ib_pending_push b l).
  - apply unlines_snoc.
Qed.

(** The line "quit" goes behind what is ahead. *)
Lemma pending_in_nativeDestroy s :
  pending_in (nativeDestroy s) = pending_in s ++ str "quit" ++ [NL].
Proof.
  rewrite nativeDestroy_push.
  change (pending_in (set_inputQueue ?q (set_engineRunning false s)))
    with (pending_in (set_inputQueue q s)).
  apply pending_in_push.
Qed.

(** A new buffer object leaves the stream ahead as it is. *)
Lemma pending_in_new_InputBuffer s :
  inv s -> pending_in (new_InputBuffer s) = pending_in s.
Proof.
  intros Hs. unfold pending_in, cin_buffer. simpl.
  destruct (cin_rdbuf s) as [a|] eqn:Ea; [|done]. simpl.
  by rewrite lookup_app_l by by apply Hs.
Qed.

(** Behind a buffer just made, the stream ahead is the queued lines:
    the new buffer has no get area. *)
Lemma pending_in_fresh s s' :
  inputQueue s' = inputQueue s ->
  cin_rdbuf s' = Some (length (in_heap s)) ->
  in_heap s' = in_heap s ++ [InputBuffer.init] ->
  pending_in s' = unlines (inputQueue s).
Proof.
  intros Hq Hc Hh. unfold pending_in, cin_buffer. rewrite Hc, Hh, Hq. simpl.
  by rewrite list_lookup_middle.
Qed.

(** The first redirection of [std::cin] leaves the stream ahead as it
    is. *)
Lemma pending_in_redirect s s' :
  cin_rdbuf s = None -> inputQueue s' = inputQueue s ->
  cin_rdbuf s' = Some (length (in_heap s)) ->
  in_heap s' = in_heap s ++ [InputBuffer.init] ->
  pending_in s' = pending_in s.
Proof.
  intros E Hq Hc Hh. rewrite (pending_in_fresh s s') by done.
  unfold pending_in, cin_buffer. by rewrite E.
Qed.

Lemma pending_in_nativeInit f s ok s' :
  inv s -> nativeInit f s = Ready (ok, s') ->
  (redirecting (EvInit f ok) = true -> cin_rdbuf s = None) ->
  pending_in s' = pending_in s.
Proof.
  intros Hs E Hr. apply nativeInit_cases in E; [|apply Hs].
  destruct f, E as [-> ->]; simpl in Hr.
  - by apply pending_in_redirect; auto.
  - done.
  - by apply pending_in_new_InputBuffer.
  - by apply pending_in_redirect; auto.
Qed.

(** A character read is the first character ahead. *)
Lemma pending_in_cin_sbumpc s c s' :
  cin_sbumpc s = Ready (c, s') ->
  exists ch, c = to_int_type ch /\ pending_in s = ch :: pending_in s'.
Proof.
  rewrite cin_sbumpc_spec. unfold pending_in at 1, cin_buffer.
  destruct (cin_rdbuf s) as [a|] eqn:Ea; [|done]. simpl.
  destruct (in_heap s !! a) as [b|] eqn:Eb; [|done]. simpl.
  destruct (InputBuffer.pending b (inputQueue s)) as [|ch rest] eqn:Ep; [done|].
  intros [= <- <-]. exists ch. split; [done|].
  unfold pending_in, cin_buffer. simpl. rewrite Ea. simpl.
  rewrite list_lookup_insert_eq by by eapply lookup_lt_Some.
  by rewrite ib_pending_advance, Ep.
Qed.

(** A character written leaves the input direction alone. *)
Lemma pending_in_cout_sputc ch s r s' :
  cout_sputc ch s = Ready (r, s') -> pending_in s' = pending_in s.
Proof.
  rewrite cout_sputc_spec. destruct (cout_rdbuf s); [|done]. simpl.
  destruct (out_heap s !! _); [|done]. by intros [= _ <-].
Qed.

(** One step of the input direction. *)
Lemma pending_in_step s e s' :
  inv s -> step s e s' -> (redirecting e = true -> cin_rdbuf s = None) ->
  pending_in s ++ unlines (lines_in [e]) = gets [e] ++ pending_in s'.
Proof.
  intros Hs Hstep Hr. destruct Hstep as [f ok s s' E|p s s' E|el r s s' E|s|ch s s' He E|ch r s s' He E].
  - rewrite (pending_in_nativeInit _ _ _ _ Hs E Hr). simpl. by rewrite app_nil_r.
  - rewrite nativeSendCommand_push in E. injection E as <-.
    by rewrite pending_in_push.
  - assert (pending_in s' = pending_in s) as ->; [|simpl; by rewrite app_nil_r].
    rewrite nativeReadLine_cases in E.
    destruct (outputQueue s), el; try done; by injection E as _ <-.
  - by rewrite pending_in_nativeDestroy.
  - destruct (pending_in_cin_sbumpc _ _ _ E) as (ch' & ->%to_int_type_inj & ->).
    simpl. by rewrite app_nil_r.
  - rewrite (pending_in_cout_sputc _ _ _ _ E). simpl. by rewrite app_nil_r.
Qed.

(** Only a redirecting init changes the buffers of the two streams. *)
Lemma rdbuf_step s e s' :
  inv s -> step s e s' -> redirecting e = false ->
  cin_rdbuf s' = cin_rdbuf s /\ cout_rdbuf s' = cout_rdbuf s.
Proof.
  intros Hs Hstep Hr. destruct Hstep as [f ok s s' E|p s s' E|el r s s' E|s|ch s s' He E|ch r s s' He E].
  - apply nativeInit_cases in E; [|apply Hs].
    destruct f, E as [-> ->]; simpl in Hr; done.
  - by injection E as <-.
  - rewrite nativeReadLine_cases in E.
    destruct (outputQueue s), el; try done; by injection E as _ <-.
  - done.
  - rewrite cin_sbumpc_spec in E. destruct (cin_rdbuf s) eqn:Ea; [|done]. simpl in E.
    destruct (in_heap s !! _); [|done]. simpl in E.
    destruct (InputBuffer.pending _ _); [done|]. injection E as _ <-. by rewrite <- Ea.
  - rewrite cout_sputc_spec in E. destruct (cout_rdbuf s) eqn:Ea; [|done]. simpl in E.
    destruct (out_heap s !! _); [|done]. injection E as _ <-. by rewrite <- Ea.
Qed.

(** A run without redirection. *)
Lemma pending_in_run_0 s tr s' :
  inv s -> run s tr s' -> redirects tr = 0 ->
  pending_in s ++ unlines (lines_in tr) = gets tr ++ pending_in s'.
Proof.
  intros Hs Hrun. induction Hrun as [s|s e s1 tr s' Hstep Hrun IH].
  - intros _. simpl. by rewrite app_nil_r.
  - rewrite redirects_cons. intros Hr.
    assert (redirecting e = false) as He by (destruct (redirecting e); [lia|done]).
    rewrite He in Hr. change (e :: tr) with ([e] ++ tr).
    rewrite lines_in_app, gets_app, unlines_app, app_assoc.
    rewrite (pending_in_step s e s1) by (done || by rewrite He).
    rewrite <- !app_assoc. f_equal. apply IH; [by eapply inv_step|done].
Qed.

(** A run with at most one redirection, from a state in which
    [std::cin] still has its own buffer. *)
Lemma pending_in_run s tr s' :
  inv s -> run s tr s' -> cin_rdbuf s = None -> redirects tr <= 1 ->
  pending_in s ++ unlines (lines_in tr) = gets tr ++ pending_in s'.
Proof.
  intros Hs Hrun. induction Hrun as [s|s e s1 tr s' Hstep Hrun IH].
  - intros _ _. simpl. by rewrite app_nil_r.
  - rewrite redirects_cons. intros Hc Hr. change (e :: tr) with ([e] ++ tr).
    rewrite lines_in_app, gets_app, unlines_app, app_assoc.
    rewrite (pending_in_step s e s1) by done.
    rewrite <- !app_assoc. f_equal.
    pose proof (inv_step _ _ _ Hs Hstep) as Hs1.
    destruct (redirecting e) eqn:He.
    + apply pending_in_run_0; [done..|lia].
    + apply IH; [done| |lia]. destruct (rdbuf_step s e s1) as [-> _]; done.
Qed.

End InputHistory.

(** ** What goes in comes out: the output direction *)

Section OutputHistory.
Implicit Types (s : state) (e : event) (tr : list event).

Lemma puts_app tr1 tr2 : puts (tr1 ++ tr2) = puts tr1 ++ puts tr2.
Proof. apply omap_app. Qed.

Lemma received_app tr1 tr2 : received (tr1 ++ tr2) = received tr1 ++ received tr2.
Proof. apply omap_app. Qed.

Lemma written_out_new_OutputBuffer s :
  inv s -> written_out (new_OutputBuffer s) = written_out s.
Proof.
  intros Hs. unfold written_out, cout_buffer. simpl.
  destruct (cout_rdbuf s) as [a|] eqn:Ea; [|done]. simpl.
  by rewrite lookup_app_l by by apply Hs.
Qed.

Lemma written_out_redirect s s' :
  cout_rdbuf s = None -> outputQueue s' = outputQueue s ->
  cout_rdbuf s' = Some (length (out_heap s)) ->
  out_heap s' = out_heap s ++ [OutputBuffer.init] ->
  written_out s' = written_out s.
Proof.
  intros E Hq Hc Hh. unfold written_out, cout_buffer. rewrite E, Hc, Hh, Hq. simpl.
  rewrite list_lookup_middle by done. unfold OutputBuffer.written. simpl.
  by rewrite app_nil_r.
Qed.

Lemma written_out_nativeInit f s ok s' :
  inv s -> nativeInit f s = Ready (ok, s') ->
  (redirecting (EvInit f ok) = true -> cout_rdbuf s = None) ->
  written_out s' = written_out s.
Proof.
  intros Hs E Hr. apply nativeInit_cases in E; [|apply Hs].
  destruct f, E as [-> ->]; simpl in Hr.
  - by apply written_out_redirect; auto.
  - done.
  - done.
  - by apply written_out_redirect; auto.
Qed.

(** A character written is a character more in the stream written. *)
Lemma written_out_cout_sputc ch s r s' :
  cout_sputc ch s = Ready (r, s') -> written_out s' = written_out s ++ [ch].
Proof.
  rewrite cout_sputc_spec. unfold written_out at 2, cout_buffer.
  destruct (cout_rdbuf s) as [a|] eqn:Ea; [|done]. simpl.
  destruct (out_heap s !! a) as [b|] eqn:Eb; [|done]. simpl.
  intros [= _ <-]. unfold written_out, cout_buffer. simpl. rewrite Ea. simpl.
  rewrite list_lookup_insert_eq by by eapply lookup_lt_Some.
  apply ob_put_written.
Qed.

(** A line received was the first line of the stream written. *)
Lemma written_out_pop l q s :
  outputQueue s = l :: q ->
  written_out s = l ++ NL :: written_out (set_outputQueue q s).
Proof.
  intros E. unfold written_out, cout_buffer. simpl. rewrite E.
  destruct (cout_rdbuf s ≫= _) as [b|]; [|done].
  unfold OutputBuffer.written. simpl. by rewrite <- app_assoc.
Qed.

Lemma written_out_nativeReadLine elapsed s r s' :
  inv s -> nativeReadLine elapsed s = Ready (r, s') ->
  exists raw, option_list r = c_view <$> raw /\ Forall nl_free raw /\
    written_out s = unlines raw ++ written_out s'.
Proof.
  intros Hs. rewrite nativeReadLine_cases.
  destruct (outputQueue s) as [|l q] eqn:E.
  - destruct elapsed; [|done]. intros [= <- <-]. by exists [].
  - intros [= <- <-]. exists [l]. split_and!; [done| |].
    + pose proof (inv_out_queue s Hs) as Hq. rewrite E in Hq.
      inversion Hq; subst. by constructor.
    + rewrite (written_out_pop l q) by done. simpl. by rewrite <- app_assoc.
Qed.

Lemma written_out_frame s s' :
  outputQueue s' = outputQueue s -> out_heap s' = out_heap s ->
  cout_rdbuf s' = cout_rdbuf s -> written_out s' = written_out s.
Proof. unfold written_out, cout_buffer. by intros -> -> ->. Qed.

Lemma written_out_cin_sbumpc s c s' :
  cin_sbumpc s = Ready (c, s') -> written_out s' = written_out s.
Proof.
  rewrite cin_sbumpc_spec. destruct (cin_rdbuf s); [|done]. simpl.
  destruct (in_heap s !! _); [|done]. simpl.
  destruct (InputBuffer.pending _ _); [done|]. by intros [= _ <-].
Qed.

(** One step of the output direction: the lines it hands to the caller
    are the next lines of the stream written, each as a C string shows
    it, and the characters it writes go to the end of that stream. *)
Lemma written_out_step s e s' :
  inv s -> step s e s' -> (redirecting e = true -> cout_rdbuf s = None) ->
  exists raw, received [e] = c_view <$> raw /\ Forall nl_free raw /\
    written_out s ++ puts [e] = unlines raw ++ written_out s'.
Proof.
  intros Hs Hstep Hr. destruct Hstep as [f ok s s' E|p s s' E|el r s s' E|s|ch s s' He E|ch r s s' He E].
  - exists []. rewrite (written_out_nativeInit _ _ _ _ Hs E Hr). simpl.
    by rewrite app_nil_r.
  - exists []. injection E as <-. simpl. by rewrite app_nil_r.
  - destruct (written_out_nativeReadLine _ _ _ _ Hs E) as (raw & Hraw & Hnl & ->).
    exists raw. simpl. rewrite app_nil_r. by destruct r.
  - exists []. simpl. by rewrite app_nil_r.
  - exists []. rewrite (written_out_cin_sbumpc _ _ _ E). simpl. by rewrite app_nil_r.
  - exists []. by rewrite (written_out_cout_sputc _ _ _ _ E).
Qed.

(** A run without redirection. *)
Lemma written_out_run_0 s tr s' :
  inv s -> run s tr s' -> redirects tr = 0 ->
  exists raw, received tr = c_view <$> raw /\ Forall nl_free raw /\
    written_out s ++ puts tr = unlines raw ++ written_out s'.
Proof.
  intros Hs Hrun. induction Hrun as [s|s e s1 tr s' Hstep Hrun IH].
  - intros _. exists []. simpl. by rewrite app_nil_r.
  - rewrite redirects_cons. intros Hr.
    assert (redirecting e = false) as He by (destruct (redirecting e); [lia|done]).
    rewrite He in Hr.
    destruct (written_out_step s e s1) as (raw1 & E1 & Hnl1 & Hw1); [done..|by rewrite He|].
    destruct IH as (raw2 & E2 & Hnl2 & Hw2); [by eapply inv_step|done|].
    exists (raw1 ++ raw2). change (e :: tr) with ([e] ++ tr).
    rewrite received_app, puts_app, fmap_app, E1, E2, unlines_app.
    split_and!; [done|by apply Forall_app|].
    by rewrite app_assoc, Hw1, <- !app_assoc, Hw2.
Qed.

(** A run with at most one redirection, from a state in which
    [std::cout] still has its own buffer. *)
Lemma written_out_run s tr s' :
  inv s -> run s tr s' -> cout_rdbuf s = None -> redirects tr <= 1 ->
  exists raw, received tr = c_view <$> raw /\ Forall nl_free raw /\
    written_out s ++ puts tr = unlines raw ++ written_out s'.
Proof.
  intros Hs Hrun. induction Hrun as [s|s e s1 tr s' Hstep Hrun IH].
  - intros _ _. exists []. simpl. by rewrite app_nil_r.
  - rewrite redirects_cons. intros Hc Hr.
    pose proof (inv_step _ _ _ Hs Hstep) as Hs1.
    destruct (written_out_step s e s1) as (raw1 & E1 & Hnl1 & Hw1); [done..|].
    assert (exists raw2, received tr = c_view <$> raw2 /\ Forall nl_free raw2 /\
      written_out s1 ++ puts tr = unlines raw2 ++ written_out s') as (raw2 & E2 & Hnl2 & Hw2).
    { destruct (redirecting e) eqn:He.
      - apply written_out_run_0; [done..|lia].
      - apply IH; [done| |lia]. destruct (rdbuf_step s e s1) as [_ ->]; done. }
    exists (raw1 ++ raw2). change (e :: tr) with ([e] ++ tr).
    rewrite received_app, puts_app, fmap_app, E1, E2, unlines_app.
    split_and!; [done|by apply Forall_app|].
    by rewrite app_assoc, Hw1, <- !app_assoc, Hw2.
Qed.

End OutputHistory.

(** ** Running the system is taking steps *)

Section Exec.
Implicit Types (s : state) (e : event) (o : op).

Lemma exec_step o s e s' : exec o s = Ready (e, s') -> step s e s'.
Proof.
  destruct o as [f|p|el| | |ch]; simpl.
  - destruct (nativeInit f s) as [[ok s1]| |] eqn:E; [|done..].
    intros [= <- <-]. by constructor.
  - destruct (nativeSendCommand (Some p) s) as [s1| |] eqn:E; [|done..].
    intros [= <- <-]. by constructor.
  - destruct (nativeReadLine el s) as [[r s1]| |] eqn:E; [|done..].
    intros [= <- <-]. by econstructor.
  - intros [= <- <-]. constructor.
  - case_decide as He; [|done].
    destruct (cin_sbumpc s) as [[c s1]| |] eqn:E; [|done..].
    intros [= <- <-]. constructor; [done|].
    destruct (pending_in_cin_sbumpc _ _ _ E) as (ch & -> & _).
    by bridge_simpl.
  - case_decide as He; [|done].
    destruct (cout_sputc ch s) as [[r s1]| |] eqn:E; [|done..].
    intros [= <- <-]. by econstructor.
Qed.

Lemma execs_run os s tr s' : execs os s = Ready (tr, s') -> run s tr s'.
Proof.
  revert s tr. induction os as [|o os IH]; intros s tr; simpl.
  - intros [= <- <-]. constructor.
  - destruct (exec o s) as [[e s1]| |] eqn:E; [|done..]. simpl.
    destruct (execs os s1) as [[tr1 s2]| |] eqn:E1; [|done..].
    intros [= <- <-]. econstructor; [by eapply exec_step|by apply IH].
Qed.

(** Every step is an operation: the two presentations agree. *)
Lemma step_exec s e s' : step s e s' -> exists o, exec o s = Ready (e, s').
Proof.
  intros [f ok s0 s1 E|p s0 s1 E|el r s0 s1 E|s0|ch s0 s1 He E|ch r s0 s1 He E].
  - exists (OpInit f). unfold exec. by rewrite E.
  - exists (OpSend p). unfold exec. by rewrite E.
  - exists (OpRecv el). unfold exec. by rewrite E.
  - by exists OpDestroy.
  - exists OpGet. unfold exec. rewrite decide_True by done. rewrite E. simpl.
    by bridge_simpl.
  - exists (OpPut ch). unfold exec. rewrite decide_True by done. by rewrite E.
Qed.

End Exec.

(** ** Properties *)

Section Properties.
Implicit Types (s : state) (e : event) (tr : list event).

Lemma written_out_eq s : written_out s = unlines (outputQueue s) ++ cout_line s.
Proof.
  unfold written_out, cout_line. destruct (cout_buffer s); [done|].
  by rewrite app_nil_r.
Qed.

Lemma cout_line_nl_free s : inv s -> nl_free (cout_line s).
Proof.
  intros Hs. unfold cout_line, cout_buffer.
  destruct (cout_rdbuf s) as [a|]; simpl; [|apply not_elem_of_nil].
  destruct (out_heap s !! a) as [b|] eqn:Eb; [|apply not_elem_of_nil].
  apply (Forall_lookup_1 _ _ _ _ (inv_out_heap s Hs) Eb).
Qed.

(** The engine waits exactly when nothing is ahead of it. *)
Lemma cin_sbumpc_Blocked s :
  inv s -> 0 < engines s -> cin_sbumpc s = Blocked <-> pending_in s = [].
Proof.
  intros Hs He. rewrite cin_sbumpc_spec. unfold pending_in, cin_buffer.
  destruct (inv_engines s Hs He) as [[a Ea] _]. rewrite Ea. simpl.
  destruct (lookup_lt_is_Some_2 (in_heap s) a) as [b Eb]; [by apply Hs|].
  rewrite Eb. simpl. by destruct (InputBuffer.pending b (inputQueue s)).
Qed.

(** C1. In every run of the system from its initial state in which the
    streams are redirected at most once, the lines pushed onto the input
    queue (the commands sent and the "quit" of each destroy), each
    followed by a newline, are exactly the characters the engine has
    read followed by the characters still ahead of it: nothing is lost,
    duplicated or reordered on the way in. *)
Theorem input_delivery tr s :
  run initial tr s -> redirects tr <= 1 ->
  unlines (lines_in tr) = gets tr ++ pending_in s.
Proof.
  intros Hrun Hr.
  by apply (pending_in_run initial tr s inv_initial Hrun).
Qed.

Lemma input_delivery_witness :
  match execs demo_in initial with
  | Ready (tr, s) => unlines (lines_in tr) = gets tr ++ pending_in s
  | _ => False
  end.
Proof.
  destruct (execs demo_in initial) as [[tr s]| |] eqn:E;
    [|vm_compute in E; discriminate..].
  apply input_delivery; [by apply (execs_run demo_in)|].
  vm_compute in E. injection E as <- _. vm_compute. lia.
Defined.

(** C2. In every such run, the characters the engine has written split
    at the newlines into the lines the caller has received (each as far
    as its first NUL), then the lines still in the output queue; the
    characters behind the last newline are in the buffer and in no
    line. *)
Theorem output_delivery tr s :
  run initial tr s -> redirects tr <= 1 ->
  exists raw, received tr = c_view <$> raw /\
    split_lines (puts tr) = (raw ++ outputQueue s, cout_line s).
Proof.
  intros Hrun Hr.
  destruct (written_out_run initial tr s inv_initial Hrun) as (raw & E & Hnl & Hw); [done..|].
  pose proof (inv_run _ _ _ inv_initial Hrun) as Hs.
  exists raw. split; [done|]. simpl in Hw. rewrite Hw, written_out_eq, app_assoc.
  rewrite <- unlines_app. apply split_unlines.
  - apply Forall_app. split; [done|apply Hs].
  - by apply cout_line_nl_free.
Qed.

Lemma output_delivery_witness :
  match execs demo_out initial with
  | Ready (tr, s) =>
      exists raw, received tr = c_view <$> raw /\
        split_lines (puts tr) = (raw ++ outputQueue s, cout_line s)
  | _ => False
  end.
Proof.
  destruct (execs demo_out initial) as [[tr s]| |] eqn:E;
    [|vm_compute in E; discriminate..].
  apply output_delivery; [by apply (execs_run demo_out)|].
  vm_compute in E. injection E as <- _. vm_compute. lia.
Defined.

(** C13. When the engine is suspended in its read, it has read every
    character of every line pushed so far: a wait never hides input. *)
Theorem no_loss_when_blocked tr s :
  run initial tr s -> redirects tr <= 1 -> 0 < engines s ->
  cin_sbumpc s = Blocked ->
  gets tr = unlines (lines_in tr).
Proof.
  intros Hrun Hr He Hb.
  pose proof (inv_run _ _ _ inv_initial Hrun) as Hs.
  apply (cin_sbumpc_Blocked s Hs He) in Hb.
  pose proof (pending_in_run initial tr s inv_initial Hrun eq_refl Hr) as H.
  simpl in H. by rewrite H, Hb, app_nil_r.
Qed.

Lemma no_loss_when_blocked_witness :
  match execs demo_blocked initial with
  | Ready (tr, s) => gets tr = unlines (lines_in tr)
  | _ => False
  end.
Proof.
  destruct (execs demo_blocked initial) as [[tr s]| |] eqn:E;
    [|vm_compute in E; discriminate..].
  apply (no_loss_when_blocked tr s); [by apply (execs_run demo_blocked)|..];
    vm_compute in E; injection E as <- <-; vm_compute; (lia || reflexivity).
Defined.

(** C23. [nativeReadLine] returns the null string exactly when the
    output queue is empty and the five seconds have passed, and then it
    changes nothing: absence means silence, never a line withheld. *)
Theorem readline_absent_iff_empty elapsed s s' :
  nativeReadLine elapsed s = Ready (None, s') <->
  outputQueue s = [] /\ elapsed = true /\ s' = s.
Proof.
  rewrite nativeReadLine_cases.
  destruct (outputQueue s) as [|l q], elapsed; split; intros H;
    try discriminate H; try (by destruct H as (? & ? & ?)).
  - by injection H as <-.
  - by destruct H as (_ & _ & ->).
Qed.

(** C10. Every reachable state satisfies the invariant: the stream
    pointers are null or point at live buffers, an engine implies
    redirected streams, the thread handle owns no thread, the input
    buffers are well formed, no queued command holds a NUL and no queued
    or buffered output holds a newline. *)
Theorem reachable_inv s : reachable s -> inv s.
Proof. intros [tr Hrun]. by apply (inv_run initial tr s inv_initial). Qed.

Lemma reachable_inv_witness :
  match execs demo_in initial with
  | Ready (tr, s) => inv s
  | _ => False
  end.
Proof.
  destruct (execs demo_in initial) as [[tr s]| |] eqn:E;
    [|vm_compute in E; discriminate..].
  apply reachable_inv. exists tr. by apply (execs_run demo_in).
Defined.

(** C22. The entry points and the engine's accesses implement the life
    cycle: every step of the system from a state that satisfies the
    invariant is a transition of [lifecycle] between the phases of its
    two states. *)
Theorem lifecycle_refinement s e s' :
  inv s -> step s e s' -> lifecycle (phase_of s) e (phase_of s').
Proof.
  intros Hs Hstep.
  destruct Hstep as [f ok s0 s1 E|p s0 s1 E|el r s0 s1 E|s0|ch s0 s1 He E|ch r s0 s1 He E].
  - by apply lifecycle_init.
  - injection E as <-. constructor.
  - rewrite (phase_of_nativeReadLine _ _ _ _ E). constructor.
  - rewrite phase_of_destroy. unfold phase_of. case_decide; [constructor|].
    constructor. by destruct (engineRunning s0).
  - rewrite (phase_of_cin_sbumpc _ _ _ E). constructor. by apply phase_of_engines.
  - rewrite (phase_of_cout_sputc _ _ _ _ E). constructor. by apply phase_of_engines.
Qed.

Lemma lifecycle_refinement_witness :
  lifecycle (phase_of (started initial)) EvDestroy (phase_of (nativeDestroy (started initial))).
Proof.
  apply lifecycle_refinement; [apply inv_started, inv_initial|constructor].
Defined.

(** C24. A [nativeInit] that returns [false] has launched no engine and
    has touched neither queue. *)
Theorem init_failure_launches_nothing f s s' :
  nativeInit f s = Ready (false, s') ->
  engines s' = engines s /\ inputQueue s' = inputQueue s /\
  outputQueue s' = outputQueue s.
Proof.
  destruct f.
  - unfold nativeInit, launch. simpl. by destruct (engineThread_joinable s).
  - by intros [= <-].
  - by intros [= <-].
  - by intros [= <-].
Qed.

Lemma init_failure_launches_nothing_witness :
  engines (prepared initial) = engines initial /\
  inputQueue (prepared initial) = inputQueue initial /\
  outputQueue (prepared initial) = outputQueue initial.
Proof. apply (init_failure_launches_nothing ThreadFailure). reflexivity. Defined.

(** C30. What the caller receives is the front line as far as its first
    NUL: the line itself exactly when no NUL is in it. *)
Theorem readline_cuts_at_NUL elapsed s l q :
  outputQueue s = l :: q ->
  nativeReadLine elapsed s = Ready (Some (upto NUL l), set_outputQueue q s) /\
  (upto NUL l = l <-> NUL ∉ l).
Proof.
  intros E. rewrite (nativeReadLine_line _ _ _ _ E), c_view_upto. split; [done|].
  split; [|apply upto_id]. intros <-. apply upto_not_elem.
Qed.

Lemma readline_cuts_at_NUL_witness :
  nativeReadLine false (set_outputQueue [str "a" ++ NUL :: str "b"] (started initial)) =
  Ready (Some (str "a"),
         set_outputQueue [] (set_outputQueue [str "a" ++ NUL :: str "b"] (started initial))).
Proof.
  exact (proj1 (readline_cuts_at_NUL false
    (set_outputQueue [str "a" ++ NUL :: str "b"] (started initial))
    (str "a" ++ NUL :: str "b") [] eq_refl)).
Defined.

(** C31. Neither waiting entry point reaches undefined behaviour:
    [nativeReadLine] never calls [front] or [pop] on an empty queue, and
    with an engine running the engine's read finds a live buffer and a
    character in its get area. *)
Theorem waits_are_defined elapsed s :
  defined (nativeReadLine elapsed s) /\
  (inv s -> 0 < engines s -> defined (cin_sbumpc s)).
Proof.
  split.
  - rewrite nativeReadLine_cases. by destruct (outputQueue s), elapsed.
  - intros Hs He. rewrite cin_sbumpc_spec.
    destruct (inv_engines s Hs He) as [[a Ea] _]. rewrite Ea. simpl.
    destruct (lookup_lt_is_Some_2 (in_heap s) a) as [b Eb]; [by apply Hs|].
    rewrite Eb. simpl. by destruct (InputBuffer.pending b (inputQueue s)).
Qed.

Lemma waits_are_defined_witness :
  defined (nativeReadLine true (started initial)) /\
  defined (cin_sbumpc (started initial)).
Proof.
  destruct (waits_are_defined true (started initial)) as [H1 H2].
  split; [done|]. apply H2; [apply inv_started, inv_initial|simpl; lia].
Defined.

(** C34. [nativeDestroy] puts the line "quit" behind everything already
    ahead of the engine and clears the running flag; it launches and
    stops nothing. *)
Theorem destroy_delivers_quit s :
  pending_in (nativeDestroy s) = pending_in s ++ str "quit" ++ [NL] /\
  engineRunning (nativeDestroy s) = false /\
  engines (nativeDestroy s) = engines s.
Proof.
  split; [apply pending_in_nativeDestroy|done].
Qed.

(** C32. A second [nativeInit] that reaches the redirection of
    [std::cin] loses the rest of the current line: in every run that has
    redirected once, whatever buffer [std::cin] reads through, of the
    lines sent the engine has read some characters, the queued lines are
    still ahead of it behind the new buffer, and the characters left in
    the get area of the old buffer are neither read nor ahead. *)
Theorem second_init_loses_current_line tr s f ok s' b :
  run initial tr s -> redirects tr <= 1 -> cin_buffer s = Some b ->
  step s (EvInit f ok) s' -> redirecting (EvInit f ok) = true ->
  pending_in s' = unlines (inputQueue s) /\
  unlines (lines_in (tr ++ [EvInit f ok])) =
    gets (tr ++ [EvInit f ok]) ++ InputBuffer.gavail b ++ pending_in s'.
Proof.
  intros Hrun Hr Hb Hstep Hf.
  pose proof (inv_run _ _ _ inv_initial Hrun) as Hs.
  assert (pending_in s' = unlines (inputQueue s)) as Hp.
  { inversion Hstep as [? ? ? ? E| | | | |]; subst.
    apply nativeInit_cases in E; [|apply Hs].
    destruct f, E as [-> ->]; try done; by apply pending_in_fresh. }
  split; [done|].
  rewrite lines_in_app, gets_app, !app_nil_r, Hp.
  pose proof (pending_in_run initial tr s inv_initial Hrun eq_refl Hr) as H.
  change (pending_in initial) with (@nil char) in H. simpl in H. rewrite H.
  unfold pending_in. by rewrite Hb.
Qed.

Lemma second_init_loses_current_line_witness :
  match execs (take 3 demo_double_init) initial with
  | Ready (tr, s) =>
      pending_in (started s) = unlines (inputQueue s) /\
      unlines (lines_in (tr ++ [EvInit NoFault true])) =
        gets (tr ++ [EvInit NoFault true]) ++
        InputBuffer.gavail (InputBuffer.gbump (InputBuffer.loaded (str "ab"))) ++
        pending_in (started s)
  | _ => False
  end.
Proof.
  destruct (execs _ initial) as [[tr s]| |] eqn:E; [|vm_compute in E; discriminate..].
  apply second_init_loses_current_line;
    [by apply (execs_run (take 3 demo_double_init))|..];
    vm_compute in E; injection E as <- <-; (by vm_compute) || (vm_compute; lia) || idtac.
  by apply step_init.
Defined.

(** C35. When the thread cannot be created, [nativeInit] returns
    [false] with the running flag set and both streams redirected to the
    new buffers: the failure is not undone. *)
Theorem thread_failure_leaves_running s :
  exists s', nativeInit ThreadFailure s = Ready (false, s') /\
    engineRunning s' = true /\ engines s' = engines s /\
    cin_rdbuf s' = Some (length (in_heap s)) /\
    cout_rdbuf s' = Some (length (out_heap s)).
Proof. by exists (prepared s). Qed.

(** C33. A command with a newline in it is two commands to the engine:
    [nativeSendCommand] does not look into the string, so sending
    [p1], a newline and [p2] in one call puts ahead of the engine
    exactly what sending [p1] and then [p2] does. *)
Theorem embedded_newline_is_two_commands p1 p2 s s1 s2 s12 :
  NUL ∉ p1 ->
  nativeSendCommand (Some (p1 ++ NL :: p2)) s = Ready s1 ->
  nativeSendCommand (Some p1) s = Ready s2 ->
  nativeSendCommand (Some p2) s2 = Ready s12 ->
  pending_in s1 = pending_in s12.
Proof.
  intros Hp. rewrite !nativeSendCommand_push. intros [= <-] [= <-] [= <-].
  pose proof (pending_in_push (string_of_c p2)
                (set_inputQueue (inputQueue s ++ [string_of_c p1]) s)) as H2.
  cbn [inputQueue set_inputQueue] in H2. rewrite H2, !pending_in_push.
  rewrite string_of_c_app, (string_of_c_id p1) by done.
  assert (string_of_c (NL :: p2) = NL :: string_of_c p2) as -> by done.
  by rewrite <- !app_assoc.
Qed.

Lemma embedded_newline_is_two_commands_witness :
  pending_in (set_inputQueue [str "stop" ++ NL :: str "quit"] initial) =
  pending_in (set_inputQueue [str "stop"; str "quit"] initial).
Proof.
  apply (embedded_newline_is_two_commands (str "stop") (str "quit") initial _
           (set_inputQueue [str "stop"] initial)).
  - apply (bool_decide_unpack _). by vm_compute.
  - reflexivity.
  - reflexivity.
  - reflexivity.
Defined.

End Properties.
