(* ===== verification/Engine.v ===== *)
(** * Engine: the collaborator and the system with an engine in it

    [bridge.cpp] knows the engine by two declarations (lines 21-24),
    [Stockfish::init] and [Stockfish::loop], and runs them one after the
    other on the detached thread (lines 95-98).  What the engine does in
    between is reading [std::cin] and writing [std::cout].  An engine is
    therefore a state with a next action, to read a character, to write
    one, or to return, and a continuation for each: the type class
    [Engine].

    [Stub] is the engine of [stockfish_stub.cpp]: both functions log and
    return.  [LineEngine] is an engine in the shape the specification
    asks of the collaborator: it reads lines, answers each with the lines
    [respond] gives for it, and returns on the line "quit".

    [sys] puts the bridge and the engine threads together; its steps
    are steps of [Bridge.step], so what is proved of every run of the
    bridge holds whatever the engine.  [drive] runs one engine thread
    until it waits, with fuel; [engine_inv] is what an engine that
    answers lines has done after the characters it has read and
    written, and holds in every schedule of a system with one engine. *)

From Stdlib Require Import ZArith Ascii String List Lia.
From stdpp Require Import base tactics option list strings.
From S2P Require Import Prelude Chars Lines LineQueue Streambuf Bridge.

#[local] Open Scope bridge_scope.

(** ** The interface *)

(** What an engine does next. *)
Inductive action :=
| Get
| Put (ch : char)
| Exit.

(** An engine: its state after [Stockfish::init()], the state in which
    [Stockfish::loop(args)] starts, the next action of a state, and the
    states that follow a character read and a character written. *)
Class Engine (E : Type) := {
  init : E;
  loop : line -> E -> E;
  next : E -> action;
  got : char -> E -> E;
  wrote : E -> E
}.

(** The body of the engine thread (lines 95-98). *)
Definition thread_body `{Engine E} : E := loop (str "") init.

(** ** The stub *)

Module Stub.

(** The stub keeps no state. *)
Definition t : Type := unit.

(** [Stockfish::init()] of the stub (lines 17-19): a log line. *)
Definition init : t := tt.

(** [Stockfish::loop] of the stub (lines 21-27): a log line, then
    return. *)
Definition loop (args : line) (e : t) : t := e.

(** Having returned from [loop], the thread ends. *)
Definition next (e : t) : action := Exit.

End Stub.

#[export] Instance Stub_engine : Engine Stub.t := {
  init := Stub.init;
  loop := Stub.loop;
  next := Stub.next;
  got := fun _ e => e;
  wrote := fun e => e
}.

(** ** An engine that answers lines *)

(** The lines an engine answers a command with. *)
Class Responder := respond : line -> list line.

Module LineEngine.

(** Reading a line, of which [acc] has been read; writing [out]; or
    returned. *)
Inductive t :=
| Reading (acc : line)
| Writing (out : list char)
| Done.

(** After the characters [out] have been asked for: write them, or
    read on when there are none. *)
Definition resume (out : list char) : t :=
  match out with
  | [] => Reading []
  | _ :: _ => Writing out
  end.

(** A whole line has been read: return on "quit", answer otherwise. *)
Definition dispatch `{Responder} (cmd : line) : t :=
  if decide (cmd = str "quit") then Done else resume (unlines (respond cmd)).

Definition next (e : t) : action :=
  match e with
  | Reading _ => Get
  | Writing (ch :: _) => Put ch
  | Writing [] => Get
  | Done => Exit
  end.

Definition got `{Responder} (ch : char) (e : t) : t :=
  match e with
  | Reading acc => if decide (ch = NL) then dispatch acc else Reading (acc ++ [ch])
  | Writing [] => if decide (ch = NL) then dispatch [] else Reading [ch]
  | _ => e
  end.

Definition wrote (e : t) : t :=
  match e with
  | Writing (_ :: out) => resume out
  | _ => e
  end.

End LineEngine.

(** The engine that answers with [respond]. *)
#[export] Instance LineEngine_engine `{R : Responder} : Engine LineEngine.t := {
  init := LineEngine.Reading [];
  loop := fun _ e => e;
  next := LineEngine.next;
  got := LineEngine.got;
  wrote := LineEngine.wrote
}.

(** An engine that answers "ping" with "pong", and nothing else. *)
Definition pong : Responder :=
  fun cmd => if decide (cmd = str "ping") then [str "pong"] else [].

(** ** The system *)

(** The events that start an engine thread: a [nativeInit] that returned
    [true]. *)
Definition starts (e : event) : bool :=
  match e with
  | EvInit _ true => true
  | _ => false
  end.

Section System.
Context {E : Type} `{Engine E}.

(** The bridge and the engine threads, in the order they were
    launched. *)
Record sys := mkSys {
  bridge : state;
  threads : list E
}.

(** Who moves: the caller with an entry point, or the [i]-th engine
    thread. *)
Inductive move :=
| Call (o : op)
| Run (i : nat).

(** The system before anything has happened. *)
Definition boot : sys := mkSys initial [].

(** An entry point called by the caller.  A [nativeInit] that returns
    [true] has started a thread. *)
Definition call (o : op) (c : sys) : outcome (event * sys) :=
  match o with
  | OpGet | OpPut _ => Blocked
  | _ =>
      '(e, s') <~ exec o (bridge c) ;;
      Ready (e, mkSys s' (threads c ++ (if starts e then [thread_body] else [])))
  end.

(** One action of the [i]-th engine thread.  A thread that has returned
    makes no move, and neither does one whose read must wait. *)
Definition act (i : nat) (c : sys) : outcome (event * sys) :=
  e <~ match threads c !! i with Some e => Ready e | None => Blocked end ;;
  match next e with
  | Get =>
      '(r, s') <~ cin_sbumpc (bridge c) ;;
      Ready (EvGet (to_char r), mkSys s' (<[i := got (to_char r) e]> (threads c)))
  | Put ch =>
      '(_, s') <~ cout_sputc ch (bridge c) ;;
      Ready (EvPut ch, mkSys s' (<[i := wrote e]> (threads c)))
  | Exit => Blocked
  end.

Definition move_exec (m : move) (c : sys) : outcome (event * sys) :=
  match m with
  | Call o => call o c
  | Run i => act i c
  end.

(** A schedule, move by move, with its trace. *)
Fixpoint moves (ms : list move) (c : sys) : outcome (list event * sys) :=
  match ms with
  | [] => Ready ([], c)
  | m :: ms' =>
      '(e, c') <~ move_exec m c ;;
      '(tr, c'') <~ moves ms' c' ;;
      Ready (e :: tr, c'')
  end.

(** The [i]-th thread runs until it must wait or has returned, for at
    most [fuel] actions. *)
Fixpoint drive (fuel : nat) (i : nat) (c : sys) : list event * sys :=
  match fuel with
  | 0 => ([], c)
  | S fuel' =>
      match act i c with
      | Ready (e, c') => let '(tr, c'') := drive fuel' i c' in (e :: tr, c'')
      | _ => ([], c)
      end
  end.

(** As many threads as launches. *)
Definition sys_wf (c : sys) : Prop :=
  inv (bridge c) /\ length (threads c) = engines (bridge c).

End System.

#[global] Arguments sys E : clear implicits.
#[global] Arguments act : simpl never.
#[global] Arguments call : simpl never.

(** The [i]-th thread, [n] actions in a row. *)
Definition steps `{Engine E} (n : nat) (i : nat) (c : sys E) : outcome (list event * sys E) :=
  moves (replicate n (Run i)) c.

(** The caller's operations: the four entry points. *)
Definition is_call (o : op) : bool :=
  match o with
  | OpGet | OpPut _ => false
  | _ => true
  end.

(** The [i]-th engine thread has read all there is and waits for a
    command, and no line is begun in the output buffer. *)
Definition idle (i : nat) (c : sys LineEngine.t) : Prop :=
  threads c !! i = Some (LineEngine.Reading []) /\
  pending_in (bridge c) = [] /\ cout_line (bridge c) = [].

(** The actions the [i]-th thread needs for the command [l]: its
    characters and the newline read, its answer written. *)
Definition cost `{Responder} (l : line) : nat :=
  S (length l) + length (unlines (respond l)).

(** A command the engine answers: one line, not "quit", answered by
    lines. *)
Definition answerable `{Responder} (l : line) : Prop :=
  nl_free l /\ l <> str "quit" /\ Forall nl_free (respond l).

#[export] Instance answerable_dec `{Responder} l : Decision (answerable l).
Proof. unfold answerable. apply _. Defined.

(** The caller sends a command and the [i]-th engine thread runs until
    it waits again. *)
Definition serve `{Responder} (fuel : nat) (i : nat) (p : list char) (c : sys LineEngine.t) :
  outcome (sys LineEngine.t) :=
  '(_, c1) <~ call (OpSend p) c ;; Ready ((drive fuel i c1).2).

(** One command after the other. *)
Fixpoint serve_all `{Responder} (fuel : nat) (i : nat) (ps : list (list char))
  (c : sys LineEngine.t) : outcome (sys LineEngine.t) :=
  match ps with
  | [] => Ready c
  | p :: ps' => c1 <~ serve fuel i p c ;; serve_all fuel i ps' c1
  end.

(** The caller asks the engine to stop and the [i]-th engine thread runs
    until it moves no more. *)
Definition stop `{Responder} (fuel : nat) (i : nat) (c : sys LineEngine.t) :
  outcome (sys LineEngine.t) :=
  '(_, c1) <~ call OpDestroy c ;; Ready ((drive fuel i c1).2).

(** The answers to a sequence of commands, in order. *)
Definition replies `{Responder} (ls : list line) : list line := concat (respond <$> ls).

(** What an engine that answers lines has done when it has read the
    characters [g] and written the characters [p]: while it reads, [g]
    is complete commands, none of them "quit", and the beginning of the
    next, and [p] is the answers to those commands; while it writes, the
    rest of the last answer is still to come; once it has returned, the
    last command was "quit". *)
Definition engine_inv `{Responder} (e : LineEngine.t) (g p : list char) : Prop :=
  match e with
  | LineEngine.Reading acc =>
      exists ls, split_lines g = (ls, acc) /\ (str "quit" ∉ ls) /\ p = unlines (replies ls)
  | LineEngine.Writing out =>
      exists ls, split_lines g = (ls, []) /\ (str "quit" ∉ ls) /\
        p ++ out = unlines (replies ls) /\ out <> []
  | LineEngine.Done =>
      exists ls, split_lines g = (ls ++ [str "quit"], []) /\ (str "quit" ∉ ls) /\
        p = unlines (replies ls)
  end.

(** The same of the system: no engine has read or written nothing; one
    engine satisfies [engine_inv]. *)
Definition protocol_inv `{Responder} (c : sys LineEngine.t) (g p : list char) : Prop :=
  match threads c with
  | [] => g = [] /\ p = []
  | e :: _ => engine_inv e g p
  end.

(** Schedules used to exercise the theorems below: a command answered
    and received, and calls with no engine to answer. *)
Definition demo_ping : list move :=
  [Call (OpInit NoFault); Call (OpSend (str "ping"))] ++ replicate 10 (Run 0) ++
  [Call (OpRecv false)].

Definition demo_calls : list move :=
  [Call (OpInit NoFault); Call (OpSend (str "uci")); Call (OpRecv true); Call OpDestroy].

(** ** The system runs the bridge *)

Section SystemFacts.
Context {E : Type} `{Engine E}.
Implicit Types (c : sys E) (i n : nat) (e : event) (tr : list event).

Lemma call_exec o c e c' :
  call o c = Ready (e, c') -> exec o (bridge c) = Ready (e, bridge c').
Proof.
  unfold call. destruct o; try done;
    (destruct (exec _ (bridge c)) as [[e1 s1]| |]; [|done..]);
    by intros [= <- <-].
Qed.

(** A call changes the threads only by starting one. *)
Lemma call_threads o c e c' :
  call o c = Ready (e, c') ->
  threads c' = threads c ++ (if starts e then [thread_body] else []).
Proof.
  unfold call. destruct o; try done;
    (destruct (exec _ (bridge c)) as [[e1 s1]| |]; [|done..]);
    by intros [= <- <-].
Qed.

Lemma act_inv i c e c' :
  act i c = Ready (e, c') ->
  exists th, threads c !! i = Some th /\
    ((exists r s', next th = Get /\ cin_sbumpc (bridge c) = Ready (r, s') /\
        e = EvGet (to_char r) /\ c' = mkSys s' (<[i := got (to_char r) th]> (threads c))) \/
     (exists ch r s', next th = Put ch /\ cout_sputc ch (bridge c) = Ready (r, s') /\
        e = EvPut ch /\ c' = mkSys s' (<[i := wrote th]> (threads c)))).
Proof.
  unfold act. destruct (threads c !! i) as [th|]; [|done]. simpl.
  intros Ha. exists th. split; [done|]. destruct (next th) as [|ch|] eqn:En; [| |done].
  - destruct (cin_sbumpc (bridge c)) as [[r s1]| |] eqn:Er; [|done..].
    simpl in Ha. injection Ha as <- <-. left. by exists r, s1.
  - destruct (cout_sputc ch (bridge c)) as [[r s1]| |] eqn:Er; [|done..].
    simpl in Ha. injection Ha as <- <-. right. by exists ch, r, s1.
Qed.

Lemma act_threads i c e c' :
  act i c = Ready (e, c') -> length (threads c') = length (threads c).
Proof.
  intros (th & _ & [(r & s' & _ & _ & _ & ->)|(ch & r & s' & _ & _ & _ & ->)])%act_inv;
    simpl; by rewrite length_insert.
Qed.

Lemma act_exec i c e c' :
  sys_wf c -> act i c = Ready (e, c') ->
  exists o, exec o (bridge c) = Ready (e, bridge c').
Proof.
  intros [_ Hn] Ha. destruct (act_inv _ _ _ _ Ha) as (th & Hth & Hcase).
  assert (0 < engines (bridge c)) as He.
  { rewrite <- Hn. apply lookup_lt_Some in Hth. lia. }
  destruct Hcase as [(r & s' & _ & Hr & -> & ->)|(ch & r & s' & _ & Hr & -> & ->)].
  - exists OpGet. unfold exec. rewrite decide_True by done. by rewrite Hr.
  - exists (OpPut ch). unfold exec. rewrite decide_True by done. by rewrite Hr.
Qed.

(** Every move of the system is a step of the bridge. *)
Lemma move_step m c e c' :
  sys_wf c -> move_exec m c = Ready (e, c') -> step (bridge c) e (bridge c').
Proof.
  intros Hc. destruct m as [o|i]; simpl.
  - intros Ho%call_exec. by eapply exec_step.
  - intros (o & Ho)%act_exec; [|done]. by eapply exec_step.
Qed.

(** The counter of the threads launched grows with the events that
    start one. *)
Lemma engines_step s e s' :
  inv s -> step s e s' ->
  engines s' = engines s + (if starts e then 1 else 0).
Proof.
  intros Hs Hstep.
  destruct Hstep as [f ok s s' Hx|p s s' Hx|el r s s' Hx|s|ch s s' He Hx|ch r s s' He Hx]; simpl.
  - apply nativeInit_cases in Hx; [|apply Hs].
    destruct f; destruct Hx as [-> ->]; simpl; lia.
  - rewrite nativeSendCommand_push in Hx. injection Hx as <-. simpl. lia.
  - rewrite nativeReadLine_cases in Hx.
    destruct (outputQueue s), el; try done; injection Hx as _ <-; simpl; lia.
  - lia.
  - rewrite cin_sbumpc_spec in Hx. destruct (cin_rdbuf s); [|done]. simpl in Hx.
    destruct (in_heap s !! _); [|done]. simpl in Hx.
    destruct (InputBuffer.pending _ _); [done|]. injection Hx as _ <-. simpl. lia.
  - rewrite cout_sputc_spec in Hx. destruct (cout_rdbuf s); [|done]. simpl in Hx.
    destruct (out_heap s !! _); [|done]. injection Hx as _ <-. simpl. lia.
Qed.

(** Every move keeps the system well formed. *)
Lemma sys_wf_move m c e c' :
  sys_wf c -> move_exec m c = Ready (e, c') -> sys_wf c'.
Proof.
  intros Hc Hm. pose proof (move_step _ _ _ _ Hc Hm) as Hstep.
  destruct Hc as [Hs Hn]. split; [by eapply inv_step|].
  rewrite (engines_step _ _ _ Hs Hstep), <- Hn. destruct m as [o|i]; simpl in Hm.
  - rewrite (call_threads _ _ _ _ Hm), length_app. by destruct (starts e).
  - rewrite (act_threads _ _ _ _ Hm).
    destruct (act_inv _ _ _ _ Hm) as (_ & _ & [(? & ? & _ & _ & -> & _)|(? & ? & ? & _ & _ & -> & _)]);
      simpl; lia.
Qed.

Lemma sys_wf_boot : sys_wf (boot (E := E)).
Proof. split; [apply inv_initial|done]. Qed.

(** A schedule of the system is a run of the bridge. *)
Lemma moves_run ms c tr c' :
  sys_wf c -> moves ms c = Ready (tr, c') -> run (bridge c) tr (bridge c') /\ sys_wf c'.
Proof.
  revert c tr. induction ms as [|m ms IH]; intros c tr Hc; simpl.
  - intros [= <- <-]. split; [constructor|done].
  - destruct (move_exec m c) as [[e c1]| |] eqn:Em; [|done..]. simpl.
    destruct (moves ms c1) as [[tr1 c2]| |] eqn:E1; [|done..].
    intros [= <- <-].
    destruct (IH c1 tr1 (sys_wf_move _ _ _ _ Hc Em) E1) as [Hrun Hc2].
    split; [|done]. econstructor; [by eapply move_step|done].
Qed.

End SystemFacts.

(** ** What an engine finds when it reads and writes *)

Section EngineAccess.
Implicit Types (s : state) (ch : char).

(** With a character ahead, the read returns it. *)
Lemma cin_sbumpc_Ready s ch rest :
  inv s -> 0 < engines s -> pending_in s = ch :: rest ->
  exists s', cin_sbumpc s = Ready (to_int_type ch, s') /\ pending_in s' = rest /\
    written_out s' = written_out s.
Proof.
  intros Hs He Hp.
  destruct (cin_sbumpc s) as [[r s']| |] eqn:Er.
  - destruct (pending_in_cin_sbumpc _ _ _ Er) as (ch' & -> & Hp').
    rewrite Hp in Hp'. injection Hp' as -> ->. exists s'.
    split; [done|]. split; [done|]. by eapply written_out_cin_sbumpc.
  - apply cin_sbumpc_Blocked in Er; [congruence|done..].
  - exfalso. rewrite cin_sbumpc_spec in Er.
    destruct (inv_engines s Hs He) as [[a Ea] _]. rewrite Ea in Er. simpl in Er.
    destruct (lookup_lt_is_Some_2 (in_heap s) a) as [b Eb]; [by apply Hs|].
    rewrite Eb in Er. simpl in Er. by destruct (InputBuffer.pending b (inputQueue s)).
Qed.

(** A write always returns. *)
Lemma cout_sputc_Ready s ch :
  inv s -> 0 < engines s ->
  exists s', cout_sputc ch s = Ready (to_int_type ch, s') /\
    written_out s' = written_out s ++ [ch] /\ pending_in s' = pending_in s.
Proof.
  intros Hs He.
  destruct (cout_sputc ch s) as [[r s']| |] eqn:Er.
  - exists s'. pose proof Er as Er'. rewrite cout_sputc_spec in Er'.
    destruct (cout_rdbuf s); [|done]. simpl in Er'.
    destruct (out_heap s !! _); [|done]. injection Er' as <- _.
    split; [done|]. split; [by eapply written_out_cout_sputc|by eapply pending_in_cout_sputc].
  - rewrite cout_sputc_spec in Er. destruct (cout_rdbuf s); [|done]. simpl in Er.
    by destruct (out_heap s !! _).
  - exfalso. rewrite cout_sputc_spec in Er.
    destruct (inv_engines s Hs He) as [_ [a Ea]]. rewrite Ea in Er. simpl in Er.
    destruct (lookup_lt_is_Some_2 (out_heap s) a) as [b Eb]; [by apply Hs|].
    by rewrite Eb in Er.
Qed.

End EngineAccess.

(** ** One action, and several *)

Section Actions.
Context {E : Type} `{Engine E}.
Implicit Types (c : sys E) (i n : nat) (e : event) (tr : list event) (th : E).

Lemma sys_wf_engines c i th :
  sys_wf c -> threads c !! i = Some th -> 0 < engines (bridge c).
Proof. intros [_ <-] Hth%lookup_lt_Some. lia. Qed.

(** A thread that reads, with a character ahead. *)
Lemma act_Get i c th ch rest :
  sys_wf c -> threads c !! i = Some th -> next th = Get ->
  pending_in (bridge c) = ch :: rest ->
  exists s', act i c = Ready (EvGet ch, mkSys s' (<[i := got ch th]> (threads c))) /\
    pending_in s' = rest /\ written_out s' = written_out (bridge c).
Proof.
  intros Hc Hth Hn Hp.
  destruct (cin_sbumpc_Ready (bridge c) ch rest) as (s' & Er & Hp' & Hw);
    [apply Hc|by eapply sys_wf_engines|done|].
  exists s'. unfold act. rewrite Hth. simpl. rewrite Hn, Er. simpl.
  by bridge_simpl.
Qed.

(** A thread that reads, with nothing ahead, waits. *)
Lemma act_Get_Blocked i c th :
  sys_wf c -> threads c !! i = Some th -> next th = Get ->
  pending_in (bridge c) = [] -> act i c = Blocked.
Proof.
  intros Hc Hth Hn Hp. unfold act. rewrite Hth. simpl. rewrite Hn.
  apply cin_sbumpc_Blocked in Hp as ->; [done|apply Hc|by eapply sys_wf_engines].
Qed.

(** A thread that writes. *)
Lemma act_Put i c th ch :
  sys_wf c -> threads c !! i = Some th -> next th = Put ch ->
  exists s', act i c = Ready (EvPut ch, mkSys s' (<[i := wrote th]> (threads c))) /\
    written_out s' = written_out (bridge c) ++ [ch] /\
    pending_in s' = pending_in (bridge c).
Proof.
  intros Hc Hth Hn.
  destruct (cout_sputc_Ready (bridge c) ch) as (s' & Er & Hw & Hp);
    [apply Hc|by eapply sys_wf_engines|].
  exists s'. unfold act. rewrite Hth. simpl. by rewrite Hn, Er.
Qed.

(** A thread that has returned moves no more. *)
Lemma act_Exit i c th :
  threads c !! i = Some th -> next th = Exit -> act i c = Blocked.
Proof. intros Hth Hn. unfold act. rewrite Hth. simpl. by rewrite Hn. Qed.

Lemma moves_app ms1 ms2 c :
  moves (ms1 ++ ms2) c =
  '(tr1, c1) <~ moves ms1 c ;; '(tr2, c2) <~ moves ms2 c1 ;; Ready (tr1 ++ tr2, c2).
Proof.
  revert c. induction ms1 as [|m ms1 IH]; intros c; simpl.
  - by destruct (moves ms2 c) as [[tr2 c2]| |].
  - destruct (move_exec m c) as [[e c1]| |]; [|done..]. simpl. rewrite IH.
    destruct (moves ms1 c1) as [[tr1 c2]| |]; [|done..]. simpl.
    by destruct (moves ms2 c2) as [[tr2 c3]| |].
Qed.

Lemma steps_S n i c :
  steps (S n) i c =
  '(e, c1) <~ act i c ;; '(tr, c2) <~ steps n i c1 ;; Ready (e :: tr, c2).
Proof. done. Qed.

Lemma steps_add n m i c :
  steps (n + m) i c =
  '(tr1, c1) <~ steps n i c ;; '(tr2, c2) <~ steps m i c1 ;; Ready (tr1 ++ tr2, c2).
Proof. unfold steps. by rewrite replicate_add, moves_app. Qed.

(** With fuel for them, [drive] makes the actions that can be made and
    stops where the thread waits or has returned. *)
Lemma drive_steps n i c tr c' fuel :
  steps n i c = Ready (tr, c') -> act i c' = Blocked -> n <= fuel ->
  drive fuel i c = (tr, c').
Proof.
  revert c tr fuel. induction n as [|n IH]; intros c tr fuel.
  - intros [= <- <-] Hb _. destruct fuel; simpl; [done|]. by rewrite Hb.
  - rewrite steps_S. destruct (act i c) as [[e c1]| |] eqn:Ea; [|done..]. simpl.
    destruct (steps n i c1) as [[tr1 c2]| |] eqn:Es; [|done..].
    intros [= <- <-] Hb Hf. destruct fuel as [|fuel]; [lia|]. simpl.
    rewrite Ea. by rewrite (IH c1 tr1 fuel Es Hb) by lia.
Qed.

End Actions.

(** ** The stub *)

Section StubFacts.
Implicit Types (c : sys Stub.t) (e : event) (tr : list event).

(** An engine thread of the stub has returned. *)
Lemma stub_act i c : act i c = Blocked.
Proof. unfold act. by destruct (threads c !! i). Qed.

(** With nothing written, a call leaves the output queue empty and
    receives nothing. *)
Lemma quiet_exec o s e s' :
  inv s -> is_call o = true -> outputQueue s = [] -> exec o s = Ready (e, s') ->
  outputQueue s' = [] /\ gets [e] = [] /\ puts [e] = [] /\ received [e] = [].
Proof.
  intros Hs Ho Hq. destruct o as [f|p|el| | |ch]; try done; unfold exec.
  - destruct (nativeInit f s) as [[ok s1]| |] eqn:Ei; [|done..]. intros [= <- <-].
    apply nativeInit_cases in Ei; [|apply Hs]. by destruct f, Ei as [-> ->].
  - rewrite nativeSendCommand_push. by intros [= <- <-].
  - rewrite nativeReadLine_cases, Hq. destruct el; [|done]. by intros [= <- <-].
  - by intros [= <- <-].
Qed.

Lemma stub_moves ms c tr c' :
  sys_wf c -> outputQueue (bridge c) = [] -> moves ms c = Ready (tr, c') ->
  outputQueue (bridge c') = [] /\ gets tr = [] /\ puts tr = [] /\ received tr = [].
Proof.
  revert c tr. induction ms as [|m ms IH]; intros c tr Hc Hq; simpl.
  - by intros [= <- <-].
  - destruct (move_exec m c) as [[e c1]| |] eqn:Em; [|done..]. simpl.
    destruct (moves ms c1) as [[tr1 c2]| |] eqn:E1; [|done..]. intros [= <- <-].
    pose proof (sys_wf_move _ _ _ _ Hc Em) as Hc1.
    destruct m as [o|i]; simpl in Em; [|by rewrite stub_act in Em].
    pose proof (call_exec _ _ _ _ Em) as Ho.
    destruct (quiet_exec o (bridge c) e (bridge c1)) as (Hq1 & Hg & Hp & Hr);
      [apply Hc|by destruct o|done..|].
    destruct (IH c1 tr1 Hc1 Hq1 E1) as (Hq2 & Hg2 & Hp2 & Hr2).
    change (e :: tr1) with ([e] ++ tr1).
    by rewrite gets_app, puts_app, received_app, Hg, Hp, Hr, Hg2, Hp2, Hr2.
Qed.

End StubFacts.

(** ** The engine that answers lines *)

Section LineEngineFacts.
Context `{Responder}.
Implicit Types (c : sys LineEngine.t) (i n : nat) (l acc cs : list char).

Lemma sys_wf_act i c e c' : sys_wf c -> act i c = Ready (e, c') -> sys_wf c'.
Proof. intros Hc Ha. by apply (sys_wf_move (Run i) c e c'). Qed.

(** LineEngine.Reading: the characters of a line and its newline are read one by
    one, and the line is dispatched. *)
Lemma reads_line i c acc cs rest :
  sys_wf c -> threads c !! i = Some (LineEngine.Reading acc) -> nl_free cs ->
  pending_in (bridge c) = cs ++ NL :: rest ->
  exists c', steps (S (length cs)) i c = Ready (EvGet <$> cs ++ [NL], c') /\
    threads c' = <[i := LineEngine.dispatch (acc ++ cs)]> (threads c) /\
    pending_in (bridge c') = rest /\
    written_out (bridge c') = written_out (bridge c) /\ sys_wf c'.
Proof.
  revert c acc. induction cs as [|ch cs IH]; intros c acc Hc Hth Hnl Hp.
  - destruct (act_Get i c _ NL rest Hc Hth) as (s' & Ha & Hp' & Hw); [done..|].
    eexists. rewrite steps_S, Ha. simpl. rewrite app_nil_r.
    split_and!; try done. by apply (sys_wf_act _ _ _ _ Hc Ha).
  - apply not_elem_of_cons in Hnl as [Hch Hnl].
    destruct (act_Get i c _ ch (cs ++ NL :: rest) Hc Hth) as (s' & Ha & Hp' & Hw); [done..|].
    assert (got ch (LineEngine.Reading acc) = LineEngine.Reading (acc ++ [ch])) as Hg.
    { simpl. by rewrite decide_False by congruence. }
    rewrite Hg in Ha. pose proof (sys_wf_act _ _ _ _ Hc Ha) as Hc1.
    destruct (IH (mkSys s' (<[i := LineEngine.Reading (acc ++ [ch])]> (threads c))) (acc ++ [ch]))
      as (c' & Hs & Hth' & Hp'' & Hw' & Hc'); [done| |done|done|].
    { simpl. by rewrite list_lookup_insert_eq by by eapply lookup_lt_Some. }
    exists c'. rewrite steps_S, Ha. cbn [outcome_bind length]. rewrite Hs.
    cbn [bridge threads] in *.
    rewrite list_insert_insert_eq, <- app_assoc in Hth'.
    split_and!; try done. congruence.
Qed.

(** Writing: the characters asked for are written one by one, and the
    engine reads again. *)
Lemma writes_out i c out :
  sys_wf c -> threads c !! i = Some (LineEngine.resume out) ->
  exists c', steps (length out) i c = Ready (EvPut <$> out, c') /\
    threads c' = <[i := LineEngine.Reading []]> (threads c) /\
    pending_in (bridge c') = pending_in (bridge c) /\
    written_out (bridge c') = written_out (bridge c) ++ out /\ sys_wf c'.
Proof.
  revert c. induction out as [|ch out IH]; intros c Hc Hth.
  - exists c. rewrite list_insert_id, app_nil_r by done. by split_and!.
  - destruct (act_Put i c _ ch Hc Hth) as (s' & Ha & Hw & Hp); [done|].
    change (wrote (LineEngine.resume (ch :: out))) with (LineEngine.resume out) in Ha.
    pose proof (sys_wf_act _ _ _ _ Hc Ha) as Hc1.
    destruct (IH (mkSys s' (<[i := LineEngine.resume out]> (threads c))))
      as (c' & Hs & Hth' & Hp' & Hw' & Hc'); [done| |].
    { simpl. by rewrite list_lookup_insert_eq by by eapply lookup_lt_Some. }
    exists c'. cbn [length]. rewrite steps_S, Ha. cbn [outcome_bind]. rewrite Hs.
    cbn [bridge threads] in *.
    rewrite list_insert_insert_eq in Hth'. rewrite Hw', Hw, <- app_assoc.
    split_and!; try done. congruence.
Qed.

(** One command: read, dispatched and answered. *)
Lemma answers i c l rest :
  sys_wf c -> threads c !! i = Some (LineEngine.Reading []) -> nl_free l -> l <> str "quit" ->
  pending_in (bridge c) = l ++ NL :: rest ->
  exists c',
    steps (S (length l) + length (unlines (respond l))) i c =
      Ready ((EvGet <$> l ++ [NL]) ++ (EvPut <$> unlines (respond l)), c') /\
    threads c' = threads c /\ pending_in (bridge c') = rest /\
    written_out (bridge c') = written_out (bridge c) ++ unlines (respond l) /\
    sys_wf c'.
Proof.
  intros Hc Hth Hnl Hq Hp.
  destruct (reads_line i c [] l rest Hc Hth Hnl Hp) as (c1 & Hs1 & Hth1 & Hp1 & Hw1 & Hc1).
  destruct (writes_out i c1 (unlines (respond l)) Hc1) as (c2 & Hs2 & Hth2 & Hp2 & Hw2 & Hc2).
  { rewrite Hth1, list_lookup_insert_eq by by eapply lookup_lt_Some.
    unfold LineEngine.dispatch. by rewrite decide_False. }
  exists c2. rewrite steps_add, Hs1. simpl. rewrite Hs2. simpl.
  rewrite Hth2, Hth1, list_insert_insert_eq, list_insert_id by done.
  split_and!; try done; congruence.
Qed.

(** The command "quit": read, and the engine returns. *)
Lemma quits i c rest :
  sys_wf c -> threads c !! i = Some (LineEngine.Reading []) ->
  pending_in (bridge c) = str "quit" ++ NL :: rest ->
  exists c', steps 5 i c = Ready (EvGet <$> str "quit" ++ [NL], c') /\
    threads c' = <[i := LineEngine.Done]> (threads c) /\ pending_in (bridge c') = rest /\
    written_out (bridge c') = written_out (bridge c) /\ sys_wf c'.
Proof.
  intros Hc Hth Hp.
  destruct (reads_line i c [] (str "quit") rest Hc Hth) as (c1 & Hs1 & Hth1 & Hp1 & Hw1 & Hc1);
    [by apply (bool_decide_unpack _); vm_compute|done|].
  exists c1. by split_and!.
Qed.

(** The lines written since a moment at which no line was begun are in
    the output queue. *)
Lemma written_out_lines s s' ls :
  inv s -> inv s' -> Forall nl_free ls -> cout_line s = [] ->
  written_out s' = written_out s ++ unlines ls ->
  outputQueue s' = outputQueue s ++ ls /\ cout_line s' = [].
Proof.
  intros Hs Hs' Hls Hl. rewrite !written_out_eq, Hl, app_nil_r, <- unlines_app.
  intros Hw. apply (f_equal split_lines) in Hw.
  rewrite split_unlines in Hw; [|apply Hs'|by apply cout_line_nl_free].
  rewrite <- (app_nil_r (unlines (_ ++ _))), split_unlines in Hw.
  - by injection Hw as -> ->.
  - apply Forall_app. split; [apply Hs|done].
  - apply not_elem_of_nil.
Qed.

Lemma call_send p c :
  call (OpSend p) c =
  Ready (EvSend (string_of_c p),
         mkSys (set_inputQueue (inputQueue (bridge c) ++ [string_of_c p]) (bridge c)) (threads c)).
Proof. unfold call, exec. rewrite nativeSendCommand_push. simpl. by rewrite app_nil_r. Qed.

Lemma call_destroy c :
  call OpDestroy c = Ready (EvDestroy, mkSys (nativeDestroy (bridge c)) (threads c)).
Proof. unfold call, exec. simpl. by rewrite app_nil_r. Qed.

(** An idle engine that is sent an answerable command answers it and
    is idle again. *)
Lemma serve_answers fuel i p c :
  sys_wf c -> idle i c -> answerable (string_of_c p) -> cost (string_of_c p) <= fuel ->
  exists c', serve fuel i p c = Ready c' /\ sys_wf c' /\ idle i c' /\
    outputQueue (bridge c') = outputQueue (bridge c) ++ respond (string_of_c p).
Proof.
  intros Hc (Hth & Hp & Hl) (Hnl & Hq & Hr) Hf. unfold serve.
  pose proof (call_send p c) as Hcall. rewrite Hcall. cbn [outcome_bind].
  pose proof (sys_wf_move (Call (OpSend p)) _ _ _ Hc Hcall) as Hc1.
  destruct (answers i _ (string_of_c p) [] Hc1 Hth Hnl Hq) as (c2 & Hs & Hth2 & Hp2 & Hw2 & Hc2).
  { cbn [bridge]. by rewrite pending_in_push, Hp. }
  assert (act i c2 = Blocked) as Hb.
  { apply (act_Get_Blocked i c2 (LineEngine.Reading [])); [done|by rewrite Hth2|done..]. }
  rewrite (drive_steps _ _ _ _ _ fuel Hs Hb Hf). exists c2.
  destruct (written_out_lines (bridge c) (bridge c2) (respond (string_of_c p)))
    as [Hq2 Hl2]; [apply Hc|apply Hc2|done..|].
  split_and!; [done..| |done]. split_and!; [by rewrite Hth2|done..].
Qed.

End LineEngineFacts.

(** ** The protocol of an engine that answers lines, in every schedule *)

Section Protocol.
Context `{Responder}.
Implicit Types (c : sys LineEngine.t) (e : LineEngine.t) (g p : list char).

Lemma replies_snoc ls l : replies (ls ++ [l]) = replies ls ++ respond l.
Proof. unfold replies. rewrite fmap_app, concat_app. simpl. by rewrite app_nil_r. Qed.

Lemma replies_nl_free ls :
  (forall l, Forall nl_free (respond l)) -> Forall nl_free (replies ls).
Proof.
  intros Hnl. unfold replies. induction ls as [|l ls IH]; simpl; [done|].
  apply Forall_app. by split.
Qed.

Lemma engine_inv_resume ls g p out :
  split_lines g = (ls, []) -> (str "quit" ∉ ls) -> p ++ out = unlines (replies ls) ->
  engine_inv (LineEngine.resume out) g p.
Proof.
  intros Hg Hq Hp. destruct out as [|ch out]; simpl.
  - exists ls. by rewrite app_nil_r in Hp.
  - by exists ls.
Qed.

(** A character read. *)
Lemma engine_inv_got e g p ch :
  engine_inv e g p -> next e = Get -> engine_inv (got ch e) (g ++ [ch]) p.
Proof.
  destruct e as [acc|[|c0 out]|]; simpl; try done.
  - intros (ls & Hg & Hq & Hp) _. apply (split_lines_snoc _ ch) in Hg.
    case_decide as Hch; [|by exists ls].
    unfold LineEngine.dispatch. case_decide as Hacc.
    + exists ls. by subst acc.
    + apply (engine_inv_resume (ls ++ [acc])); [done| |].
      * by intros [?|?%list_elem_of_singleton]%elem_of_app.
      * by rewrite replies_snoc, unlines_app, Hp.
  - by intros (ls & _ & _ & _ & Hne).
Qed.

(** A character written. *)
Lemma engine_inv_wrote e g p ch :
  engine_inv e g p -> next e = Put ch -> engine_inv (wrote e) g (p ++ [ch]).
Proof.
  destruct e as [acc|[|c0 out]|]; simpl; try done.
  intros (ls & Hg & Hq & Hp & _) [= ->].
  apply (engine_inv_resume ls); [done..|]. by rewrite <- app_assoc.
Qed.

(** A call is no read and no write of the engine. *)
Lemma call_event o c ev c' :
  call o c = Ready (ev, c') -> gets [ev] = [] /\ puts [ev] = [].
Proof.
  unfold call. destruct o as [f|cmd|el| | |ch]; try done; unfold exec.
  - destruct (nativeInit f (bridge c)) as [[ok s1]| |]; [|done..]. by intros [= <- _].
  - rewrite nativeSendCommand_push. by intros [= <- _].
  - destruct (nativeReadLine el (bridge c)) as [[r s1]| |]; [|done..]. by intros [= <- _].
  - by intros [= <- _].
Qed.

(** The threads only become more. *)
Lemma move_threads m c ev c' :
  move_exec m c = Ready (ev, c') -> length (threads c) <= length (threads c').
Proof.
  destruct m as [o|i]; simpl.
  - intros ->%call_threads. rewrite length_app. lia.
  - intros ->%act_threads. lia.
Qed.

Lemma moves_threads ms c tr c' :
  moves ms c = Ready (tr, c') -> length (threads c) <= length (threads c').
Proof.
  revert c tr. induction ms as [|m ms IH]; intros c tr; simpl.
  - by intros [= _ <-].
  - destruct (move_exec m c) as [[ev c1]| |] eqn:Em; [|done..]. simpl.
    destruct (moves ms c1) as [[tr1 c2]| |] eqn:E1; [|done..]. intros [= _ <-].
    apply move_threads in Em. apply IH in E1. lia.
Qed.

(** One move of a system with at most one engine. *)
Lemma protocol_inv_move m c ev c' g p :
  protocol_inv c g p -> move_exec m c = Ready (ev, c') -> length (threads c') <= 1 ->
  protocol_inv c' (g ++ gets [ev]) (p ++ puts [ev]).
Proof.
  unfold protocol_inv. intros Hc Hm Hn. destruct m as [o|i]; simpl in Hm.
  - pose proof (call_threads _ _ _ _ Hm) as Hth. rewrite Hth in *.
    destruct (call_event _ _ _ _ Hm) as [-> ->].
    rewrite !app_nil_r. destruct (threads c) as [|e0 ths]; simpl in *.
    + destruct Hc as [-> ->]. destruct (starts ev); [|done].
      exists []. split_and!; [done|apply not_elem_of_nil|done].
    + done.
  - destruct (act_inv _ _ _ _ Hm) as (th & Hth & Hcase).
    apply act_threads in Hm. rewrite Hm in Hn.
    destruct (threads c) as [|e0 [|e1 ths]] eqn:Et; [done| |simpl in Hn; lia].
    destruct i as [|i]; [|done]. injection Hth as ->.
    destruct Hcase as [(r & s' & Hn' & _ & -> & ->)|(ch & r & s' & Hn' & _ & -> & ->)];
      simpl; rewrite ?app_nil_r.
    + by apply engine_inv_got.
    + by apply engine_inv_wrote.
Qed.

Lemma protocol_inv_moves ms c tr c' g p :
  protocol_inv c g p -> moves ms c = Ready (tr, c') -> length (threads c') <= 1 ->
  protocol_inv c' (g ++ gets tr) (p ++ puts tr).
Proof.
  revert c tr g p. induction ms as [|m ms IH]; intros c tr g p Hc; simpl.
  - intros [= <- <-] _. by rewrite !app_nil_r.
  - destruct (move_exec m c) as [[ev c1]| |] eqn:Em; [|done..]. simpl.
    destruct (moves ms c1) as [[tr1 c2]| |] eqn:E1; [|done..]. intros [= <- <-] Hn.
    change (ev :: tr1) with ([ev] ++ tr1). rewrite gets_app, puts_app, !app_assoc.
    apply (IH c1); [|done..]. apply (protocol_inv_move m c); [done..|].
    apply moves_threads in E1. lia.
Qed.

(** What has been written, as lines: those received, those queued, and
    the line begun. *)
Lemma puts_lines tr s :
  run initial tr s -> redirects tr <= 1 ->
  exists raw, received tr = c_view <$> raw /\ Forall nl_free raw /\
    puts tr = unlines (raw ++ outputQueue s) ++ cout_line s.
Proof.
  intros Hrun Hr.
  destruct (written_out_run initial tr s inv_initial Hrun) as (raw & E & Hnl & Hw); [done..|].
  exists raw. split_and!; [done..|]. simpl in Hw.
  by rewrite Hw, written_out_eq, unlines_app, app_assoc.
Qed.

End Protocol.

(** ** Properties of the system *)

Section SystemProperties.
Implicit Types (i n fuel : nat) (tr : list event).

(** C15. Whatever the engine, a schedule of the system is a run of the
    bridge: the entry points and the engine's reads and writes are the
    steps of [Bridge.step], in the order of the schedule, and the
    system has as many engine threads as [nativeInit] has launched.
    What is proved of every run of the bridge holds with any engine in
    it. *)
Theorem system_refines_bridge {E : Type} `{Engine E} ms tr (c : sys E) :
  moves ms boot = Ready (tr, c) ->
  run initial tr (bridge c) /\ length (threads c) = engines (bridge c).
Proof.
  intros Hm. destruct (moves_run ms boot tr c sys_wf_boot Hm) as [Hrun [_ Hn]].
  by split.
Qed.

(** C27. With the stub for an engine nothing ever comes back: in every
    schedule the engine reads nothing and writes nothing, the output
    queue stays empty, so no [nativeReadLine] returns a line; and as
    long as the streams are redirected at most once, every line sent
    stays ahead of an engine that has already returned. *)
Theorem stub_never_answers ms tr (c : sys Stub.t) :
  moves ms boot = Ready (tr, c) ->
  outputQueue (bridge c) = [] /\ gets tr = [] /\ puts tr = [] /\ received tr = [] /\
  (redirects tr <= 1 -> pending_in (bridge c) = unlines (lines_in tr)).
Proof.
  intros Hm.
  destruct (stub_moves ms boot tr c sys_wf_boot eq_refl Hm) as (Hq & Hg & Hp & Hr).
  split_and!; try done. intros Hre.
  destruct (moves_run ms boot tr c sys_wf_boot Hm) as [Hrun _].
  pose proof (pending_in_run _ _ _ inv_initial Hrun eq_refl Hre) as Hin.
  by rewrite Hg in Hin.
Qed.

Context `{Responder}.

(** C11. An idle engine that answers lines serves the commands it is
    sent, one after the other: with fuel for the longest of them, every
    command is read to its newline and answered, the answers are in the
    output queue in the order of the commands, behind what was there,
    and the engine is idle again, nothing ahead of it and no line
    begun. *)
Theorem commands_answered_in_order fuel i ps (c : sys LineEngine.t) :
  sys_wf c -> idle i c ->
  Forall (fun p => answerable (string_of_c p) /\ cost (string_of_c p) <= fuel) ps ->
  exists c', serve_all fuel i ps c = Ready c' /\ sys_wf c' /\ idle i c' /\
    outputQueue (bridge c') =
    outputQueue (bridge c) ++ concat ((fun p => respond (string_of_c p)) <$> ps).
Proof.
  intros Hc Hi Hps. revert c Hc Hi.
  induction Hps as [|p ps [Hp Hf] _ IH]; intros c Hc Hi.
  - exists c. simpl. by rewrite app_nil_r.
  - destruct (serve_answers fuel i p c Hc Hi Hp Hf) as (c1 & Hs & Hc1 & Hi1 & Hq1).
    destruct (IH c1 Hc1 Hi1) as (c2 & Hs2 & Hc2 & Hi2 & Hq2).
    exists c2. cbn [serve_all]. rewrite Hs. cbn [outcome_bind fmap list_fmap concat].
    by rewrite Hq2, Hq1, <- app_assoc.
Qed.

(** C21. [nativeDestroy] stops an idle engine that answers lines: after
    five actions, the four characters of "quit" and the newline read,
    the engine thread has returned and moves no more, with nothing left
    ahead of it and nothing written. *)
Theorem quit_stops_engine fuel i (c : sys LineEngine.t) :
  sys_wf c -> idle i c -> 5 <= fuel ->
  exists c', stop fuel i c = Ready c' /\ sys_wf c' /\
    threads c' !! i = Some LineEngine.Done /\ pending_in (bridge c') = [] /\
    written_out (bridge c') = written_out (bridge c) /\
    forall n, drive n i c' = ([], c').
Proof.
  intros Hc (Hth & Hp & Hl) Hf. unfold stop.
  pose proof (call_destroy c) as Hcall. rewrite Hcall. cbn [outcome_bind].
  pose proof (sys_wf_move (Call OpDestroy) _ _ _ Hc Hcall) as Hc1.
  destruct (quits i _ [] Hc1 Hth) as (c2 & Hs & Hth2 & Hp2 & Hw2 & Hc2).
  { cbn [bridge]. by rewrite pending_in_nativeDestroy, Hp. }
  assert (threads c2 !! i = Some LineEngine.Done) as Hd.
  { rewrite Hth2. apply list_lookup_insert_eq. by eapply lookup_lt_Some. }
  pose proof (act_Exit i c2 _ Hd eq_refl) as Hb.
  rewrite (drive_steps _ _ _ _ _ fuel Hs Hb Hf). exists c2.
  split_and!; try done. intros [|n]; simpl; [done|by rewrite Hb].
Qed.

(** C25. The scenario of the specification: an idle engine is sent a
    command it answers, the output queue being empty; once the engine
    has run, [nativeReadLine] returns the first line of the answer,
    whether or not its time is up, and leaves the rest in the queue. *)
Theorem answer_received fuel i p elapsed r rs (c : sys LineEngine.t) :
  sys_wf c -> idle i c -> outputQueue (bridge c) = [] ->
  answerable (string_of_c p) -> cost (string_of_c p) <= fuel ->
  respond (string_of_c p) = r :: rs ->
  exists c', serve fuel i p c = Ready c' /\
    nativeReadLine elapsed (bridge c') =
    Ready (Some (c_view r), set_outputQueue rs (bridge c')).
Proof.
  intros Hc Hi Hq Hp Hf Hr.
  destruct (serve_answers fuel i p c Hc Hi Hp Hf) as (c1 & Hs & _ & _ & Hq1).
  exists c1. split; [done|]. apply nativeReadLine_line. by rewrite Hq1, Hq, Hr.
Qed.

(** C9. End to end, in every schedule: a system with one engine that
    answers lines, whose answers hold no newline, is run by any schedule
    with at most one redirection of the streams.  Whenever the engine is
    reading, the characters it has read are the lines sent, in order,
    as far as it has got; the complete ones are commands, none of them
    "quit"; and the lines the caller has received, followed by the
    lines in the output queue, are exactly the answers to those
    commands, in order, with no line begun in the buffer. *)
Theorem answers_delivered ms tr (c : sys LineEngine.t) acc :
  (forall l, Forall nl_free (respond l)) ->
  moves ms boot = Ready (tr, c) -> redirects tr <= 1 ->
  threads c = [LineEngine.Reading acc] ->
  exists ls raw, split_lines (gets tr) = (ls, acc) /\ (str "quit" ∉ ls) /\
    received tr = c_view <$> raw /\
    raw ++ outputQueue (bridge c) = replies ls /\ cout_line (bridge c) = [] /\
    unlines (lines_in tr) = gets tr ++ pending_in (bridge c).
Proof.
  intros Hnl Hm Hr Hth.
  destruct (moves_run ms boot tr c sys_wf_boot Hm) as [Hrun [Hs _]].
  pose proof (protocol_inv_moves ms boot tr c [] [] (conj eq_refl eq_refl) Hm) as Hp.
  unfold protocol_inv in Hp. rewrite Hth in Hp.
  destruct Hp as (ls & Hg & Hq & Hp); [simpl; lia|]. simpl in Hg, Hp.
  destruct (puts_lines tr (bridge c) Hrun Hr) as (raw & Hraw & Hrnl & Hw).
  destruct (lines_unique (raw ++ outputQueue (bridge c)) (cout_line (bridge c))
              (replies ls) []) as [E1 E2].
  - apply Forall_app. split; [done|apply Hs].
  - by apply cout_line_nl_free.
  - rewrite app_nil_r. congruence.
  - by apply replies_nl_free.
  - apply not_elem_of_nil.
  - exists ls, raw. split_and!; [done..|].
    by apply (pending_in_run initial tr (bridge c) inv_initial Hrun).
Qed.

End SystemProperties.

(** ** Witnesses *)

#[local] Existing Instance pong.

Lemma system_refines_bridge_witness :
  match moves demo_ping (boot (E := LineEngine.t)) with
  | Ready (tr, c) => run initial tr (bridge c) /\ length (threads c) = engines (bridge c)
  | _ => False
  end.
Proof.
  destruct (moves demo_ping boot) as [[tr c]| |] eqn:Em; [|vm_compute in Em; discriminate..].
  by apply (system_refines_bridge demo_ping).
Defined.

Lemma stub_never_answers_witness :
  match moves demo_calls (boot (E := Stub.t)) with
  | Ready (tr, c) =>
      outputQueue (bridge c) = [] /\ gets tr = [] /\ puts tr = [] /\ received tr = [] /\
      (redirects tr <= 1 -> pending_in (bridge c) = unlines (lines_in tr))
  | _ => False
  end.
Proof.
  destruct (moves demo_calls boot) as [[tr c]| |] eqn:Em; [|vm_compute in Em; discriminate..].
  by apply (stub_never_answers demo_calls).
Defined.

(** The system with an engine that answers "ping", started and idle. *)
Lemma started_idle :
  match moves [Call (OpInit NoFault)] (boot (E := LineEngine.t)) with
  | Ready (_, c) => sys_wf c /\ idle 0 c /\ outputQueue (bridge c) = []
  | _ => False
  end.
Proof.
  destruct (moves _ boot) as [[tr c]| |] eqn:Em; [|vm_compute in Em; discriminate..].
  split; [by apply (moves_run _ _ _ _ sys_wf_boot Em)|].
  vm_compute in Em. injection Em as _ <-. by vm_compute.
Defined.

Lemma commands_answered_in_order_witness :
  match moves [Call (OpInit NoFault)] (boot (E := LineEngine.t)) with
  | Ready (_, c) =>
      exists c', serve_all 10 0 [str "ping"; str "go"; str "ping"] c = Ready c' /\
        sys_wf c' /\ idle 0 c' /\
        outputQueue (bridge c') =
        outputQueue (bridge c) ++
        concat ((fun p => respond (string_of_c p)) <$> [str "ping"; str "go"; str "ping"])
  | _ => False
  end.
Proof.
  pose proof started_idle as Hi.
  destruct (moves _ boot) as [[tr c]| |]; [|done..]. destruct Hi as (Hc & Hi & _).
  apply (commands_answered_in_order 10 0 [str "ping"; str "go"; str "ping"] c Hc Hi).
  apply (bool_decide_unpack _). by vm_compute.
Defined.

Lemma quit_stops_engine_witness :
  match moves [Call (OpInit NoFault)] (boot (E := LineEngine.t)) with
  | Ready (_, c) =>
      exists c', stop 5 0 c = Ready c' /\ sys_wf c' /\
        threads c' !! 0 = Some LineEngine.Done /\ pending_in (bridge c') = [] /\
        written_out (bridge c') = written_out (bridge c) /\
        forall n, drive n 0 c' = ([], c')
  | _ => False
  end.
Proof.
  pose proof started_idle as Hi.
  destruct (moves _ boot) as [[tr c]| |]; [|done..]. destruct Hi as (Hc & Hi & _).
  by apply (quit_stops_engine 5 0 c Hc Hi).
Defined.

Lemma answers_delivered_witness :
  match moves demo_ping (boot (E := LineEngine.t)) with
  | Ready (tr, c) =>
      exists ls raw, split_lines (gets tr) = (ls, []) /\ (str "quit" ∉ ls) /\
        received tr = c_view <$> raw /\
        raw ++ outputQueue (bridge c) = replies ls /\ cout_line (bridge c) = [] /\
        unlines (lines_in tr) = gets tr ++ pending_in (bridge c)
  | _ => False
  end.
Proof.
  destruct (moves demo_ping boot) as [[tr c]| |] eqn:Em; [|vm_compute in Em; discriminate..].
  apply (answers_delivered demo_ping).
  - intros l. unfold respond, pong. case_decide; [|done].
    constructor; [|done]. apply (bool_decide_unpack _). by vm_compute.
  - done.
  - vm_compute in Em. injection Em as <- _. vm_compute. lia.
  - vm_compute in Em. by injection Em as _ <-.
Defined.

Lemma answer_received_witness :
  match moves [Call (OpInit NoFault)] (boot (E := LineEngine.t)) with
  | Ready (_, c) =>
      exists c', serve 10 0 (str "ping") c = Ready c' /\
        nativeReadLine false (bridge c') =
        Ready (Some (c_view (str "pong")), set_outputQueue [] (bridge c'))
  | _ => False
  end.
Proof.
  pose proof started_idle as Hi.
  destruct (moves _ boot) as [[tr c]| |]; [|done..]. destruct Hi as (Hc & Hi & Hq).
  apply (answer_received 10 0 (str "ping") false (str "pong") [] c Hc Hi Hq).
  - apply (bool_decide_unpack _). by vm_compute.
  - by vm_compute.
  - reflexivity.
Defined.
