(* ===== verification/Sync.v ===== *)
(** * Sync: the mutex and the condition variable of one direction

    Each queue of [bridge.cpp] has a mutex and a condition variable
    (lines 28-34).  One side pushes a line and notifies under the lock:
    [nativeSendCommand] (lines 115-117) and [nativeDestroy] (lines
    148-150) on the input side, [OutputBuffer::overflow] (lines 59-62)
    on the output side.  The other side waits under the lock until the
    queue is not empty and takes the front line: [InputBuffer::underflow]
    (lines 43-46) with [wait], [nativeReadLine] (lines 126-138) with
    [wait_for].

    Here every statement of those critical sections is one transition
    of a thread, and the threads interleave freely.  A thread has a
    program counter [pc]; the shared state is the owner of the mutex and
    the queue; the threads blocked in the condition variable are those
    whose counter is [C_sleep].  A statement that touches only the
    buffer object of the thread that executes it has no transition of
    its own: [setg] and the return of lines 47-48 are part of the
    transition that leaves the critical section of [underflow], and
    [lineBuffer.clear()] of line 61 is part of the push of line 60.  The
    theorems are invariants of every interleaving: mutual exclusion, no
    undefined behaviour, the history of the queue, no lost wake-up, and
    progress.  File [Refine] relates these interleavings to the atomic
    steps of file [Bridge]. *)

From Stdlib Require Import List Lia.
From stdpp Require Import base tactics option list strings.
From S2P Require Import Prelude Chars LineQueue.

#[local] Open Scope bridge_scope.

(** ** Threads *)

(** A thread is known by its index. *)
Abbreviation tid := nat.

(** Where a thread is.  A producer is about to lock, to push, to
    notify, to unlock.  A consumer is about to lock, to evaluate the
    predicate of its wait, asleep in the condition variable, woken and
    about to lock again, about to evaluate the predicate a last time
    after its time was up, back from [wait_for] with its result, about
    to call [front], to call [pop], to unlock and return. *)
Inductive pc :=
| Idle
| P_lock (l : line)
| P_push (l : line)
| P_notify
| P_unlock
| C_lock (timed : bool)
| C_check (timed : bool)
| C_sleep (timed : bool)
| C_wake (timed timeout : bool)
| C_recheck
| C_decide (received : bool)
| C_front
| C_pop (l : line)
| C_unlock (r : option line).

#[export] Instance pc_eq_dec : EqDecision pc.
Proof. solve_decision. Defined.

(** The operation a thread starts: the critical section of a producer,
    with the line it pushes, or that of a consumer, with [wait_for]
    ([timed]) or [wait]. *)
Inductive opkind :=
| Produce (l : line)
| Consume (timed : bool).

(** The first statement of an operation. *)
Definition entry (o : opkind) : pc :=
  match o with
  | Produce l => P_lock l
  | Consume timed => C_lock timed
  end.

(** Inside the critical section, the lock held. *)
Definition critical (p : pc) : bool :=
  match p with
  | P_push _ | P_notify | P_unlock
  | C_check _ | C_recheck | C_decide _ | C_front | C_pop _ | C_unlock _ => true
  | _ => false
  end.

(** Blocked in the condition variable. *)
Definition sleeping (p : pc) : bool :=
  match p with
  | C_sleep _ => true
  | _ => false
  end.

(** A consumer on its way to the queue: it will look at the predicate
    again, or has found it true and not yet popped. *)
Definition awake (p : pc) : bool :=
  match p with
  | C_lock _ | C_check _ | C_wake _ _ | C_recheck | C_decide true | C_front | C_pop _ => true
  | _ => false
  end.

(** A producer that has pushed and not yet notified. *)
Definition notifying (p : pc) : bool :=
  match p with
  | P_notify => true
  | _ => false
  end.

(** ** Configurations *)

(** The mutex ([owner]), the queue, the threads, and three histories
    kept for the theorems: the lines pushed, the lines popped, and what
    the consumers have returned, in the order it happened. *)
Record config := mkConfig {
  owner : option tid;
  cq : queue;
  pcs : list pc;
  pushed : list line;
  popped : list line;
  returned : list (tid * option line)
}.

(** [n] threads, none in an operation; mutex free, queue empty. *)
Definition start (n : nat) : config :=
  mkConfig None queue_new (replicate n Idle) [] [] [].

(** Thread [t] moves to [p]. *)
Definition set_pc (t : tid) (p : pc) (c : config) : config :=
  mkConfig (owner c) (cq c) (<[t := p]> (pcs c)) (pushed c) (popped c) (returned c).

(** [std::unique_lock] constructed by [t] on a free mutex. *)
Definition lock (t : tid) (c : config) : config :=
  mkConfig (Some t) (cq c) (pcs c) (pushed c) (popped c) (returned c).

(** The mutex released: the end of the scope of the lock, or the
    release inside [wait]. *)
Definition unlock (c : config) : config :=
  mkConfig None (cq c) (pcs c) (pushed c) (popped c) (returned c).

(** [queue.push(l)], recorded. *)
Definition do_push (l : line) (c : config) : config :=
  mkConfig (owner c) (push l (cq c)) (pcs c) (pushed c ++ [l]) (popped c) (returned c).

(** [queue.pop()] of the line [l] read by [front], recorded. *)
Definition do_pop (l : line) (q' : queue) (c : config) : config :=
  mkConfig (owner c) q' (pcs c) (pushed c) (popped c ++ [l]) (returned c).

(** The consumer [t] returns [r]. *)
Definition do_return (t : tid) (r : option line) (c : config) : config :=
  mkConfig (owner c) (cq c) (pcs c) (pushed c) (popped c) (returned c ++ [(t, r)]).

(** ** Transitions *)

(** What the scheduler picks: a thread starts an operation; a thread
    executes its next statement; a producer's [notify_one] wakes the
    sleeper [w]; a sleeper wakes for no reason; the time of a sleeper
    in [wait_for] is up. *)
Inductive label :=
| Begin (t : tid) (o : opkind)
| Tau (t : tid)
| Notify (t w : tid)
| Spurious (t : tid)
| Timeout (t : tid).

(** A statement on the shared state executed by a thread that does not
    hold the lock is a data race: undefined. *)
Definition owned (t : tid) (c : config) (k : outcome config) : outcome config :=
  if decide (owner c = Some t) then k else Undefined.

(** Locking: possible when the mutex is free. *)
Definition acquire (t : tid) (p : pc) (c : config) : outcome config :=
  match owner c with
  | None => Ready (set_pc t p (lock t c))
  | Some _ => Blocked
  end.

(** The next statement of thread [t]. *)
Definition tau (t : tid) (p : pc) (c : config) : outcome config :=
  match p with
  | Idle | C_sleep _ => Blocked
  | P_lock l => acquire t (P_push l) c
  | P_push l => owned t c (Ready (set_pc t P_notify (do_push l c)))
  | P_notify =>
      owned t c (if decide (count sleeping (pcs c) = 0)
                 then Ready (set_pc t P_unlock c) else Blocked)
  | P_unlock => owned t c (Ready (set_pc t Idle (unlock c)))
  | C_lock timed => acquire t (C_check timed) c
  | C_check timed =>
      owned t c
        (if empty (cq c) then Ready (set_pc t (C_sleep timed) (unlock c))
         else Ready (set_pc t (if timed then C_decide true else C_front) c))
  | C_wake timed timeout => acquire t (if timeout then C_recheck else C_check timed) c
  | C_recheck => owned t c (Ready (set_pc t (C_decide (negb (empty (cq c)))) c))
  | C_decide received =>
      owned t c
        (if negb received || empty (cq c) then Ready (set_pc t (C_unlock None) c)
         else Ready (set_pc t C_front c))
  | C_front => owned t c (l <~ must (front (cq c)) ;; Ready (set_pc t (C_pop l) c))
  | C_pop l =>
      owned t c (q' <~ must (pop (cq c)) ;; Ready (set_pc t (C_unlock (Some l)) (do_pop l q' c)))
  | C_unlock r => owned t c (Ready (set_pc t Idle (do_return t r (unlock c))))
  end.

(** One transition.  [Blocked]: the label cannot fire here. *)
Definition fire (a : label) (c : config) : outcome config :=
  match a with
  | Begin t o =>
      match pcs c !! t with
      | Some Idle => Ready (set_pc t (entry o) c)
      | _ => Blocked
      end
  | Tau t =>
      match pcs c !! t with
      | Some p => tau t p c
      | None => Blocked
      end
  | Notify t w =>
      match pcs c !! t, pcs c !! w with
      | Some P_notify, Some (C_sleep timed) =>
          owned t c (Ready (set_pc t P_unlock (set_pc w (C_wake timed false) c)))
      | _, _ => Blocked
      end
  | Spurious t =>
      match pcs c !! t with
      | Some (C_sleep timed) => Ready (set_pc t (C_wake timed false) c)
      | _ => Blocked
      end
  | Timeout t =>
      match pcs c !! t with
      | Some (C_sleep true) => Ready (set_pc t (C_wake true true) c)
      | _ => Blocked
      end
  end.

(** A schedule, label by label. *)
Fixpoint fires (tr : list label) (c : config) : outcome config :=
  match tr with
  | [] => Ready c
  | a :: tr' => c' <~ fire a c ;; fires tr' c'
  end.

(** The configurations [n] threads can reach. *)
Definition reaches (n : nat) (c : config) : Prop :=
  exists tr, fires tr (start n) = Ready c.

#[global] Arguments tau : simpl never.
#[global] Arguments fire : simpl never.

(** The same transitions as rules: what each needs and what it does. *)
Inductive tstep : config -> label -> config -> Prop :=
| t_begin t o c :
    pcs c !! t = Some Idle ->
    tstep c (Begin t o) (set_pc t (entry o) c)
| t_p_lock t l c :
    pcs c !! t = Some (P_lock l) -> owner c = None ->
    tstep c (Tau t) (set_pc t (P_push l) (lock t c))
| t_p_push t l c :
    pcs c !! t = Some (P_push l) -> owner c = Some t ->
    tstep c (Tau t) (set_pc t P_notify (do_push l c))
| t_p_notify_none t c :
    pcs c !! t = Some P_notify -> owner c = Some t -> count sleeping (pcs c) = 0 ->
    tstep c (Tau t) (set_pc t P_unlock c)
| t_p_notify t w timed c :
    pcs c !! t = Some P_notify -> owner c = Some t -> pcs c !! w = Some (C_sleep timed) ->
    tstep c (Notify t w) (set_pc t P_unlock (set_pc w (C_wake timed false) c))
| t_p_unlock t c :
    pcs c !! t = Some P_unlock -> owner c = Some t ->
    tstep c (Tau t) (set_pc t Idle (unlock c))
| t_c_lock t timed c :
    pcs c !! t = Some (C_lock timed) -> owner c = None ->
    tstep c (Tau t) (set_pc t (C_check timed) (lock t c))
| t_c_sleep t timed c :
    pcs c !! t = Some (C_check timed) -> owner c = Some t -> empty (cq c) = true ->
    tstep c (Tau t) (set_pc t (C_sleep timed) (unlock c))
| t_c_found t timed c :
    pcs c !! t = Some (C_check timed) -> owner c = Some t -> empty (cq c) = false ->
    tstep c (Tau t) (set_pc t (if timed then C_decide true else C_front) c)
| t_spurious t timed c :
    pcs c !! t = Some (C_sleep timed) ->
    tstep c (Spurious t) (set_pc t (C_wake timed false) c)
| t_timeout t c :
    pcs c !! t = Some (C_sleep true) ->
    tstep c (Timeout t) (set_pc t (C_wake true true) c)
| t_c_wake t timed timeout c :
    pcs c !! t = Some (C_wake timed timeout) -> owner c = None ->
    tstep c (Tau t) (set_pc t (if timeout then C_recheck else C_check timed) (lock t c))
| t_c_recheck t c :
    pcs c !! t = Some C_recheck -> owner c = Some t ->
    tstep c (Tau t) (set_pc t (C_decide (negb (empty (cq c)))) c)
| t_c_absent t received c :
    pcs c !! t = Some (C_decide received) -> owner c = Some t ->
    negb received || empty (cq c) = true ->
    tstep c (Tau t) (set_pc t (C_unlock None) c)
| t_c_present t received c :
    pcs c !! t = Some (C_decide received) -> owner c = Some t ->
    negb received || empty (cq c) = false ->
    tstep c (Tau t) (set_pc t C_front c)
| t_c_front t l c :
    pcs c !! t = Some C_front -> owner c = Some t -> front (cq c) = Some l ->
    tstep c (Tau t) (set_pc t (C_pop l) c)
| t_c_pop t l q' c :
    pcs c !! t = Some (C_pop l) -> owner c = Some t -> pop (cq c) = Some q' ->
    tstep c (Tau t) (set_pc t (C_unlock (Some l)) (do_pop l q' c))
| t_c_unlock t r c :
    pcs c !! t = Some (C_unlock r) -> owner c = Some t ->
    tstep c (Tau t) (set_pc t Idle (do_return t r (unlock c))).

(** Runs of the rules. *)
Inductive trun : config -> list label -> config -> Prop :=
| trun_nil c : trun c [] c
| trun_cons c a c1 tr c2 : tstep c a c1 -> trun c1 tr c2 -> trun c (a :: tr) c2.

(** ** Invariant *)

(** What a thread in the critical section knows of the queue. *)
Definition pc_ok (q : queue) (p : pc) : Prop :=
  match p with
  | C_decide received => received = negb (empty q)
  | C_front => empty q = false
  | C_pop l => front q = Some l
  | _ => True
  end.

(** The threads in the critical section are the owner of the mutex. *)
Definition excl (o : option tid) (ps : list pc) : Prop :=
  (forall t, o = Some t -> t < length ps) /\
  (forall t p, ps !! t = Some p -> (critical p = true <-> o = Some t)).

(** Nobody sleeps while lines outnumber the consumers on their way to
    the queue and the producers that have yet to notify. *)
Definition wake_ok (q : queue) (ps : list pc) : Prop :=
  0 < count sleeping ps -> length q <= count awake ps + count notifying ps.

Record minv (c : config) : Prop := {
  minv_excl : excl (owner c) (pcs c);
  minv_own : forall t p, owner c = Some t -> pcs c !! t = Some p -> pc_ok (cq c) p;
  minv_hist : pushed c = popped c ++ cq c;
  minv_wake : wake_ok (cq c) (pcs c)
}.

(** A thread with something to do that needs no line to arrive: not
    idle, and not asleep in [wait]. *)
Definition pending (p : pc) : bool :=
  match p with
  | Idle | C_sleep false => false
  | _ => true
  end.

(** The transitions of the program itself: no new call, no timer, no
    wake-up without a reason. *)
Definition internal (a : label) : bool :=
  match a with
  | Tau _ | Notify _ _ => true
  | _ => false
  end.

(** Thread [t] can start an operation and nothing is in its way: the
    mutex is free and nobody sleeps. *)
Definition quiet (t : tid) (c : config) : Prop :=
  owner c = None /\ pcs c !! t = Some Idle /\ count sleeping (pcs c) = 0.

(** The transitions of an operation of thread [t] that runs from its
    first statement to its last with no other thread moving.  A
    consumer that finds the queue empty sleeps; with [wait_for] its
    time is then up, with [wait] it stays asleep. *)
Definition alone (t : tid) (o : opkind) (c : config) : list label :=
  match o with
  | Produce l => Begin t o :: replicate 4 (Tau t)
  | Consume timed =>
      if empty (cq c) then
        [Begin t o; Tau t; Tau t] ++
        (if timed then Timeout t :: replicate 4 (Tau t) else [])
      else Begin t o :: replicate (if timed then 6 else 5) (Tau t)
  end.

(** What the operation does to the queue when it runs at once: the
    queue it leaves and what it returns, or [Blocked] where it waits. *)
Definition atomic (o : opkind) (q : queue) : outcome (option line * queue) :=
  match o with
  | Produce l => Ready (None, push l q)
  | Consume timed =>
      if empty q then (if timed then Ready (None, q) else Blocked)
      else l <~ must (front q) ;; q' <~ must (pop q) ;; Ready (Some l, q')
  end.

(** What one transition does to the queue: a push by a producer, the
    pop of the line a consumer has read with [front], or nothing, and
    then a consumer that turns to return nothing has seen it empty. *)
Definition effect (c : config) (a : label) (c' : config) : Prop :=
  (exists t l, a = Tau t /\ pcs c !! t = Some (P_push l) /\ cq c' = push l (cq c)) \/
  (exists t l, a = Tau t /\ pcs c !! t = Some (C_pop l) /\
     pcs c' !! t = Some (C_unlock (Some l)) /\ cq c = l :: cq c') \/
  (cq c' = cq c /\
   forall t, pcs c' !! t = Some (C_unlock None) -> pcs c !! t <> Some (C_unlock None) ->
     a = Tau t /\ cq c = []).

(** ** Schedules used to exercise the theorems *)

(** Thread 0 consumes with [wait_for] and sleeps; thread 1 produces
    "go" and wakes it; thread 0 takes the line. *)
Definition demo_handoff : list label :=
  [Begin 0 (Consume true); Tau 0; Tau 0;
   Begin 1 (Produce (str "go")); Tau 1; Tau 1; Notify 1 0; Tau 1;
   Tau 0; Tau 0; Tau 0; Tau 0; Tau 0; Tau 0].

(** Thread 0 consumes with [wait_for] on an empty queue and its time is
    up. *)
Definition demo_timeout : list label :=
  [Begin 0 (Consume true); Tau 0; Tau 0; Timeout 0; Tau 0; Tau 0; Tau 0].

(** Two producers and a consumer with [wait], interleaved. *)
Definition demo_race : list label :=
  [Begin 0 (Produce (str "a")); Begin 1 (Produce (str "b")); Begin 2 (Consume false);
   Tau 1; Tau 1; Tau 1; Tau 1; Tau 2; Tau 2; Tau 2; Tau 2; Tau 2; Tau 0; Tau 0].

(** ** The function and the rules agree *)

Section Rules.
Implicit Types (c : config) (a : label) (t w : tid) (p : pc).

Lemma owned_Ready t c k c' : owned t c k = Ready c' -> owner c = Some t /\ k = Ready c'.
Proof. unfold owned. by case_decide. Qed.

Lemma acquire_Ready t p c c' :
  acquire t p c = Ready c' -> owner c = None /\ c' = set_pc t p (lock t c).
Proof. unfold acquire. destruct (owner c); [done|]. by intros [= <-]. Qed.

Lemma tau_tstep t p c c' :
  pcs c !! t = Some p -> tau t p c = Ready c' -> tstep c (Tau t) c'.
Proof.
  intros Hp. destruct p; unfold tau; try done;
    try (intros [Ho ->]%acquire_Ready; by constructor);
    intros [Ho Hk]%owned_Ready; revert Hk.
  - intros [= <-]. by constructor.
  - case_decide; [|done]. intros [= <-]. by constructor.
  - intros [= <-]. by constructor.
  - destruct (empty (cq c)) eqn:Eq; intros [= <-]; by constructor.
  - intros [= <-]. by constructor.
  - destruct (negb received || empty (cq c)) eqn:Eq; intros [= <-]; by econstructor.
  - destruct (front (cq c)) as [l|] eqn:Ef; [|done]. intros [= <-]. by constructor.
  - destruct (pop (cq c)) as [q'|] eqn:Ef; [|done]. intros [= <-]. by constructor.
  - intros [= <-]. by econstructor.
Qed.

Lemma fire_tstep a c c' : fire a c = Ready c' -> tstep c a c'.
Proof.
  destruct a as [t o|t|t w|t|t]; unfold fire.
  - destruct (pcs c !! t) as [[]|] eqn:Ht; try done. intros [= <-]. by constructor.
  - destruct (pcs c !! t) as [p|] eqn:Ht; [|done]. by apply tau_tstep.
  - destruct (pcs c !! t) as [[]|] eqn:Ht; try done.
    destruct (pcs c !! w) as [[]|] eqn:Hw; try done.
    intros [Ho [= <-]]%owned_Ready. by constructor.
  - destruct (pcs c !! t) as [[]|] eqn:Ht; try done. intros [= <-]. by constructor.
  - destruct (pcs c !! t) as [[| | | | | | |[|]| | | | | |]|] eqn:Ht; try done.
    intros [= <-]. by constructor.
Qed.

Lemma tstep_fire c a c' : tstep c a c' -> fire a c = Ready c'.
Proof.
  destruct 1; unfold fire, tau, owned, acquire;
    repeat match goal with H : _ = _ |- _ => rewrite H end;
    rewrite ?decide_True by done; try done.
Qed.

Lemma fires_trun tr c c' : fires tr c = Ready c' -> trun c tr c'.
Proof.
  revert c. induction tr as [|a tr IH]; intros c; simpl.
  - intros [= <-]. constructor.
  - destruct (fire a c) as [c1| |] eqn:Ea; [|done..]. simpl. intros Hr.
    econstructor; [by apply fire_tstep|by apply IH].
Qed.

Lemma trun_fires c tr c' : trun c tr c' -> fires tr c = Ready c'.
Proof.
  induction 1 as [c|c a c1 tr c2 Hs _ IH]; simpl; [done|].
  by rewrite (tstep_fire _ _ _ Hs).
Qed.

End Rules.

(** ** The parts of the invariant, one update at a time *)

Section InvariantParts.
Implicit Types (o : option tid) (q : queue) (ps : list pc) (t u : tid) (p : pc).

Lemma excl_insert o o' ps t p p' :
  excl o ps -> ps !! t = Some p ->
  (critical p' = true <-> o' = Some t) ->
  (forall u, u <> t -> (o = Some u <-> o' = Some u)) ->
  excl o' (<[t := p']> ps).
Proof.
  intros [Hlen He] Ht Hp' Ho. split.
  - intros u Hu. rewrite length_insert.
    destruct (decide (u = t)) as [->|Hne]; [by eapply lookup_lt_Some|].
    apply Hlen. by apply Ho.
  - intros u pu [(-> & -> & _)|(Hne & Hu)]%list_lookup_insert_Some; [done|].
    rewrite (He u pu Hu). by apply Ho.
Qed.

(** A statement inside the critical section. *)
Lemma excl_inside ps t p p' :
  excl (Some t) ps -> ps !! t = Some p -> critical p' = true ->
  excl (Some t) (<[t := p']> ps).
Proof. intros He Ht Hp'. by apply (excl_insert (Some t) _ _ _ p). Qed.

(** A statement outside the critical section. *)
Lemma excl_outside o ps t p p' :
  excl o ps -> ps !! t = Some p -> critical p = false -> critical p' = false ->
  excl o (<[t := p']> ps).
Proof.
  intros He Ht Hp Hp'. apply (excl_insert o _ _ _ p); [done..| |done].
  rewrite Hp'. rewrite <- (proj2 He t p Ht), Hp. done.
Qed.

(** Locking a free mutex. *)
Lemma excl_acquire ps t p p' :
  excl None ps -> ps !! t = Some p -> critical p' = true ->
  excl (Some t) (<[t := p']> ps).
Proof.
  intros He Ht Hp'. apply (excl_insert None _ _ _ p); [done..|].
  intros u Hu. split; [done|congruence].
Qed.

(** Unlocking. *)
Lemma excl_release ps t p p' :
  excl (Some t) ps -> ps !! t = Some p -> critical p' = false ->
  excl None (<[t := p']> ps).
Proof.
  intros He Ht Hp'. apply (excl_insert (Some t) _ _ _ p); [done| done| |].
  - by rewrite Hp'.
  - intros u Hu. split; [congruence|done].
Qed.

(** Two threads in the critical section are one. *)
Lemma excl_unique o ps t u p p' :
  excl o ps -> ps !! t = Some p -> ps !! u = Some p' ->
  critical p = true -> critical p' = true -> t = u.
Proof.
  intros [_ He] Ht Hu Hp Hp'.
  apply (He t p Ht) in Hp. apply (He u p' Hu) in Hp'. congruence.
Qed.

(** What the owner knows, after thread [t] has moved. *)
Lemma own_insert o q ps t p' o' q' :
  (forall u pu, o = Some u -> ps !! u = Some pu -> pc_ok q pu) ->
  (o' = Some t -> pc_ok q' p') ->
  (forall u, u <> t -> o' = Some u -> o = Some u /\ q' = q) ->
  forall u pu, o' = Some u -> <[t := p']> ps !! u = Some pu -> pc_ok q' pu.
Proof.
  intros Hown Hp' Ho u pu Hu [(-> & -> & _)|(Hne & Hpu)]%list_lookup_insert_Some; [auto|].
  destruct (Ho u) as [Hou ->]; [done..|]. by eapply Hown.
Qed.

Lemma pop_front_cons q l q' : front q = Some l -> pop q = Some q' -> q = l :: q'.
Proof. destruct q; [done|]. by intros [= ->] [= ->]. Qed.

End InvariantParts.

(** The three counts after thread [t], found at [p] by [H], has moved. *)
Ltac counts H :=
  match goal with
  | |- context [<[?t := ?x]> ?l] =>
      pose proof (count_insert sleeping l t x _ H);
      pose proof (count_insert awake l t x _ H);
      pose proof (count_insert notifying l t x _ H)
  end.

(** ** Every transition keeps the invariant *)

Section Invariant.
Implicit Types (c : config) (a : label) (t w : tid) (p : pc).

Lemma minv_start n : minv (start n).
Proof.
  split; simpl; [|done..|].
  - split; [done|]. intros t p [-> _]%lookup_replicate. done.
  - intros Hs. rewrite count_replicate in Hs. simpl in Hs. lia.
Qed.

Lemma excl_tstep c a c' : minv c -> tstep c a c' -> excl (owner c') (pcs c').
Proof.
  intros [He _ _ _] Hstep. destruct Hstep; simpl;
    repeat match goal with H : owner _ = _ |- _ => rewrite H in * end;
    try (by eapply excl_inside); try (by eapply excl_outside);
    try (by eapply excl_acquire); try (by eapply excl_release).
  - eapply excl_outside; [done..|]. by destruct o.
  - eapply excl_inside; [by eapply excl_outside| |done].
    rewrite list_lookup_insert_ne by congruence. done.
  - eapply excl_inside; [done..|]. by destruct timed.
  - eapply excl_acquire; [done..|]. by destruct timeout.
Qed.

Lemma own_tstep c a c' :
  minv c -> tstep c a c' ->
  forall u pu, owner c' = Some u -> pcs c' !! u = Some pu -> pc_ok (cq c') pu.
Proof.
  intros Hc Hstep. pose proof (minv_own c Hc) as Hown.
  destruct Hstep; simpl;
    try (eapply own_insert; [exact Hown| |]); simpl; try done;
    try (intros u Hne Hu; exfalso; congruence).
  - by destruct o.
  - intros u pu Hu [(<- & <- & _)|(Hne & _)]%list_lookup_insert_Some; [done|congruence].
  - intros _. destruct timed; simpl; [by rewrite H1|done].
  - by destruct timeout.
  - intros _. by destruct received, (empty (cq c)).
Qed.

Lemma hist_tstep c a c' : minv c -> tstep c a c' -> pushed c' = popped c' ++ cq c'.
Proof.
  intros Hc Hstep. pose proof (minv_hist c Hc) as Hh.
  destruct Hstep; simpl; try done.
  - unfold push. by rewrite Hh, app_assoc.
  - rewrite Hh, <- app_assoc. simpl. f_equal. apply pop_front_cons; [|done].
    by apply (minv_own c Hc t (C_pop l)).
Qed.

Lemma wake_tstep c a c' : minv c -> tstep c a c' -> wake_ok (cq c') (pcs c').
Proof.
  intros Hc Hstep. pose proof (minv_wake c Hc) as Hw.
  destruct Hstep; unfold wake_ok in *; simpl;
    try (counts H; simpl in *; lia).
  - destruct o; counts H; simpl in *; lia.
  - rewrite push_length. counts H. simpl in *. lia.
  - assert (<[w := C_wake timed false]> (pcs c) !! t = Some P_notify) as Ht
      by (rewrite list_lookup_insert_ne by congruence; done).
    counts Ht. counts H1. simpl in *. lia.
  - apply empty_true in H1. rewrite H1. simpl. lia.
  - destruct timed; counts H; simpl in *; lia.
  - destruct timeout; counts H; simpl in *; lia.
  - destruct (cq c); counts H; simpl in *; lia.
  - pose proof (minv_own c Hc t _ H0 H) as Hr. simpl in Hr. subst received.
    destruct (empty (cq c)); [|done]. counts H. simpl in *. lia.
  - destruct received; [|done]. counts H. simpl in *. lia.
  - rewrite (pop_length _ _ H1) in Hw. counts H. simpl in *. lia.
Qed.

(** Every transition keeps the invariant. *)
Lemma minv_tstep c a c' : minv c -> tstep c a c' -> minv c'.
Proof.
  intros Hc Hstep. split.
  - by eapply excl_tstep.
  - by eapply own_tstep.
  - by eapply hist_tstep.
  - by eapply wake_tstep.
Qed.

Lemma minv_trun c tr c' : minv c -> trun c tr c' -> minv c'.
Proof. intros Hc Hrun. induction Hrun; eauto using minv_tstep. Qed.

Lemma minv_reaches n c : reaches n c -> minv c.
Proof. intros [tr Hr%fires_trun]. eapply minv_trun; [apply minv_start|done]. Qed.

End Invariant.

(** ** No undefined behaviour, and progress *)

Section Safety.
Implicit Types (c : config) (a : label) (t w : tid) (p : pc).

(** In the critical section the lock is held. *)
Lemma owned_critical t c k p :
  minv c -> pcs c !! t = Some p -> critical p = true -> owned t c k = k.
Proof.
  intros [[_ He] _ _ _] Ht Hp. apply (He t p Ht) in Hp.
  unfold owned. by rewrite decide_True.
Qed.

Lemma critical_owner c t p :
  minv c -> pcs c !! t = Some p -> critical p = true -> owner c = Some t.
Proof. intros [[_ He] _ _ _] Ht Hp. by apply (He t p Ht). Qed.

(** What a thread in the critical section knows of the queue is true. *)
Lemma pc_ok_thread c t p : minv c -> pcs c !! t = Some p -> pc_ok (cq c) p.
Proof.
  intros Hc Ht. destruct (critical p) eqn:Hp.
  - apply (minv_own c Hc t p); [by eapply critical_owner|done].
  - by destruct p.
Qed.

Lemma acquire_defined t p c : acquire t p c <> Undefined.
Proof. unfold acquire. by destruct (owner c). Qed.

Lemma tau_defined t p c : minv c -> pcs c !! t = Some p -> tau t p c <> Undefined.
Proof.
  intros Hc Ht.
  destruct p; unfold tau; try done; try apply acquire_defined;
    rewrite (owned_critical t c _ _ Hc Ht eq_refl); try done.
  - by case_decide.
  - by destruct (empty (cq c)).
  - by destruct (negb received || empty (cq c)).
  - pose proof (pc_ok_thread c t _ Hc Ht) as Hq. simpl in Hq. by destruct (cq c).
  - pose proof (pc_ok_thread c t _ Hc Ht) as Hq. simpl in Hq. by destruct (cq c).
Qed.

Lemma fire_defined a c : minv c -> fire a c <> Undefined.
Proof.
  intros Hc. destruct a as [t o|t|t w|t|t]; unfold fire.
  - by destruct (pcs c !! t) as [[]|].
  - destruct (pcs c !! t) as [p|] eqn:Ht; [by apply tau_defined|done].
  - destruct (pcs c !! t) as [[]|] eqn:Ht; try done.
    destruct (pcs c !! w) as [[]|] eqn:Hw; try done.
    by rewrite (owned_critical t c _ _ Hc Ht eq_refl).
  - by destruct (pcs c !! t) as [[]|].
  - by destruct (pcs c !! t) as [[| | | | | | |[|]| | | | | |]|].
Qed.

(** The owner of the mutex can always move. *)
Lemma owner_moves c t :
  minv c -> owner c = Some t -> exists a c', internal a = true /\ fire a c = Ready c'.
Proof.
  intros Hc Ho. destruct (minv_excl c Hc) as [Hlen He].
  destruct (lookup_lt_is_Some_2 (pcs c) t (Hlen t Ho)) as [p Ht].
  pose proof (proj2 (He t p Ht) Ho) as Hp.
  destruct (decide (p = P_notify /\ 0 < count sleeping (pcs c))) as [[-> Hs]|Hn].
  - destruct (count_pos sleeping _ Hs) as (w & pw & Hw & Hpw). destruct pw; try done.
    exists (Notify t w). eexists. split; [done|]. unfold fire. rewrite Ht, Hw.
    by rewrite (owned_critical t c _ _ Hc Ht eq_refl).
  - exists (Tau t). unfold fire. rewrite Ht.
    pose proof (tau_defined t p c Hc Ht) as Hd.
    destruct (tau t p c) as [c'| |] eqn:E; [by exists c'| |done].
    exfalso. revert E. destruct p; try done; unfold tau;
      rewrite (owned_critical t c _ _ Hc Ht eq_refl); try done.
    + case_decide as Hs; [done|]. intros _. apply Hn. split; [done|lia].
    + by destruct (empty (cq c)).
    + by destruct (negb received || empty (cq c)).
    + by destruct (front (cq c)).
    + by destruct (pop (cq c)).
Qed.

(** With the mutex free, a thread about to lock can. *)
Lemma free_moves c t p :
  owner c = None -> pcs c !! t = Some p ->
  (exists l, p = P_lock l) \/ (exists timed, p = C_lock timed) \/
    (exists timed timeout, p = C_wake timed timeout) ->
  exists c', fire (Tau t) c = Ready c'.
Proof.
  intros Ho Ht Hp. unfold fire. rewrite Ht.
  destruct Hp as [[l ->]|[[timed ->]|(timed & timeout & ->)]];
    unfold tau, acquire; rewrite Ho; by eexists.
Qed.

End Safety.

(** ** Properties of every interleaving *)

Section SyncProperties.
Implicit Types (c : config) (a : label) (t u w : tid) (p : pc) (n : nat).

(** C5. Mutual exclusion: in every configuration that any number of
    threads can reach by any interleaving, at most one thread is inside
    a critical section, and it is the owner of the mutex. *)
Theorem mutual_exclusion n c t u p p' :
  reaches n c -> pcs c !! t = Some p -> pcs c !! u = Some p' ->
  critical p = true -> critical p' = true -> t = u /\ owner c = Some t.
Proof.
  intros Hc%minv_reaches Ht Hu Hp Hp'.
  split; [by eapply excl_unique; [apply Hc|..]|by eapply critical_owner].
Qed.

(** C4. No undefined behaviour: in every reachable configuration no
    transition is undefined.  The queue is read and written only by the
    owner of the mutex, [front] and [pop] are called only on a queue
    that is not empty, and the mutex is unlocked only by its owner. *)
Theorem no_undefined_behaviour n c a : reaches n c -> fire a c <> Undefined.
Proof. intros Hc%minv_reaches. by apply fire_defined. Qed.

(** C3. The history of the queue: under every interleaving of
    producers and consumers the lines pushed are the lines popped, in
    the same order, followed by the lines in the queue.  No line is
    lost, none is taken twice, and none overtakes another. *)
Theorem queue_history n c : reaches n c -> pushed c = popped c ++ cq c.
Proof. intros Hc%minv_reaches. apply Hc. Qed.

(** C6. No lost wake-up: while a consumer sleeps in the condition
    variable, every line in the queue has a consumer on its way to it
    or a producer about to notify.  In particular, when every thread is
    idle or asleep, the queue is empty. *)
Theorem no_lost_wakeup n c :
  reaches n c -> 0 < count sleeping (pcs c) ->
  length (cq c) <= count awake (pcs c) + count notifying (pcs c).
Proof. intros Hc%minv_reaches. apply Hc. Qed.

(** C26. What [wait_for] returns is the predicate under the lock:
    [received] is true exactly when the queue is not empty, so the
    second test of line 133 never decides. *)
Theorem received_iff_not_empty n c t received :
  reaches n c -> pcs c !! t = Some (C_decide received) ->
  received = negb (empty (cq c)) /\
  negb received || empty (cq c) = negb received.
Proof.
  intros Hc%minv_reaches Ht. pose proof (pc_ok_thread c t _ Hc Ht) as Hr.
  simpl in Hr. subst received. by destruct (empty (cq c)).
Qed.

(** C19. Progress: in every reachable configuration in which some
    thread is neither idle nor asleep in [wait], a transition other
    than a new call or a wake-up without reason can fire.  The only way
    to be stuck is to wait for a line. *)
Theorem progress n c :
  reaches n c -> 0 < count pending (pcs c) ->
  exists a c', (internal a = true \/ exists t, a = Timeout t) /\ fire a c = Ready c'.
Proof.
  intros Hc%minv_reaches Hp. destruct (owner c) as [u|] eqn:Ho.
  - destruct (owner_moves c u Hc Ho) as (a & c' & Ha & Hf). exists a, c'. auto.
  - destruct (count_pos pending _ Hp) as (t & p & Ht & Hpt).
    assert (critical p = false) as Hcr.
    { destruct (critical p) eqn:E; [|done]. apply (critical_owner c t p Hc Ht) in E. congruence. }
    destruct (decide (p = C_sleep true)) as [->|Hne].
    + exists (Timeout t). eexists. split; [eauto|]. unfold fire. by rewrite Ht.
    + destruct (free_moves c t p Ho Ht) as [c' Hf].
      { destruct p as [| | | | | | |[|]| | | | | |]; try done; eauto. }
      exists (Tau t), c'. auto.
Qed.

(** C20. A sleeper is served: when a consumer sleeps and the queue is
    not empty, the program itself can move, without a timer and without
    a wake-up for no reason. *)
Theorem sleeper_served n c :
  reaches n c -> 0 < count sleeping (pcs c) -> empty (cq c) = false ->
  exists a c', internal a = true /\ fire a c = Ready c'.
Proof.
  intros Hc%minv_reaches Hs Hq. destruct (owner c) as [u|] eqn:Ho.
  { by apply (owner_moves c u). }
  pose proof (minv_wake c Hc Hs) as Hw.
  assert (0 < length (cq c)) as Hl by (destruct (cq c); [done|simpl; lia]).
  assert (forall t p, pcs c !! t = Some p -> critical p = false) as Hcr.
  { intros t p Ht. destruct (critical p) eqn:E; [|done].
    apply (critical_owner c t p Hc Ht) in E. congruence. }
  destruct (decide (0 < count awake (pcs c))) as [Ha|Ha].
  - destruct (count_pos awake _ Ha) as (t & p & Ht & Hp).
    destruct (free_moves c t p Ho Ht) as [c' Hf].
    { pose proof (Hcr t p Ht). destruct p; try done; eauto. }
    by exists (Tau t), c'.
  - destruct (count_pos notifying (pcs c)) as (t & p & Ht & Hp); [lia|].
    pose proof (Hcr t p Ht). by destruct p.
Qed.

End SyncProperties.

(** ** An operation that runs alone *)

Section Alone.
Implicit Types (c : config) (a : label) (t : tid) (p : pc).

Lemma set_pc_set_pc t p p' c : set_pc t p' (set_pc t p c) = set_pc t p' c.
Proof. unfold set_pc. simpl. by rewrite list_insert_insert_eq. Qed.

Lemma set_pc_id t p c : pcs c !! t = Some p -> set_pc t p c = c.
Proof. intros Ht. unfold set_pc. rewrite list_insert_id by done. by destruct c. Qed.

Lemma fire_Begin t o c :
  pcs c !! t = Some Idle -> fire (Begin t o) c = Ready (set_pc t (entry o) c).
Proof. intros Ht. unfold fire. by rewrite Ht. Qed.

Lemma fire_Tau t p c :
  t < length (pcs c) -> fire (Tau t) (set_pc t p c) = tau t p (set_pc t p c).
Proof. intros Ht. unfold fire. simpl. by rewrite list_lookup_insert_eq. Qed.

Lemma fire_Timeout t c :
  t < length (pcs c) ->
  fire (Timeout t) (set_pc t (C_sleep true) c) = Ready (set_pc t (C_wake true true) c).
Proof.
  intros Ht. unfold fire. simpl. rewrite list_lookup_insert_eq by done.
  by rewrite set_pc_set_pc.
Qed.

(** A thread that moves from an idle counter to a counter that is not
    asleep leaves the number of sleepers as it is. *)
Lemma count_sleeping_insert t p (ps : list pc) :
  ps !! t = Some Idle -> sleeping p = false ->
  count sleeping (<[t := p]> ps) = count sleeping ps.
Proof.
  intros Ht Hp. pose proof (count_insert sleeping _ _ p _ Ht) as Hc.
  simpl in *. rewrite Hp in Hc. lia.
Qed.

Lemma lock_set_pc u t p c : lock u (set_pc t p c) = set_pc t p (lock u c).
Proof. done. Qed.

Lemma unlock_set_pc t p c : unlock (set_pc t p c) = set_pc t p (unlock c).
Proof. done. Qed.

Lemma do_push_set_pc l t p c : do_push l (set_pc t p c) = set_pc t p (do_push l c).
Proof. done. Qed.

Lemma do_pop_set_pc l q t p c : do_pop l q (set_pc t p c) = set_pc t p (do_pop l q c).
Proof. done. Qed.

Lemma do_return_set_pc u r t p c :
  do_return u r (set_pc t p c) = set_pc t p (do_return u r c).
Proof. done. Qed.

End Alone.

#[export] Hint Rewrite lock_set_pc unlock_set_pc do_push_set_pc do_pop_set_pc
  do_return_set_pc set_pc_set_pc : sync_rw.

(** One statement of thread [t] in an operation that runs alone. *)
Ltac alone_step :=
  rewrite fire_Tau by (simpl; done);
  unfold tau, acquire, owned; simpl;
  repeat match goal with H : owner _ = _ |- _ => rewrite H end;
  repeat match goal with H : empty _ = _ |- _ => rewrite H end;
  rewrite ?decide_True by done; cbn [outcome_bind];
  autorewrite with sync_rw.

Section AloneFacts.
Implicit Types (c : config) (a : label) (t : tid) (p : pc).

(** A producer alone: the line is pushed and nothing else changes. *)
Lemma produce_alone t l c :
  quiet t c ->
  fires (alone t (Produce l) c) c =
  Ready (mkConfig None (push l (cq c)) (pcs c) (pushed c ++ [l]) (popped c) (returned c)).
Proof.
  intros (Ho & Ht & Hs). pose proof (lookup_lt_Some _ _ _ Ht) as Hlt.
  unfold alone. simpl. rewrite fire_Begin by done. simpl.
  do 2 alone_step. rewrite fire_Tau by (simpl; done).
  unfold tau, owned. simpl. rewrite count_sleeping_insert, Hs by done.
  rewrite !decide_True by done. cbn [outcome_bind]. autorewrite with sync_rw.
  alone_step. by rewrite set_pc_id.
Qed.

(** A consumer alone on a queue with a front line: the line is popped
    and returned. *)
Lemma consume_alone_front t timed l q c :
  quiet t c -> cq c = l :: q ->
  fires (alone t (Consume timed) c) c =
  Ready (mkConfig None q (pcs c) (pushed c) (popped c ++ [l]) (returned c ++ [(t, Some l)])).
Proof.
  intros (Ho & Ht & Hs) Hq. pose proof (lookup_lt_Some _ _ _ Ht) as Hlt.
  assert (empty (cq c) = false) as He by (by rewrite Hq).
  unfold alone. rewrite He. destruct timed; simpl; rewrite fire_Begin by done; simpl.
  - do 3 alone_step. rewrite fire_Tau by (simpl; done). unfold tau, owned. simpl.
    rewrite Hq. simpl. rewrite decide_True by done. cbn [outcome_bind].
    autorewrite with sync_rw. rewrite fire_Tau by (simpl; done). unfold tau, owned. simpl.
    rewrite Hq. simpl. rewrite decide_True by done. cbn [outcome_bind].
    autorewrite with sync_rw. alone_step. by rewrite set_pc_id.
  - do 2 alone_step. rewrite fire_Tau by (simpl; done). unfold tau, owned. simpl.
    rewrite Hq. simpl. rewrite decide_True by done. cbn [outcome_bind].
    autorewrite with sync_rw. rewrite fire_Tau by (simpl; done). unfold tau, owned. simpl.
    rewrite Hq. simpl. rewrite decide_True by done. cbn [outcome_bind].
    autorewrite with sync_rw. alone_step. by rewrite set_pc_id.
Qed.

(** A consumer with [wait_for] alone on an empty queue: it sleeps, its
    time is up, and it returns nothing; nothing has changed. *)
Lemma consume_alone_timeout t c :
  quiet t c -> cq c = [] ->
  fires (alone t (Consume true) c) c =
  Ready (mkConfig None [] (pcs c) (pushed c) (popped c) (returned c ++ [(t, None)])).
Proof.
  intros (Ho & Ht & Hs) Hq. pose proof (lookup_lt_Some _ _ _ Ht) as Hlt.
  assert (empty (cq c) = true) as He by (by rewrite Hq).
  unfold alone. rewrite He. simpl. rewrite fire_Begin by done. simpl.
  do 2 alone_step. rewrite fire_Timeout by done. cbn [outcome_bind].
  do 4 alone_step. rewrite set_pc_id by done.
  unfold do_return, unlock, lock. simpl. by rewrite Hq.
Qed.

(** A consumer with [wait] alone on an empty queue: it sleeps, the
    mutex released, and it has no statement to execute. *)
Lemma consume_alone_sleeps t c :
  quiet t c -> cq c = [] ->
  fires (alone t (Consume false) c) c = Ready (set_pc t (C_sleep false) c) /\
  fire (Tau t) (set_pc t (C_sleep false) c) = Blocked.
Proof.
  intros (Ho & Ht & Hs) Hq. pose proof (lookup_lt_Some _ _ _ Ht) as Hlt.
  assert (empty (cq c) = true) as He by (by rewrite Hq).
  split; [|by rewrite fire_Tau].
  unfold alone. rewrite He. simpl. rewrite fire_Begin by done. simpl.
  do 2 alone_step. f_equal. unfold set_pc, unlock, lock. simpl. by rewrite Ho.
Qed.

End AloneFacts.

(** ** What a transition does to the queue *)

Section Atomicity.
Implicit Types (c : config) (a : label) (t : tid) (p : pc).

(** A transition that leaves the queue alone and does not turn to
    return nothing. *)
Lemma effect_none c a c' t p' :
  pcs c' = <[t := p']> (pcs c) -> cq c' = cq c -> p' <> C_unlock None ->
  effect c a c'.
Proof.
  intros Hp Hq Hne. right. right. split; [done|]. intros u Hu Hu'. rewrite Hp in Hu.
  apply list_lookup_insert_Some in Hu as [(<- & Heq & _)|(_ & Hu)]; congruence.
Qed.

Lemma effect_tstep c a c' : minv c -> tstep c a c' -> effect c a c'.
Proof.
  intros Hc Hstep. pose proof (lookup_lt_Some (pcs c)) as Hlt.
  destruct Hstep; try (by eapply effect_none).
  - eapply effect_none; [done..|]. by destruct o.
  - left. by exists t, l.
  - right. right. split; [done|]. simpl. intros u Hu Hu'.
    apply list_lookup_insert_Some in Hu as [(<- & [=] & _)|(_ & Hu)].
    apply list_lookup_insert_Some in Hu as [(<- & [=] & _)|(_ & Hu)]. congruence.
  - eapply effect_none; [done..|]. by destruct timed.
  - eapply effect_none; [done..|]. by destruct timeout.
  - right. right. split; [done|]. simpl.
    intros u [(<- & _ & _)|(_ & Hu)]%list_lookup_insert_Some Hu'; [|congruence].
    split; [done|]. pose proof (minv_own c Hc t _ H0 H) as Hr. simpl in Hr.
    subst received. destruct (cq c); [done|]. by simpl in *.
  - right. left. exists t, l. split; [done|]. split; [done|]. split.
    + apply list_lookup_insert_eq. by eapply Hlt.
    + apply pop_front_cons; [|done]. by apply (minv_own c Hc t (C_pop l)).
Qed.

End Atomicity.

(** ** Properties of the critical sections *)

Section AtomicityProperties.
Implicit Types (c : config) (a : label) (t : tid) (n : nat).

(** C17. Every transition of every interleaving does to the queue what
    one operation of the queue does, or nothing: it is the push of a
    producer, or the pop by a consumer of the very line it has read with
    [front], or it leaves the queue alone; and a consumer turns to
    return nothing only when the queue is empty at that moment. *)
Theorem linearization n c a c' :
  reaches n c -> fire a c = Ready c' -> effect c a c'.
Proof. intros Hc%minv_reaches Hf%fire_tstep. by apply effect_tstep. Qed.

(** C18. An operation that runs alone does what the operation does at
    once: a producer pushes its line; a consumer pops and returns the
    front line; a consumer with [wait_for] on an empty queue returns
    nothing after its time is up and changes nothing; a consumer with
    [wait] on an empty queue sleeps with the mutex released.  The
    schedule [alone] is long enough in every case. *)
Theorem alone_is_atomic t o c :
  quiet t c ->
  exists c', fires (alone t o c) c = Ready c' /\ owner c' = None /\
    pushed c' = pushed c ++ (if o is Produce l then [l] else []) /\
    match atomic o (cq c) with
    | Ready (r, q') =>
        cq c' = q' /\ pcs c' = pcs c /\
        returned c' = returned c ++ (if o is Consume _ then [(t, r)] else [])
    | Blocked =>
        cq c' = cq c /\ pcs c' = <[t := C_sleep false]> (pcs c) /\
        fire (Tau t) c' = Blocked
    | Undefined => False
    end.
Proof.
  intros Hq. pose proof Hq as (Ho & Ht & Hs). destruct o as [l|timed].
  - eexists. split; [by apply produce_alone|]. simpl. by rewrite app_nil_r.
  - destruct (cq c) as [|l q] eqn:Eq.
    + destruct timed.
      * eexists. split; [by apply consume_alone_timeout|]. simpl.
        by rewrite app_nil_r.
      * destruct (consume_alone_sleeps t c Hq Eq) as [Hf Hb].
        eexists. split; [done|]. simpl. by rewrite app_nil_r.
    + eexists. split; [by apply (consume_alone_front t timed l q)|]. simpl.
      by rewrite app_nil_r.
Qed.

End AtomicityProperties.

(** ** Witnesses *)

Lemma mutual_exclusion_witness :
  match fires (take 6 demo_handoff) (start 2) with
  | Ready c => 1 = 1 /\ owner c = Some 1
  | _ => False
  end.
Proof.
  destruct (fires _ (start 2)) as [c| |] eqn:E; [|vm_compute in E; discriminate..].
  apply (mutual_exclusion 2 c 1 1 P_notify P_notify); [by eexists|..];
    vm_compute in E; by injection E as <-.
Defined.

Lemma no_undefined_behaviour_witness :
  match fires (take 9 demo_handoff) (start 2) with
  | Ready c => fire (Tau 0) c <> Undefined
  | _ => False
  end.
Proof.
  destruct (fires _ (start 2)) as [c| |] eqn:E; [|vm_compute in E; discriminate..].
  apply (no_undefined_behaviour 2). by eexists.
Defined.

Lemma queue_history_witness :
  match fires demo_race (start 3) with
  | Ready c => pushed c = popped c ++ cq c
  | _ => False
  end.
Proof.
  destruct (fires _ (start 3)) as [c| |] eqn:E; [|vm_compute in E; discriminate..].
  apply (queue_history 3). by eexists.
Defined.

Lemma no_lost_wakeup_witness :
  match fires (take 6 demo_handoff) (start 2) with
  | Ready c => length (cq c) <= count awake (pcs c) + count notifying (pcs c)
  | _ => False
  end.
Proof.
  destruct (fires _ (start 2)) as [c| |] eqn:E; [|vm_compute in E; discriminate..].
  apply (no_lost_wakeup 2); [by eexists|].
  vm_compute in E. injection E as <-. vm_compute. lia.
Defined.

Lemma received_iff_not_empty_witness :
  match fires (take 6 demo_timeout) (start 1) with
  | Ready c =>
      false = negb (empty (cq c)) /\ negb false || empty (cq c) = negb false
  | _ => False
  end.
Proof.
  destruct (fires _ (start 1)) as [c| |] eqn:E; [|vm_compute in E; discriminate..].
  apply (received_iff_not_empty 1 c 0); [by eexists|].
  vm_compute in E. by injection E as <-.
Defined.

Lemma progress_witness :
  match fires (take 3 demo_timeout) (start 1) with
  | Ready c =>
      exists a c', (internal a = true \/ exists t, a = Timeout t) /\ fire a c = Ready c'
  | _ => False
  end.
Proof.
  destruct (fires _ (start 1)) as [c| |] eqn:E; [|vm_compute in E; discriminate..].
  apply (progress 1); [by eexists|].
  vm_compute in E. injection E as <-. vm_compute. lia.
Defined.

Lemma sleeper_served_witness :
  match fires (take 6 demo_handoff) (start 2) with
  | Ready c => exists a c', internal a = true /\ fire a c = Ready c'
  | _ => False
  end.
Proof.
  destruct (fires _ (start 2)) as [c| |] eqn:E; [|vm_compute in E; discriminate..].
  apply (sleeper_served 2); [by eexists|..];
    vm_compute in E; injection E as <-; vm_compute; (lia || done).
Defined.

Lemma linearization_witness :
  match fires (take 5 demo_handoff) (start 2) with
  | Ready c => effect c (Tau 1) (set_pc 1 P_notify (do_push (str "go") c))
  | _ => False
  end.
Proof.
  destruct (fires _ (start 2)) as [c| |] eqn:E; [|vm_compute in E; discriminate..].
  apply (linearization 2); [by eexists|].
  vm_compute in E. by injection E as <-.
Defined.

Lemma alone_is_atomic_witness :
  exists c', fires (alone 0 (Consume true) (start 1)) (start 1) = Ready c' /\
    owner c' = None /\ pushed c' = [] ++ [] /\
    cq c' = [] /\ pcs c' = [Idle] /\ returned c' = [] ++ [(0, None)].
Proof. apply (alone_is_atomic 0 (Consume true) (start 1)). by vm_compute. Defined.
