(* ===== verification/Refine.v ===== *)
(** * Refine: the statements of the critical sections refine the bridge

    [Sync] runs the critical sections of one queue statement by
    statement, any number of threads interleaved; [Bridge] runs the
    entry points and the engine's accesses each at once.  This file
    relates the two.

    A transition of [Sync] does to the queue what one operation of the
    queue does, or nothing ([point]); a schedule is thereby a sequence
    of queue operations ([linear]), and [qrun] runs them at once.  A
    direction of the bridge ([Direction]) says which events of [Bridge]
    each queue operation is: on the input side a push is a
    [nativeSendCommand] and a pop is the engine reading the line and
    its newline; on the output side a push is the engine writing a line
    and its newline and a pop is a [nativeReadLine] that returns it.
    [synced] is the relation between the queues of [Sync] and a state
    of [Bridge].  The theorems: every schedule runs its queue
    operations, and every schedule of both directions is a run of
    [Bridge] between related states, with the same lines sent, read,
    written, received and returned.

    In the run of [Bridge] the engine's reads of a line stand together
    at the pop that took the line, and its writes of a line at the push
    that queued it.  In the program they are spread between two calls
    of [underflow], or come before the newline; they touch only the get
    area and the line buffer of the engine's own buffer objects, which
    no other thread reads or writes, so they can be moved next to the
    statement under the lock without changing what any thread sees.

    [channels] puts the two directions side by side with threads of
    their own: a thread of the program is in one critical section at a
    time, and the schedules of [channels] include every order in which
    the program's threads can execute the statements of the two
    sides. *)

From Stdlib Require Import List Lia.
From stdpp Require Import base tactics option list strings.
From S2P Require Import Prelude Chars Lines LineQueue Streambuf Bridge Sync.

#[local] Open Scope bridge_scope.

(** ** The operations of a queue, each at once *)

(** The Line Queue of the specification, whose operations are atomic:
    [push]; [pop_blocking], which takes the front line; and
    [pop_blocking_timeout] when it times out with the queue unchanged.
    In the program they are a push (lines 60, 116, 149), [front] and
    [pop] of a line (lines 45-46, 137-138), and a timed wait that
    returns with the queue empty (lines 127-134). *)
Inductive qop :=
| QPush (l : line)
| QPop (l : line)
| QAbsent.

(** One operation on the queue; [None] where it does not apply. *)
Definition qapply (o : qop) (q : queue) : option queue :=
  match o with
  | QPush l => Some (push l q)
  | QPop l => if decide (front q = Some l) then pop q else None
  | QAbsent => if empty q then Some q else None
  end.

(** A sequence of operations, first to last. *)
Fixpoint qrun (os : list qop) (q : queue) : option queue :=
  match os with
  | [] => Some q
  | o :: os' => q' ← qapply o q; qrun os' q'
  end.

(** The lines pushed and the lines popped by a sequence. *)
Definition pushes (os : list qop) : list line :=
  omap (fun o => match o with QPush l => Some l | _ => None end) os.

Definition pops (os : list qop) : list line :=
  omap (fun o => match o with QPop l => Some l | _ => None end) os.

(** What the consumers are given by a sequence: the line of each pop
    and nothing for each empty return. *)
Definition outcomes (os : list qop) : list (option line) :=
  omap (fun o => match o with
                 | QPush _ => None
                 | QPop l => Some (Some l)
                 | QAbsent => Some None
                 end) os.

(** What the owner of the mutex holds to return: a consumer that has
    taken its line or found none and has not yet left the critical
    section. *)
Definition holding (o : option tid) (ps : list pc) : list (option line) :=
  match o with
  | Some t => match ps !! t with
              | Some (C_unlock r) => [r]
              | _ => []
              end
  | None => []
  end.

#[global] Arguments holding : simpl never.

(** What the consumers have returned, in order, and what one is about
    to return. *)
Definition answered (c : config) : list (option line) :=
  (snd <$> returned c) ++ holding (owner c) (pcs c).

(** What [nativeReadLine] makes of what its critical section gives it:
    [NewStringUTF] of the line as a C string, or null (lines 134 and
    139). *)
Definition view_result (r : option line) : option line := c_view <$> r.

(** What the calls of [nativeReadLine] in a trace have returned. *)
Definition results (tr : list event) : list (option line) :=
  omap (fun e => match e with EvRecv r => Some r | _ => None end) tr.

(** ** The queue operations of a schedule *)

(** What a transition does to the queue: the statement [push] of a
    producer, the statement [pop] of a consumer, the test after
    [wait_for] that finds nothing to return; any other transition does
    nothing to it. *)
Definition point (c : config) (a : label) : list qop :=
  match a with
  | Tau t =>
      match pcs c !! t with
      | Some (P_push l) => [QPush l]
      | Some (C_pop l) => [QPop l]
      | Some (C_decide received) =>
          if negb received || empty (cq c) then [QAbsent] else []
      | _ => []
      end
  | _ => []
  end.

(** The queue operations of a schedule, in the order of their
    transitions. *)
Fixpoint linear (tr : list label) (c : config) : list qop :=
  match tr with
  | [] => []
  | a :: tr' =>
      point c a ++ match fire a c with
                   | Ready c' => linear tr' c'
                   | _ => []
                   end
  end.

(** ** The state of the bridge between two lines *)

(** The characters of the current line the engine has not read: the
    get area of the buffer [std::cin] reads through. *)
Definition cin_area (s : state) : list char :=
  match cin_buffer s with
  | Some b => InputBuffer.gavail b
  | None => []
  end.

(** A state of the bridge seen from the two queues: an engine runs, the
    input queue is [qi], the output queue is [qo], [area] is left of the
    line the engine reads and [ln] is what it has written of its
    current line. *)
Record synced (qi qo : queue) (area ln : list char) (s : state) : Prop := {
  synced_inv : inv s;
  synced_engines : 0 < engines s;
  synced_in : inputQueue s = qi;
  synced_out : outputQueue s = qo;
  synced_area : cin_area s = area;
  synced_line : cout_line s = ln
}.

(** ** The two directions *)

(** What a direction of the bridge makes of the queue of [Sync]: the
    lines its producers push, the states of the bridge in which its
    queue is a given queue, and the events of the bridge each queue
    operation is. *)
Class Direction := {
  line_ok : line -> Prop;
  matches : queue -> state -> Prop;
  events : qop -> list event
}.

(** A direction refines the bridge when every queue operation that
    applies is a run of the bridge between matching states. *)
Class Refines (D : Direction) : Prop := {
  op_simulated o q q' s :
    qapply o q = Some q' -> Forall line_ok (pushes [o]) -> matches q s ->
    exists s', run s (events o) s' /\ matches q' s'
}.

(** The input side.  A push is a [nativeSendCommand] of the line (lines
    115-117; the push of "quit" by [nativeDestroy], lines 148-150, is
    the same push); a pop is [InputBuffer::underflow] taking the line
    (lines 45-46), after which the engine reads its characters and the
    newline from the get area; [underflow] waits without a time limit
    and never comes back without a line. *)
Definition in_events (o : qop) : list event :=
  match o with
  | QPush l => [EvSend l]
  | QPop l => EvGet <$> (l ++ [NL])
  | QAbsent => []
  end.

(** The output side.  A push is the newline that ends a line the engine
    has written through [OutputBuffer::overflow] (lines 59-62), after
    the characters of the line (line 64); a pop is a [nativeReadLine]
    that returns the line (lines 137-139); a timed wait that finds
    nothing is a [nativeReadLine] that returns null (line 134). *)
Definition out_events (o : qop) : list event :=
  match o with
  | QPush l => EvPut <$> (l ++ [NL])
  | QPop l => [EvRecv (Some (c_view l))]
  | QAbsent => [EvRecv None]
  end.

(** The input side while the output queue is [qo] and the engine has
    written [ln] of its current line; its producers push C strings. *)
Definition input_side (qo : queue) (ln : list char) : Direction := {|
  line_ok l := NUL ∉ l;
  matches q s := synced q qo [] ln s;
  events := in_events
|}.

(** The output side while the input queue is [qi] and [area] is left of
    the line the engine reads; its producer pushes lines without a
    newline. *)
Definition output_side (qi : queue) (area : list char) : Direction := {|
  line_ok := nl_free;
  matches q s := synced qi q area [] s;
  events := out_events
|}.

(** ** Both directions together *)

(** The caller-to-engine direction and the engine-to-caller
    direction. *)
Inductive side := Input | Output.

(** The two queues of the bridge, each with its mutex and its condition
    variable (lines 28-30 and 32-34), and the threads in their critical
    sections. *)
Record channels := mkChannels {
  cin_sync : config;
  cout_sync : config
}.

(** Both queues empty, both mutexes free, [n] threads that use the
    input side and [m] that use the output side. *)
Definition chan_start (n m : nat) : channels :=
  mkChannels (start n) (start m).

(** One transition of one side. *)
Definition chan_fire (m : side * label) (d : channels) : outcome channels :=
  match m.1 with
  | Input => c <~ fire m.2 (cin_sync d) ;; Ready (mkChannels c (cout_sync d))
  | Output => c <~ fire m.2 (cout_sync d) ;; Ready (mkChannels (cin_sync d) c)
  end.

(** A schedule of both sides. *)
Fixpoint chan_fires (ms : list (side * label)) (d : channels) : outcome channels :=
  match ms with
  | [] => Ready d
  | m :: ms' => d' <~ chan_fire m d ;; chan_fires ms' d'
  end.

(** The events of the bridge a transition is. *)
Definition chan_events (d : channels) (m : side * label) : list event :=
  match m.1 with
  | Input => point (cin_sync d) m.2 ≫= in_events
  | Output => point (cout_sync d) m.2 ≫= out_events
  end.

(** The trace of the bridge a schedule is. *)
Fixpoint chan_trace (ms : list (side * label)) (d : channels) : list event :=
  match ms with
  | [] => []
  | m :: ms' =>
      chan_events d m ++ match chan_fire m d with
                         | Ready d' => chan_trace ms' d'
                         | _ => []
                         end
  end.

(** What a trace of the bridge accounts for between two states of the
    queues: the commands sent are the lines pushed on the input side and
    the characters read are the lines popped there; the characters
    written are the lines pushed on the output side, the lines received
    are the lines popped there, each as far as its first NUL, and what
    the calls of [nativeReadLine] returned is what the consumers there
    have returned or are about to. *)
Definition history (d : channels) (tr : list event) (d' : channels) : Prop :=
  pushed (cin_sync d') = pushed (cin_sync d) ++ lines_in tr /\
  unlines (popped (cin_sync d')) = unlines (popped (cin_sync d)) ++ gets tr /\
  unlines (pushed (cout_sync d')) = unlines (pushed (cout_sync d)) ++ puts tr /\
  c_view <$> popped (cout_sync d') = (c_view <$> popped (cout_sync d)) ++ received tr /\
  view_result <$> answered (cout_sync d') =
    (view_result <$> answered (cout_sync d)) ++ results tr.

(** Both sides satisfy the invariant of [Sync]. *)
Definition chan_inv (d : channels) : Prop :=
  minv (cin_sync d) /\ minv (cout_sync d).

(** A schedule used to exercise the theorems: on the input side thread
    0 sends "go" and thread 1, the engine, takes it; on the output side
    thread 0, the engine, pushes "ok" and thread 1 receives it; then
    thread 1 receives again and its time is up. *)
Definition demo_both : list (side * label) :=
  [(Input, Begin 1 (Consume false)); (Input, Begin 0 (Produce (str "go")));
   (Input, Tau 0); (Output, Begin 1 (Consume true)); (Input, Tau 0);
   (Output, Tau 1); (Input, Tau 0); (Input, Tau 0); (Output, Tau 1);
   (Input, Tau 1); (Input, Tau 1); (Input, Tau 1); (Input, Tau 1); (Input, Tau 1);
   (Output, Begin 0 (Produce (str "ok"))); (Output, Tau 0); (Output, Tau 0);
   (Output, Notify 0 1); (Output, Tau 0);
   (Output, Tau 1); (Output, Tau 1); (Output, Tau 1); (Output, Tau 1);
   (Output, Tau 1); (Output, Tau 1);
   (Output, Begin 1 (Consume true)); (Output, Tau 1); (Output, Tau 1);
   (Output, Timeout 1); (Output, Tau 1); (Output, Tau 1); (Output, Tau 1);
   (Output, Tau 1)].

(** ** Facts about queue operations *)

Section QueueOps.
Implicit Types (o : qop) (os : list qop) (q : queue) (c : config) (a : label).

Lemma qrun_app os1 os2 q :
  qrun (os1 ++ os2) q = q' ← qrun os1 q; qrun os2 q'.
Proof.
  revert q. induction os1 as [|o os1 IH]; intros q; simpl; [done|].
  destruct (qapply o q); simpl; [apply IH|done].
Qed.

Lemma pushes_app os1 os2 : pushes (os1 ++ os2) = pushes os1 ++ pushes os2.
Proof. apply omap_app. Qed.

Lemma pops_app os1 os2 : pops (os1 ++ os2) = pops os1 ++ pops os2.
Proof. apply omap_app. Qed.

(** A transition does at most one thing to the queue. *)
Lemma point_cases c a : point c a = [] \/ exists o, point c a = [o].
Proof.
  destruct a as [t o|t|t w|t|t]; simpl; auto.
  destruct (pcs c !! t) as [[]|]; eauto. case_match; eauto.
Qed.

(** What a transition does to the queue and to its histories is what
    its queue operation does. *)
Lemma point_sound c a c' :
  minv c -> tstep c a c' ->
  qrun (point c a) (cq c) = Some (cq c') /\
  pushed c' = pushed c ++ pushes (point c a) /\
  popped c' = popped c ++ pops (point c a).
Proof.
  intros Hc Hstep.
  destruct Hstep as [| | | | | | | | | | | | |t received c Ht Ho Hr
                     |t received c Ht Ho Hr| |t l q' c Ht Ho Hq|];
    unfold point;
    repeat match goal with H : pcs _ !! _ = Some _ |- _ => rewrite H end;
    simpl; rewrite ?app_nil_r; try done.
  - rewrite Hr. simpl. rewrite !app_nil_r. split; [|done].
    destruct (empty (cq c)) eqn:E; [done|].
    pose proof (minv_own c Hc t _ Ho Ht) as Hp. simpl in Hp. subst received.
    by rewrite E in Hr.
  - by rewrite Hr, !app_nil_r.
  - pose proof (minv_own c Hc t _ Ho Ht) as Hp. simpl in Hp.
    by rewrite decide_True, Hq.
Qed.

Lemma outcomes_app os1 os2 : outcomes (os1 ++ os2) = outcomes os1 ++ outcomes os2.
Proof. apply omap_app. Qed.

(** What the owner holds after a thread has moved. *)
Lemma holding_own t ps p :
  t < length ps ->
  holding (Some t) (<[t := p]> ps) = match p with C_unlock r => [r] | _ => [] end.
Proof. intros Ht. unfold holding. by rewrite list_lookup_insert_eq. Qed.

Lemma holding_other (ow : option tid) t ps p :
  ow <> Some t -> holding ow (<[t := p]> ps) = holding ow ps.
Proof.
  intros Ho. destruct ow as [u|]; [|done]. unfold holding.
  rewrite list_lookup_insert_ne; [done|congruence].
Qed.

Lemma holding_at t ps p :
  ps !! t = Some p -> holding (Some t) ps = match p with C_unlock r => [r] | _ => [] end.
Proof. intros Ht. unfold holding. by rewrite Ht. Qed.

(** A thread outside the critical section is not the owner. *)
Lemma not_owner c t p : minv c -> pcs c !! t = Some p -> critical p = false -> owner c <> Some t.
Proof. intros [[_ He] _ _ _] Ht Hp Ho. apply (He t p Ht) in Ho. congruence. Qed.

(** What a transition gives a consumer is what its queue operation
    gives. *)
Lemma point_answered c a c' :
  minv c -> tstep c a c' -> answered c' = answered c ++ outcomes (point c a).
Proof.
  intros Hc Hstep. pose proof (lookup_lt_Some (pcs c)) as Hlt.
  unfold answered, point.
  destruct Hstep; simpl;
    repeat match goal with H : pcs _ !! _ = Some _ |- _ => rewrite H end;
    try match goal with H : owner _ = _ |- _ => rewrite !H end;
    rewrite ?holding_own by (rewrite ?length_insert; eauto);
    try (erewrite holding_at by eassumption);
    try (rewrite holding_other by (by eapply not_owner));
    rewrite ?fmap_app; simpl; rewrite ?app_nil_r; try done.
  - by destruct timed; rewrite app_nil_r.
  - by destruct timeout; rewrite app_nil_r.
  - match goal with H : _ || _ = _ |- _ => by rewrite H end.
  - match goal with H : _ || _ = _ |- _ => by rewrite H, app_nil_r end.
Qed.

Lemma linear_answered tr c c' :
  minv c -> fires tr c = Ready c' -> answered c' = answered c ++ outcomes (linear tr c).
Proof.
  revert c. induction tr as [|a tr IH]; intros c Hc; simpl.
  - intros [= <-]. by rewrite app_nil_r.
  - destruct (fire a c) as [c1| |] eqn:Ea; [|done..]. simpl. intros Hf.
    apply fire_tstep in Ea.
    rewrite (IH c1 (minv_tstep _ _ _ Hc Ea) Hf), (point_answered c a c1 Hc Ea).
    by rewrite outcomes_app, app_assoc.
Qed.

Lemma linear_sound tr c c' :
  minv c -> fires tr c = Ready c' ->
  qrun (linear tr c) (cq c) = Some (cq c') /\
  pushed c' = pushed c ++ pushes (linear tr c) /\
  popped c' = popped c ++ pops (linear tr c).
Proof.
  revert c. induction tr as [|a tr IH]; intros c Hc; simpl.
  - intros [= <-]. by rewrite !app_nil_r.
  - destruct (fire a c) as [c1| |] eqn:Ea; [|done..]. simpl. intros Hf.
    apply fire_tstep in Ea.
    destruct (point_sound c a c1 Hc Ea) as (Hq & Hpu & Hpo).
    destruct (IH c1 (minv_tstep _ _ _ Hc Ea) Hf) as (Hq' & Hpu' & Hpo').
    rewrite qrun_app, Hq, pushes_app, pops_app, !app_assoc, <- Hpu, <- Hpo.
    done.
Qed.

End QueueOps.

(** ** The bridge, one character and one call at a time *)

Section Synced.
Implicit Types (s : state) (qi qo : queue) (area ln : list char) (l : line) (ch : char).

(** With an engine running, [std::cin] and [std::cout] read and write
    through live buffers. *)
Lemma synced_cin qi qo area ln s :
  synced qi qo area ln s ->
  exists a b, cin_rdbuf s = Some a /\ in_heap s !! a = Some b /\ InputBuffer.gavail b = area.
Proof.
  intros [Hs He _ _ Ha _].
  destruct (inv_engines s Hs He) as [[a Ea] _].
  destruct (lookup_lt_is_Some_2 (in_heap s) a) as [b Eb]; [by apply Hs|].
  exists a, b. unfold cin_area, cin_buffer in Ha. rewrite Ea in Ha. simpl in Ha.
  by rewrite Eb in Ha.
Qed.

Lemma synced_cout qi qo area ln s :
  synced qi qo area ln s ->
  exists a b, cout_rdbuf s = Some a /\ out_heap s !! a = Some b /\
    OutputBuffer.lineBuffer b = ln.
Proof.
  intros [Hs He _ _ _ Hl].
  destruct (inv_engines s Hs He) as [_ [a Ea]].
  destruct (lookup_lt_is_Some_2 (out_heap s) a) as [b Eb]; [by apply Hs|].
  exists a, b. unfold cout_line, cout_buffer in Hl. rewrite Ea in Hl. simpl in Hl.
  by rewrite Eb in Hl.
Qed.

(** What a read of the engine leaves. *)
Lemma synced_sbumpc qi qo area ln s c s' a b :
  synced qi qo area ln s -> cin_rdbuf s = Some a -> in_heap s !! a = Some b ->
  cin_sbumpc s = Ready (c, s') ->
  synced (InputBuffer.advance b qi).2 qo
    (InputBuffer.gavail (InputBuffer.advance b qi).1) ln s'.
Proof.
  intros H Ea Eb E. pose proof H as [Hs He Hi Ho Ha Hl].
  pose proof (inv_cin_sbumpc _ _ _ Hs E) as Hs'.
  rewrite cin_sbumpc_spec, Ea in E. simpl in E. rewrite Eb in E. simpl in E.
  destruct (InputBuffer.pending b (inputQueue s)); [done|]. injection E as _ <-.
  subst qi. split; try done.
  unfold cin_area, cin_buffer. simpl. rewrite Ea. simpl.
  by rewrite list_lookup_insert_eq by by eapply lookup_lt_Some.
Qed.

(** The engine reads a character of the current line. *)
Lemma synced_get qi qo ch area ln s :
  synced qi qo (ch :: area) ln s ->
  exists s', step s (EvGet ch) s' /\ synced qi qo area ln s'.
Proof.
  intros H. destruct (synced_cin _ _ _ _ _ H) as (a & b & Ea & Eb & Hg).
  pose proof H as [Hs He Hi Ho Ha Hl].
  assert (exists s', cin_sbumpc s = Ready (to_int_type ch, s')) as [s' E].
  { rewrite cin_sbumpc_spec, Ea. simpl. rewrite Eb. simpl.
    unfold InputBuffer.pending. rewrite Hg. simpl. eauto. }
  exists s'. split; [by apply step_get|].
  pose proof (synced_sbumpc _ _ _ _ _ _ _ _ _ H Ea Eb E) as H'.
  unfold InputBuffer.advance in H'. rewrite Hg in H'. simpl in H'.
  by rewrite ib_gavail_gbump, Hg in H'.
Qed.

(** With the current line read, the engine takes the front line of the
    input queue and reads its first character. *)
Lemma synced_underflow l qi qo ln s :
  synced (l :: qi) qo [] ln s ->
  exists s', step s (EvGet (default NL (head (l ++ [NL])))) s' /\
    synced qi qo (tail (l ++ [NL])) ln s'.
Proof.
  intros H. destruct (synced_cin _ _ _ _ _ H) as (a & b & Ea & Eb & Hg).
  pose proof H as [Hs He Hi Ho Ha Hl].
  assert (exists s', cin_sbumpc s =
            Ready (to_int_type (default NL (head (l ++ [NL]))), s')) as [s' E].
  { rewrite cin_sbumpc_spec, Ea. simpl. rewrite Eb. simpl.
    unfold InputBuffer.pending. rewrite Hg, Hi. destruct l; simpl; eauto. }
  exists s'. split; [by apply step_get|].
  pose proof (synced_sbumpc _ _ _ _ _ _ _ _ _ H Ea Eb E) as H'.
  unfold InputBuffer.advance in H'. rewrite Hg in H'. simpl in H'.
  by rewrite ib_gavail_gbump, ib_gavail_loaded in H'.
Qed.

(** The engine reads what is left of the current line. *)
Lemma synced_gets qi qo cs area ln s :
  synced qi qo (cs ++ area) ln s ->
  exists s', run s (EvGet <$> cs) s' /\ synced qi qo area ln s'.
Proof.
  revert s. induction cs as [|ch cs IH]; intros s H; simpl in *.
  - exists s. split; [constructor|done].
  - destruct (synced_get _ _ _ _ _ _ H) as (s1 & Hstep & H1).
    destruct (IH s1 H1) as (s2 & Hrun & H2).
    exists s2. split; [by econstructor|done].
Qed.

(** The engine writes a character of a line. *)
Lemma synced_put qi qo area ln ch s :
  ch <> NL -> synced qi qo area ln s ->
  exists s', step s (EvPut ch) s' /\ synced qi qo area (ln ++ [ch]) s'.
Proof.
  intros Hch H. destruct (synced_cout _ _ _ _ _ H) as (a & b & Ea & Eb & Hb).
  pose proof H as [Hs He Hi Ho Ha Hl].
  pose proof (cout_sputc_spec ch s) as E. rewrite Ea in E. simpl in E.
  rewrite Eb in E. simpl in E.
  eexists. split; [by eapply step_put|].
  split; try done.
  - by eapply inv_cout_sputc.
  - simpl. unfold OutputBuffer.put. by rewrite decide_False.
  - unfold cout_line, cout_buffer. simpl. rewrite Ea. simpl.
    rewrite list_lookup_insert_eq by by eapply lookup_lt_Some.
    unfold OutputBuffer.put. rewrite decide_False by done. simpl. by rewrite Hb.
Qed.

(** The engine ends a line: the newline pushes it. *)
Lemma synced_newline qi qo area ln s :
  synced qi qo area ln s ->
  exists s', step s (EvPut NL) s' /\ synced qi (push ln qo) area [] s'.
Proof.
  intros H. destruct (synced_cout _ _ _ _ _ H) as (a & b & Ea & Eb & Hb).
  pose proof H as [Hs He Hi Ho Ha Hl].
  pose proof (cout_sputc_spec NL s) as E. rewrite Ea in E. simpl in E.
  rewrite Eb in E. simpl in E.
  eexists. split; [by eapply step_put|].
  split; try done.
  - by eapply inv_cout_sputc.
  - simpl. by rewrite Hb, Ho.
  - unfold cout_line, cout_buffer. simpl. rewrite Ea. simpl.
    by rewrite list_lookup_insert_eq by by eapply lookup_lt_Some.
Qed.

(** The engine writes the characters of a line. *)
Lemma synced_puts qi qo area ln cs s :
  nl_free cs -> synced qi qo area ln s ->
  exists s', run s (EvPut <$> cs) s' /\ synced qi qo area (ln ++ cs) s'.
Proof.
  revert ln s. induction cs as [|ch cs IH]; intros ln s Hcs H; simpl.
  - exists s. rewrite app_nil_r. split; [constructor|done].
  - apply not_elem_of_cons in Hcs as [Hch Hcs].
    destruct (synced_put _ _ _ _ ch _ ltac:(done) H) as (s1 & Hstep & H1).
    destruct (IH _ s1 Hcs H1) as (s2 & Hrun & H2).
    exists s2. split; [by econstructor|]. by rewrite <- app_assoc in H2.
Qed.

(** The engine takes a line and reads it to its newline. *)
Lemma synced_read_line l qi qo ln s :
  synced (l :: qi) qo [] ln s ->
  exists s', run s (EvGet <$> (l ++ [NL])) s' /\ synced qi qo [] ln s'.
Proof.
  intros H. destruct (synced_underflow _ _ _ _ _ H) as (s1 & Hstep & H1).
  rewrite <- (app_nil_r (tail _)) in H1.
  destruct (synced_gets _ _ _ _ _ _ H1) as (s2 & Hrun & H2).
  exists s2. split; [|done]. destruct l; by econstructor.
Qed.

(** The engine writes a line and its newline. *)
Lemma synced_write_line l qi qo area s :
  nl_free l -> synced qi qo area [] s ->
  exists s', run s (EvPut <$> (l ++ [NL])) s' /\ synced qi (push l qo) area [] s'.
Proof.
  intros Hl H. destruct (synced_puts _ _ _ _ l _ Hl H) as (s1 & Hrun & H1).
  destruct (synced_newline _ _ _ _ _ H1) as (s2 & Hstep & H2).
  exists s2. split; [|done]. rewrite fmap_app.
  eapply run_app; [done|by apply run_one].
Qed.

(** The state a successful [nativeInit] leaves has an engine, two
    fresh buffers and the queues as they were. *)
Lemma synced_started s :
  inv s -> synced (inputQueue s) (outputQueue s) [] [] (started s).
Proof.
  intros Hs. split; simpl; [by apply inv_started|lia|done|done|..].
  - unfold cin_area, cin_buffer. simpl. by rewrite list_lookup_middle.
  - unfold cout_line, cout_buffer. simpl. by rewrite list_lookup_middle.
Qed.

(** A command without a NUL is sent. *)
Lemma synced_send qi qo area ln l s :
  NUL ∉ l -> synced qi qo area ln s ->
  exists s', step s (EvSend l) s' /\ synced (push l qi) qo area ln s'.
Proof.
  intros Hl [Hs He Hi Ho Ha Hln].
  pose proof (nativeSendCommand_push l s) as E.
  eexists. split.
  - rewrite <- (string_of_c_id l) at 1 by done. by apply step_send.
  - split; try done.
    + by eapply inv_nativeSendCommand.
    + simpl. by rewrite string_of_c_id, Hi.
Qed.

(** The front line of the output queue is received. *)
Lemma synced_recv l qi qo area ln s :
  synced qi (l :: qo) area ln s ->
  exists s', step s (EvRecv (Some (c_view l))) s' /\ synced qi qo area ln s'.
Proof.
  intros [Hs He Hi Ho Ha Hln].
  pose proof (nativeReadLine_line true s l qo Ho) as E.
  eexists. split; [by eapply step_recv|].
  split; try done. by eapply inv_nativeReadLine.
Qed.

(** With the output queue empty and the time up, nothing is received. *)
Lemma synced_absent qi area ln s :
  synced qi [] area ln s -> step s (EvRecv None) s.
Proof.
  intros [Hs He Hi Ho Ha Hln]. apply (step_recv true).
  by apply nativeReadLine_timeout.
Qed.

End Synced.

(** ** What the events of a queue operation show *)

Section Observed.
Implicit Types (os : list qop) (cs : list char).

Lemma results_app tr1 tr2 : results (tr1 ++ tr2) = results tr1 ++ results tr2.
Proof. apply omap_app. Qed.

Lemma observe_gets cs :
  lines_in (EvGet <$> cs) = [] /\ gets (EvGet <$> cs) = cs /\
  puts (EvGet <$> cs) = [] /\ received (EvGet <$> cs) = [] /\
  results (EvGet <$> cs) = [].
Proof.
  unfold lines_in, gets, puts, received, results.
  split_and!; (by apply omap_fmap_Some) || (by apply omap_fmap_None).
Qed.

Lemma observe_puts cs :
  lines_in (EvPut <$> cs) = [] /\ gets (EvPut <$> cs) = [] /\
  puts (EvPut <$> cs) = cs /\ received (EvPut <$> cs) = [] /\
  results (EvPut <$> cs) = [].
Proof.
  unfold lines_in, gets, puts, received, results.
  split_and!; (by apply omap_fmap_Some) || (by apply omap_fmap_None).
Qed.

(** On the input side the commands sent are the lines pushed and the
    characters read are the lines popped, each with its newline. *)
Lemma in_events_observed os :
  lines_in (os ≫= in_events) = pushes os /\
  gets (os ≫= in_events) = unlines (pops os) /\
  puts (os ≫= in_events) = [] /\ received (os ≫= in_events) = [] /\
  results (os ≫= in_events) = [].
Proof.
  induction os as [|[l|l|] os (IH1 & IH2 & IH3 & IH4 & IH5)]; csimpl; [done| | |done].
  - by rewrite IH1.
  - destruct (observe_gets (l ++ [NL])) as (H1 & H2 & H3 & H4 & H5).
    rewrite lines_in_app, gets_app, puts_app, received_app, results_app.
    by rewrite H1, H2, H3, H4, H5, IH1, IH2, IH3, IH4, IH5, <- app_assoc.
Qed.

(** On the output side the characters written are the lines pushed,
    each with its newline, and the lines received are the lines popped,
    each as far as its first NUL. *)
Lemma out_events_observed os :
  lines_in (os ≫= out_events) = [] /\ gets (os ≫= out_events) = [] /\
  puts (os ≫= out_events) = unlines (pushes os) /\
  received (os ≫= out_events) = c_view <$> pops os /\
  results (os ≫= out_events) = view_result <$> outcomes os.
Proof.
  induction os as [|[l|l|] os (IH1 & IH2 & IH3 & IH4 & IH5)]; csimpl; [done|..].
  - destruct (observe_puts (l ++ [NL])) as (H1 & H2 & H3 & H4 & H5).
    rewrite lines_in_app, gets_app, puts_app, received_app, results_app.
    by rewrite H1, H2, H3, H4, H5, IH1, IH2, IH3, IH4, IH5, <- app_assoc.
  - by rewrite IH4, IH5.
  - by rewrite IH5.
Qed.

End Observed.

(** ** Each direction refines the bridge *)

#[export] Instance input_side_refines qo ln : Refines (input_side qo ln).
Proof.
  split. intros [l|l|] q q' s Hq Hok Hm; simpl in *.
  - injection Hq as <-. apply Forall_cons in Hok as [Hl _].
    destruct (synced_send _ _ _ _ l _ Hl Hm) as (s' & Hstep & H').
    exists s'. split; [by apply run_one|done].
  - case_decide as Hf; [|done]. rewrite (pop_front_cons _ _ _ Hf Hq) in Hm.
    by apply synced_read_line.
  - destruct (empty q); [|done]. injection Hq as <-.
    exists s. split; [constructor|done].
Qed.

#[export] Instance output_side_refines qi area : Refines (output_side qi area).
Proof.
  split. intros [l|l|] q q' s Hq Hok Hm; simpl in *.
  - injection Hq as <-. apply Forall_cons in Hok as [Hl _].
    by apply synced_write_line.
  - case_decide as Hf; [|done]. rewrite (pop_front_cons _ _ _ Hf Hq) in Hm.
    destruct (synced_recv _ _ _ _ _ _ Hm) as (s' & Hstep & H').
    exists s'. split; [by apply run_one|done].
  - destruct q; [|done]. injection Hq as <-.
    exists s. split; [|done]. by eapply run_one, synced_absent.
Qed.

(** ** A transition of a direction is a run of the bridge *)

Section Simulation.
Context `{D : Direction} `{!Refines D}.
Implicit Types (c : config) (a : label) (s : state).

Lemma transition_simulated c a c' s :
  minv c -> fire a c = Ready c' -> Forall line_ok (pushed c') -> matches (cq c) s ->
  exists s', run s (point c a ≫= events) s' /\ matches (cq c') s'.
Proof.
  intros Hc Hf%fire_tstep Hok Hm.
  destruct (point_sound c a c' Hc Hf) as (Hq & Hpu & _).
  rewrite Hpu in Hok. apply Forall_app in Hok as [_ Hok].
  destruct (point_cases c a) as [E|[o E]]; rewrite E in *; simpl in *.
  - injection Hq as <-. exists s. split; [constructor|done].
  - destruct (qapply o (cq c)) as [q'|] eqn:Eo; [|done]. injection Hq as <-.
    rewrite app_nil_r. by eapply op_simulated.
Qed.

End Simulation.

(** ** Both directions *)

Section Channels.
Implicit Types (d : channels) (m : side * label) (ms : list (side * label)) (s : state).

Lemma chan_inv_start n k : chan_inv (chan_start n k).
Proof. split; apply minv_start. Qed.

Lemma chan_fire_inv m d d' : chan_inv d -> chan_fire m d = Ready d' -> chan_inv d'.
Proof.
  intros [Hi Ho]. destruct m as [[] a]; unfold chan_fire; simpl;
    destruct (fire a _) as [c| |] eqn:Ef; try done; intros [= <-];
    apply fire_tstep in Ef; split; simpl; eauto using minv_tstep.
Qed.

Lemma history_refl d : history d [] d.
Proof. unfold history. simpl. by rewrite !app_nil_r. Qed.

Lemma history_trans d tr1 d1 tr2 d2 :
  history d tr1 d1 -> history d1 tr2 d2 -> history d (tr1 ++ tr2) d2.
Proof.
  intros (H1 & H2 & H3 & H4 & H5) (K1 & K2 & K3 & K4 & K5).
  unfold history. rewrite lines_in_app, gets_app, puts_app, received_app, results_app.
  by rewrite K1, K2, K3, K4, K5, H1, H2, H3, H4, H5, <- !app_assoc.
Qed.

(** The events of a transition account for what it does to the
    histories. *)
Lemma chan_fire_history m d d' :
  chan_inv d -> chan_fire m d = Ready d' -> history d (chan_events d m) d'.
Proof.
  intros [Hi Ho]. destruct m as [[] a]; unfold chan_fire, chan_events; simpl;
    destruct (fire a _) as [c| |] eqn:Ef; try done; intros [= <-];
    apply fire_tstep in Ef.
  - destruct (point_sound _ _ _ Hi Ef) as (_ & Hpu & Hpo).
    destruct (in_events_observed (point (cin_sync d) a)) as (H1 & H2 & H3 & H4 & H5).
    unfold history. simpl. rewrite H1, H2, H3, H4, H5, Hpu, Hpo, unlines_app.
    by rewrite !app_nil_r.
  - destruct (point_sound _ _ _ Ho Ef) as (_ & Hpu & Hpo).
    destruct (out_events_observed (point (cout_sync d) a)) as (H1 & H2 & H3 & H4 & H5).
    unfold history. simpl.
    rewrite H1, H2, H3, H4, H5, Hpu, Hpo, (point_answered _ _ _ Ho Ef).
    by rewrite unlines_app, !fmap_app, !app_nil_r.
Qed.

Lemma chan_fires_history ms d d' :
  chan_inv d -> chan_fires ms d = Ready d' -> history d (chan_trace ms d) d'.
Proof.
  revert d. induction ms as [|m ms IH]; intros d Hd; simpl.
  - intros [= <-]. apply history_refl.
  - destruct (chan_fire m d) as [d1| |] eqn:Em; [|done..]. simpl. intros Hf.
    eapply history_trans; [by apply chan_fire_history|].
    apply IH; [by eapply chan_fire_inv|done].
Qed.

(** The lines pushed are never taken back. *)
Lemma chan_fire_pushed m d d' :
  chan_inv d -> chan_fire m d = Ready d' ->
  pushed (cin_sync d) `prefix_of` pushed (cin_sync d') /\
  pushed (cout_sync d) `prefix_of` pushed (cout_sync d').
Proof.
  intros [Hi Ho]. destruct m as [[] a]; unfold chan_fire; simpl;
    destruct (fire a _) as [c| |] eqn:Ef; try done; intros [= <-];
    apply fire_tstep in Ef; simpl; (split; [|done]) || (split; [done|]).
  - destruct (point_sound _ _ _ Hi Ef) as (_ & -> & _). by eexists.
  - destruct (point_sound _ _ _ Ho Ef) as (_ & -> & _). by eexists.
Qed.

Lemma chan_fires_pushed ms d d' :
  chan_inv d -> chan_fires ms d = Ready d' ->
  pushed (cin_sync d) `prefix_of` pushed (cin_sync d') /\
  pushed (cout_sync d) `prefix_of` pushed (cout_sync d').
Proof.
  revert d. induction ms as [|m ms IH]; intros d Hd; simpl.
  - by intros [= <-].
  - destruct (chan_fire m d) as [d1| |] eqn:Em; [|done..]. simpl. intros Hf.
    destruct (chan_fire_pushed _ _ _ Hd Em) as [H1 H2].
    destruct (IH d1 (chan_fire_inv _ _ _ Hd Em) Hf) as [K1 K2].
    split; by etrans.
Qed.

(** A transition of either side is a run of the bridge. *)
Lemma chan_fire_simulated m d d' s :
  chan_inv d -> chan_fire m d = Ready d' ->
  Forall (fun l => NUL ∉ l) (pushed (cin_sync d')) ->
  Forall nl_free (pushed (cout_sync d')) ->
  synced (cq (cin_sync d)) (cq (cout_sync d)) [] [] s ->
  exists s', run s (chan_events d m) s' /\
    synced (cq (cin_sync d')) (cq (cout_sync d')) [] [] s'.
Proof.
  intros [Hi Ho]. destruct m as [[] a]; unfold chan_fire, chan_events; simpl;
    destruct (fire a _) as [c| |] eqn:Ef; try done; intros [= <-]; simpl;
    intros Hin Hout Hs.
  - by apply (transition_simulated (D := input_side (cq (cout_sync d)) [])
                (cin_sync d) a c s).
  - by apply (transition_simulated (D := output_side (cq (cin_sync d)) [])
                (cout_sync d) a c s).
Qed.

Lemma chan_fires_simulated ms d d' s :
  chan_inv d -> chan_fires ms d = Ready d' ->
  Forall (fun l => NUL ∉ l) (pushed (cin_sync d')) ->
  Forall nl_free (pushed (cout_sync d')) ->
  synced (cq (cin_sync d)) (cq (cout_sync d)) [] [] s ->
  exists s', run s (chan_trace ms d) s' /\
    synced (cq (cin_sync d')) (cq (cout_sync d')) [] [] s'.
Proof.
  revert d s. induction ms as [|m ms IH]; intros d s Hd; simpl.
  - intros [= <-] _ _ Hs. exists s. split; [constructor|done].
  - destruct (chan_fire m d) as [d1| |] eqn:Em; [|done..]. simpl.
    intros Hf Hin Hout Hs.
    pose proof (chan_fire_inv _ _ _ Hd Em) as Hd1.
    destruct (chan_fires_pushed _ _ _ Hd1 Hf) as [[xi Hpi] [xo Hpo]].
    destruct (chan_fire_simulated m d d1 s Hd Em) as (s1 & Hr1 & Hs1); [..|done|].
    + rewrite Hpi in Hin. by apply Forall_app in Hin as [? _].
    + rewrite Hpo in Hout. by apply Forall_app in Hout as [? _].
    + destruct (IH d1 s1 Hd1 Hf Hin Hout Hs1) as (s2 & Hr2 & Hs2).
      exists s2. split; [by eapply run_app|done].
Qed.

End Channels.

(** ** Properties *)

Section RefineProperties.
Implicit Types (c : config) (d : channels) (s : state) (n k : nat).

(** C16. Every schedule of the statements of the critical sections of
    one queue, any number of threads interleaved, is a sequence of queue
    operations each done at once, in the order of the statements [push],
    [pop] and the test that finds nothing: run from the empty queue they
    all apply (each pop takes the very line its thread read with [front]
    before, each empty return finds the queue empty) and leave the queue
    of the schedule; the lines they push and pop are the lines the
    schedule has pushed and popped, and what they give the consumers is
    what the consumers have returned, in order, and what the one still
    in its critical section is about to return. *)
Theorem linearizable n tr c :
  fires tr (start n) = Ready c ->
  qrun (linear tr (start n)) queue_new = Some (cq c) /\
  pushes (linear tr (start n)) = pushed c /\
  pops (linear tr (start n)) = popped c /\
  outcomes (linear tr (start n)) = answered c.
Proof.
  intros Hf. destruct (linear_sound tr (start n) c (minv_start n) Hf) as (? & ? & ?).
  by rewrite (linear_answered tr (start n) c (minv_start n) Hf).
Qed.

(** C14. The statements refine the entry points.  Take any schedule of
    the statements of both queues' critical sections from the start, in
    which the commands pushed hold no NUL and the lines the engine
    pushes hold no newline, and any state of the bridge with an engine
    and nothing queued or buffered.  Then the events of the schedule
    (a [nativeSendCommand] at each push on the input side, the engine's
    reads of a line and its newline at each pop there, its writes of a
    line and its newline at each push on the output side, a
    [nativeReadLine] at each pop and at each empty return there) are a
    run of the bridge; it ends in a state whose queues are the queues of
    the schedule; the commands sent are the lines pushed on the input
    side, the characters read are the lines popped there, the
    characters written are the lines pushed on the output side, the
    lines received are the lines popped there, each as far as its first
    NUL, and what the calls of [nativeReadLine] in the run returned is
    what the consumers of the schedule have returned, in order, and
    what the one still in its critical section is about to return. *)
Theorem statements_refine_bridge n k ms d s :
  chan_fires ms (chan_start n k) = Ready d ->
  Forall (fun l => NUL ∉ l) (pushed (cin_sync d)) ->
  Forall nl_free (pushed (cout_sync d)) ->
  synced [] [] [] [] s ->
  exists s', run s (chan_trace ms (chan_start n k)) s' /\
    synced (cq (cin_sync d)) (cq (cout_sync d)) [] [] s' /\
    lines_in (chan_trace ms (chan_start n k)) = pushed (cin_sync d) /\
    gets (chan_trace ms (chan_start n k)) = unlines (popped (cin_sync d)) /\
    puts (chan_trace ms (chan_start n k)) = unlines (pushed (cout_sync d)) /\
    received (chan_trace ms (chan_start n k)) = c_view <$> popped (cout_sync d) /\
    results (chan_trace ms (chan_start n k)) = view_result <$> answered (cout_sync d).
Proof.
  intros Hf Hin Hout Hs.
  destruct (chan_fires_simulated ms _ d s (chan_inv_start n k) Hf Hin Hout Hs)
    as (s' & Hrun & Hs').
  destruct (chan_fires_history ms _ d (chan_inv_start n k) Hf)
    as (H1 & H2 & H3 & H4 & H5).
  by exists s'.
Qed.

End RefineProperties.

(** ** Witnesses *)

Lemma linearizable_witness :
  match fires demo_race (start 3) with
  | Ready c =>
      qrun (linear demo_race (start 3)) queue_new = Some (cq c) /\
      pushes (linear demo_race (start 3)) = pushed c /\
      pops (linear demo_race (start 3)) = popped c /\
      outcomes (linear demo_race (start 3)) = answered c
  | _ => False
  end.
Proof.
  destruct (fires _ (start 3)) as [c| |] eqn:E; [|vm_compute in E; discriminate..].
  by apply (linearizable 3 demo_race c).
Defined.

Lemma statements_refine_bridge_witness :
  match chan_fires demo_both (chan_start 2 2) with
  | Ready d =>
      exists s', run (started initial) (chan_trace demo_both (chan_start 2 2)) s' /\
        synced (cq (cin_sync d)) (cq (cout_sync d)) [] [] s' /\
        lines_in (chan_trace demo_both (chan_start 2 2)) = pushed (cin_sync d) /\
        gets (chan_trace demo_both (chan_start 2 2)) = unlines (popped (cin_sync d)) /\
        puts (chan_trace demo_both (chan_start 2 2)) = unlines (pushed (cout_sync d)) /\
        received (chan_trace demo_both (chan_start 2 2)) = c_view <$> popped (cout_sync d) /\
        results (chan_trace demo_both (chan_start 2 2)) =
          view_result <$> answered (cout_sync d)
  | _ => False
  end.
Proof.
  destruct (chan_fires _ (chan_start 2 2)) as [d| |] eqn:E;
    [|vm_compute in E; discriminate..].
  apply (statements_refine_bridge 2 2 demo_both d (started initial) E).
  - vm_compute in E. injection E as <-. simpl.
    repeat constructor. apply (bool_decide_unpack _). by vm_compute.
  - vm_compute in E. injection E as <-. simpl.
    repeat constructor. apply (bool_decide_unpack _). by vm_compute.
  - apply (synced_started initial inv_initial).
Defined.
